(** * Crushify: the batch conversion engine of [src/main.mjs]

    A shallow embedding of the [ImageProcessor] class: the static format
    registry, the merge of processing options, the cache key, the
    single-file pipeline ([processFile] / [#processImage]), the folder
    batch ([processFolder]) and the statistics, followed by the properties
    the specification states about them.

    Conventions of the embedding.
    - JavaScript strings are [string] (sequences of bytes); [toLowerCase]
      acts on the ASCII letters only.
    - JavaScript numbers that hold byte counts, counters and option values
      are integers ([Z], [nat]); the quotients the code computes and prints
      (the saving percentage, the average saving, the progress) are
      doubles, kept as the rational a double holds exactly, and every
      division and multiplication rounds to the nearest double.
    - A path names a file or a directory by its text. A path is an entry
      of its parent directory when [path.join] of [path.dirname] and
      [path.basename] gives the path back.
    - Objects are association lists in property enumeration order, because
      [JSON.stringify] and the spread operator observe that order.
    - The file system, the clock and the sharp encoder are an explicit
      world inside the state; every call that reaches them is recorded in
      a trace.
    - Only the listeners the class installs itself are run by [emit]. *)

From Stdlib Require Import ZArith QArith Qround Qabs Ascii String List Lia Sorted.
From Stdlib Require Import DecimalString DecimalZ DecimalN.
From stdpp Require Import gmap strings list fin_maps.

(** ** Strings *)

Module Str.

Definition dquote : ascii := "034"%char.
Definition backslash : ascii := "092"%char.
Definition newline : ascii := "010"%char.

Definition lower_ascii (c : ascii) : ascii :=
  let n := nat_of_ascii c in
  if (65 <=? n) && (n <=? 90) then ascii_of_nat (n + 32) else c.

(** [String.prototype.toLowerCase], on the ASCII letters. *)
Fixpoint toLowerCase (s : string) : string :=
  match s with
  | EmptyString => EmptyString
  | String c t => String (lower_ascii c) (toLowerCase t)
  end.

(** [s.slice(1)] *)
Definition slice1 (s : string) : string :=
  match s with
  | EmptyString => EmptyString
  | String _ t => t
  end.

Definition is_empty (s : string) : bool :=
  match s with
  | EmptyString => true
  | String _ _ => false
  end.

(** [l.join(sep)] *)
Fixpoint join (sep : string) (l : list string) : string :=
  match l with
  | [] => EmptyString
  | [x] => x
  | x :: t => x +:+ sep +:+ join sep t
  end.

(** Decimal rendering of an integer, as [String(n)] gives it for the
    integers a double holds exactly. *)
Definition of_Z (z : Z) : string := NilEmpty.string_of_int (Z.to_int z).

Definition of_nat (n : nat) : string := of_Z (Z.of_nat n).

Fixpoint all_chars (p : ascii -> bool) (s : string) : bool :=
  match s with
  | EmptyString => true
  | String c t => p c && all_chars p t
  end.

Fixpoint take_while {A} (p : A -> bool) (l : list A) : list A :=
  match l with
  | [] => []
  | x :: t => if p x then x :: take_while p t else []
  end.

Fixpoint drop_while {A} (p : A -> bool) (l : list A) : list A :=
  match l with
  | [] => []
  | x :: t => if p x then drop_while p t else l
  end.

End Str.

(** ** JavaScript values and objects *)

Module Js.

Inductive JsValue : Type :=
| JUndefined
| JNull
| JBool (b : bool)
| JNum (z : Z)
| JStr (s : string).

#[global] Instance JsValue_eq_dec : EqDecision JsValue.
Proof. solve_decision. Defined.

(** ToBoolean *)
Definition truthy (v : JsValue) : bool :=
  match v with
  | JUndefined | JNull => false
  | JBool b => b
  | JNum z => negb (z =? 0)%Z
  | JStr s => negb (Str.is_empty s)
  end.

(** An object: its own enumerable properties in enumeration order. *)
Definition Obj : Type := list (string * JsValue).

Definition keys (o : Obj) : list string := map fst o.

Fixpoint get (k : string) (o : Obj) : option JsValue :=
  match o with
  | [] => None
  | (k', v) :: t => if String.eqb k k' then Some v else get k t
  end.

Definition has (k : string) (o : Obj) : bool :=
  match get k o with Some _ => true | None => false end.

(** [o.k] for a property that may be absent. *)
Definition prop (k : string) (o : Obj) : JsValue :=
  match get k o with Some v => v | None => JUndefined end.

(** A property name is an array index when it is the canonical decimal
    form of an integer below 2^32 - 1; such names are enumerated first,
    in increasing numeric order. *)
Definition array_index (k : string) : option N :=
  match NilEmpty.uint_of_string k with
  | Some d =>
      let n := N.of_uint d in
      if String.eqb k (NilEmpty.string_of_uint (N.to_uint n)) && (n <? 4294967295)%N
      then Some n else None
  | None => None
  end.

Fixpoint update (k : string) (v : JsValue) (o : Obj) : Obj :=
  match o with
  | [] => []
  | (k', v') :: t =>
      if String.eqb k k' then (k', v) :: t else (k', v') :: update k v t
  end.

Fixpoint insert_index (n : N) (k : string) (v : JsValue) (o : Obj) : Obj :=
  match o with
  | [] => [(k, v)]
  | (k', v') :: t =>
      match array_index k' with
      | Some n' =>
          if (n' <? n)%N then (k', v') :: insert_index n k v t
          else (k, v) :: o
      | None => (k, v) :: o
      end
  end.

(** CreateDataProperty: an existing property keeps its place, a new
    array index is put in numeric position, any other new name goes
    last. *)
Definition define (k : string) (v : JsValue) (o : Obj) : Obj :=
  if has k o then update k v o
  else match array_index k with
       | Some n => insert_index n k v o
       | None => o ++ [(k, v)]
       end.

(** [{ ...target, ...src }] *)
Definition spread (target src : Obj) : Obj :=
  fold_left (fun acc kv => define (fst kv) (snd kv) acc) src target.

(** [const { k, ...rest } = o] *)
Definition without (k : string) (o : Obj) : Obj :=
  List.filter (fun kv => negb (String.eqb k (fst kv))) o.

(** *** JSON.stringify *)

Definition hex_digit (n : nat) : ascii :=
  match n with
  | 0 => "0" | 1 => "1" | 2 => "2" | 3 => "3" | 4 => "4" | 5 => "5"
  | 6 => "6" | 7 => "7" | 8 => "8" | 9 => "9" | 10 => "a" | 11 => "b"
  | 12 => "c" | 13 => "d" | 14 => "e" | _ => "f"
  end%char.

(** QuoteJSONString, one character. *)
Definition esc_char (c : ascii) : string :=
  let n := nat_of_ascii c in
  if n =? 8 then "\b"
  else if n =? 9 then "\t"
  else if n =? 10 then "\n"
  else if n =? 12 then "\f"
  else if n =? 13 then "\r"
  else if n <? 32 then
    "\u00" +:+ String (hex_digit (n / 16)) (String (hex_digit (n mod 16)) EmptyString)
  else if n =? 34 then String Str.backslash (String Str.dquote EmptyString)
  else if n =? 92 then String Str.backslash (String Str.backslash EmptyString)
  else String c EmptyString.

(** Reads one escaped character back from the front of a text; nothing
    is read from a text that opens with a bare quote. *)
Definition hex_value (c : ascii) : nat :=
  let n := nat_of_ascii c in
  if n <? 58 then n - 48 else n - 87.

Definition unesc_char (s : string) : option (ascii * string) :=
  match s with
  | EmptyString => None
  | String c r =>
      if Ascii.eqb c Str.dquote then None
      else if Ascii.eqb c Str.backslash then
        match r with
        | EmptyString => None
        | String "b" r' => Some ("008"%char, r')
        | String "t" r' => Some ("009"%char, r')
        | String "n" r' => Some ("010"%char, r')
        | String "f" r' => Some ("012"%char, r')
        | String "r" r' => Some ("013"%char, r')
        | String "u" (String _ (String _ (String h1 (String h2 r')))) =>
            Some (ascii_of_nat (16 * hex_value h1 + hex_value h2), r')
        | String c2 r' => Some (c2, r')
        end
      else Some (c, r)
  end.

(** The characters of the texts [null], [true], [false] and of decimal
    integers; the separators that follow a value are not among them. *)
Definition atom_char (c : ascii) : bool :=
  let n := nat_of_ascii c in
  ((48 <=? n) && (n <=? 57)) || (n =? 45) || ((97 <=? n) && (n <=? 122)).

Definition digit_char (c : ascii) : bool :=
  let n := nat_of_ascii c in
  ((48 <=? n) && (n <=? 57)) || (n =? 45).

Fixpoint escape (s : string) : string :=
  match s with
  | EmptyString => EmptyString
  | String c t => esc_char c +:+ escape t
  end.

Definition quote (s : string) : string :=
  String Str.dquote (escape s +:+ String Str.dquote EmptyString).

(** The text of a value that is not [undefined]. *)
Definition ser_value (v : JsValue) : string :=
  match v with
  | JUndefined => EmptyString
  | JNull => "null"
  | JBool true => "true"
  | JBool false => "false"
  | JNum z => Str.of_Z z
  | JStr s => quote s
  end.

Definition ser_entry (kv : string * JsValue) : string :=
  quote (fst kv) +:+ ":" +:+ ser_value (snd kv).

(** Properties whose value is [undefined] are left out. *)
Definition visible (o : Obj) : Obj :=
  List.filter (fun kv => negb (bool_decide (snd kv = JUndefined))) o.

Definition stringify (o : Obj) : string :=
  "{" +:+ Str.join "," (map ser_entry (visible o)) +:+ "}".

(** What follows an entry in the text of an object: the remaining
    entries, each after a comma, and the closing brace. *)
Fixpoint tail_text (es : list (string * JsValue)) : string :=
  match es with
  | [] => "}"
  | e :: t => "," +:+ ser_entry e +:+ tail_text t
  end.

(** Vocabulary for the properties of the serialisation and of the merge. *)

Definition is_atom (v : JsValue) : Prop :=
  match v with JStr _ | JUndefined => False | _ => True end.

Definition separator (t : ascii) : Prop := t = ","%char \/ t = "}"%char.

Definition all_visible (es : list (string * JsValue)) : Prop :=
  Forall (fun kv => snd kv <> JUndefined) es.

(** A property of a source object that the target does not have yet. *)
Definition new_key (base : Obj) (kv : string * JsValue) : bool :=
  negb (has (fst kv) base).

End Js.

(** ** Paths

    The functions of Node's [path] module (POSIX flavour) that the
    processor calls, on character lists and then on strings. *)

Module Path.

Definition slash : ascii := "/"%char.
Definition dot : ascii := "."%char.

Definition is_slash (c : ascii) : bool := Ascii.eqb c slash.
Definition not_slash (c : ascii) : bool := negb (is_slash c).
Definition not_dot (c : ascii) : bool := negb (Ascii.eqb c dot).

(** The last component of a path, reversed: trailing separators are
    dropped, then everything up to the next separator is taken. *)
Definition seg_rev (p : list ascii) : list ascii :=
  Str.take_while not_slash (Str.drop_while is_slash (rev p)).

Definition basename_l (p : list ascii) : list ascii := rev (seg_rev p).

(** [path.extname]: from the last dot of the last component, unless that
    dot opens the component or the component is [..]. *)
Definition extname_l (p : list ascii) : list ascii :=
  let sr := seg_rev p in
  let er := Str.take_while not_dot sr in
  match drop (length er) sr with
  | [] => []
  | [_] => []
  | _ :: _ :: _ => if bool_decide (sr = [dot; dot]) then [] else dot :: rev er
  end.

(** [path.basename(p, ext)]: the extension is removed when the component
    ends with it and is longer than it. *)
Definition strip_suffix (ext base : list ascii) : list ascii :=
  let n := (length base - length ext)%nat in
  if bool_decide (drop n base = ext) && negb (n =? 0) && negb (length ext =? 0)
  then take n base else base.

Definition basename_ext_l (p ext : list ascii) : list ascii :=
  strip_suffix ext (basename_l p).

(** [path.dirname] *)
Definition dirname_l (p : list ascii) : list ascii :=
  match p with
  | [] => [dot]
  | first :: rest =>
      let root := is_slash first in
      match Str.drop_while not_slash (Str.drop_while is_slash (rev rest)) with
      | [] => if root then [slash] else [dot]
      | _ :: up =>
          if root && bool_decide (up = []) then [slash; slash]
          else first :: rev up
      end
  end.

(** Components of a path, split at every separator. *)
Fixpoint split (p : list ascii) : list (list ascii) :=
  match p with
  | [] => [[]]
  | c :: t =>
      if is_slash c then [] :: split t
      else match split t with
           | [] => [[c]]
           | s :: ss => (c :: s) :: ss
           end
  end.

(** One step of [normalizeString]: the stack holds the components kept
    so far, last first. *)
Definition norm_step (above : bool) (stack : list (list ascii)) (seg : list ascii)
  : list (list ascii) :=
  if bool_decide (seg = []) || bool_decide (seg = [dot]) then stack
  else if bool_decide (seg = [dot; dot]) then
    match stack with
    | [] => if above then [seg] else []
    | top :: below =>
        if bool_decide (top = [dot; dot])
        then (if above then seg :: stack else stack)
        else below
    end
  else seg :: stack.

Fixpoint render (segs : list (list ascii)) : list ascii :=
  match segs with
  | [] => []
  | [s] => s
  | s :: t => s ++ slash :: render t
  end.

Definition starts_with_slash (p : list ascii) : bool :=
  match p with
  | c :: _ => is_slash c
  | [] => false
  end.

(** [path.normalize] *)
Definition normalize_l (p : list ascii) : list ascii :=
  match p with
  | [] => [dot]
  | _ =>
      let abs := starts_with_slash p in
      let trail := starts_with_slash (rev p) in
      let body := render (rev (fold_left (norm_step (negb abs)) (split p) [])) in
      match body with
      | [] => if abs then [slash] else if trail then [dot; slash] else [dot]
      | _ => (if abs then [slash] else []) ++ body ++ (if trail then [slash] else [])
      end
  end.

(** [path.join(a, b)] *)
Definition join_l (a b : list ascii) : list ascii :=
  match a, b with
  | [], [] => [dot]
  | [], _ => normalize_l b
  | _, [] => normalize_l a
  | _, _ => normalize_l (a ++ slash :: b)
  end.

Definition lift1 (f : list ascii -> list ascii) (p : string) : string :=
  string_of_list_ascii (f (list_ascii_of_string p)).

Definition lift2 (f : list ascii -> list ascii -> list ascii) (p q : string) : string :=
  string_of_list_ascii (f (list_ascii_of_string p) (list_ascii_of_string q)).

Definition extname : string -> string := lift1 extname_l.
Definition basename : string -> string := lift1 basename_l.
Definition basename_ext : string -> string -> string := lift2 basename_ext_l.
Definition dirname : string -> string := lift1 dirname_l.
Definition normalize : string -> string := lift1 normalize_l.
Definition join : string -> string -> string := lift2 join_l.

(** A directory entry: a non-empty name without separator that is
    neither [.] nor [..]. *)
Definition plain_name (f : string) : bool :=
  negb (Str.is_empty f)
  && Str.all_chars not_slash f
  && negb (String.eqb f ".") && negb (String.eqb f "..").

(** Vocabulary for the properties of [join]. *)

Definition plain_l (b : list ascii) : Prop :=
  b <> [] /\ forallb not_slash b = true /\ b <> [dot] /\ b <> [dot; dot].

Definition dir_prefix (pre : list ascii) : Prop :=
  pre = [] \/ exists q, pre = q ++ [slash].

(** What [join a] puts in front of a directory entry. *)
Definition join_prefix (a : list ascii) : list ascii :=
  match a with
  | [] => []
  | _ =>
      let abs := starts_with_slash a in
      (if abs then [slash] else [])
      ++ match rev (fold_left (norm_step (negb abs)) (split a) []) with
         | [] => []
         | segs => render segs ++ [slash]
         end
  end.

End Path.

(** ** The format registry ([#FORMAT_MAPPINGS]) *)

Module Registry.
Import Js.

Record FormatConfig : Type := {
  supportedInputs : list string;
  defaultQuality : Z;
  extension : string;
  options : Obj;
}.

Definition jpeg : FormatConfig := {|
  supportedInputs :=
    [".jpg"; ".jpeg"; ".png"; ".webp"; ".tiff"; ".avif"; ".gif"; ".svg"];
  defaultQuality := 80;
  extension := ".jpg";
  options :=
    [("progressive", JBool true); ("chromaSubsampling", JStr "4:4:4");
     ("mozjpeg", JBool true)];
|}.

Definition png : FormatConfig := {|
  supportedInputs := [".jpg"; ".jpeg"; ".webp"; ".tiff"; ".avif"; ".gif"; ".svg"];
  defaultQuality := 100;
  extension := ".png";
  options := [("compressionLevel", JNum 6); ("palette", JBool true)];
|}.

Definition webp : FormatConfig := {|
  supportedInputs := [".jpg"; ".jpeg"; ".png"; ".tiff"; ".avif"; ".gif"; ".svg"];
  defaultQuality := 80;
  extension := ".webp";
  options :=
    [("lossless", JBool false); ("effort", JNum 4); ("nearLossless", JBool false);
     ("alphaQuality", JNum 100)];
|}.

Definition avif : FormatConfig := {|
  supportedInputs := [".jpg"; ".jpeg"; ".png"; ".webp"; ".tiff"; ".gif"; ".svg"];
  defaultQuality := 65;
  extension := ".avif";
  options :=
    [("effort", JNum 4); ("chromaSubsampling", JStr "4:4:4"); ("lossless", JBool false)];
|}.

Definition tiff : FormatConfig := {|
  supportedInputs := [".jpg"; ".jpeg"; ".png"; ".webp"; ".avif"; ".gif"; ".svg"];
  defaultQuality := 100;
  extension := ".tiff";
  options :=
    [("compression", JStr "lzw"); ("quality", JNum 100); ("pyramid", JBool false);
     ("tile", JBool false)];
|}.

Definition gif : FormatConfig := {|
  supportedInputs := [".jpg"; ".jpeg"; ".png"; ".webp"; ".tiff"; ".avif"; ".svg"];
  defaultQuality := 100;
  extension := ".gif";
  options := [("colours", JNum 256); ("dither", JNum 1)];
|}.

Definition svg : FormatConfig := {|
  supportedInputs := [".jpg"; ".jpeg"; ".png"; ".webp"; ".tiff"; ".avif"; ".gif"];
  defaultQuality := 100;
  extension := ".svg";
  options := [("density", JNum 300)];
|}.

Definition FORMAT_MAPPINGS : list (string * FormatConfig) :=
  [("jpeg", jpeg); ("png", png); ("webp", webp); ("avif", avif);
   ("tiff", tiff); ("gif", gif); ("svg", svg)].

(** What [FORMAT_MAPPINGS[name]] evaluates to. The table is a plain
    object, so a name it does not own is still looked up on
    [Object.prototype]; [constructor] and [__proto__] are the inherited
    members a lower-cased name can reach, and both are truthy values
    without a [supportedInputs] member. *)
Inductive Lookup : Type :=
| Own (cfg : FormatConfig)
| Inherited
| Missing.

Fixpoint assoc {A} (k : string) (l : list (string * A)) : option A :=
  match l with
  | [] => None
  | (k', a) :: t => if String.eqb k k' then Some a else assoc k t
  end.

Definition lookup (name : string) : Lookup :=
  match assoc name FORMAT_MAPPINGS with
  | Some cfg => Own cfg
  | None =>
      if String.eqb name "constructor" || String.eqb name "__proto__"
      then Inherited else Missing
  end.

(** [supportedInputs.includes(ext)] *)
Definition includes (ext : string) (l : list string) : bool :=
  existsb (String.eqb ext) l.

End Registry.

(** ** Numbers that are rendered as text *)

Module Num.

(** A double: the rational it holds exactly, or one of the non-finite
    values. Byte counts and counters are integers below [2^53], which a
    double holds exactly. *)
Inductive Num : Type :=
| Fin (q : Q)
| NaN
| Inf (negative : bool).

(** [2^e] *)
Definition pow2 (e : Z) : Q :=
  match e with
  | Z.neg p => 1 # (2 ^ p)
  | _ => inject_Z (2 ^ e)
  end.

(** [floor(log2 q)] for a positive [q]. *)
Definition ilog2 (q : Q) : Z :=
  let g := (Z.log2 (Qnum q) - Z.log2 (Zpos (Qden q)))%Z in
  if Qle_bool (pow2 g) q then g else (g - 1)%Z.

(** The integer nearest to a non-negative [q], the even one on a tie. *)
Definition half_even (q : Q) : Z :=
  let f := Qfloor q in
  match Qcompare (q - inject_Z f)%Q (1 # 2) with
  | Lt => f
  | Gt => (f + 1)%Z
  | Eq => if Z.even f then f else (f + 1)%Z
  end.

(** The double nearest to the real [q] (binary64, round to nearest, ties
    to even): 53 significant bits, the last of them worth no less than
    [2^-1074], and infinity from [2^1024] on. *)
Definition round (q : Q) : Num :=
  let m := Qabs q in
  match Qcompare m 0 with
  | Eq => Fin 0
  | _ =>
      let e := Z.max (ilog2 m - 52) (-1074) in
      let v := (inject_Z (half_even (m / pow2 e)) * pow2 e)%Q in
      let negative := negb (Qle_bool 0 q) in
      if Qle_bool (pow2 1024) v then Inf negative
      else Fin (Qred (if negative then (- v)%Q else v))
  end.

(** [a / b] for two integers. *)
Definition div (a b : Z) : Num :=
  if (b =? 0)%Z then (if (a =? 0)%Z then NaN else Inf (a <? 0)%Z)
  else round (inject_Z a / inject_Z b)%Q.

(** [x * k] for a positive constant [k]. *)
Definition scale (x : Num) (k : Z) : Num :=
  match x with
  | Fin q => round (q * inject_Z k)%Q
  | _ => x
  end.

(** [x / k] for a positive constant [k]. *)
Definition over (x : Num) (k : Z) : Num :=
  match x with
  | Fin q => round (q / inject_Z k)%Q
  | _ => x
  end.

(** Digits of [m], exactly [d] of them. *)
Fixpoint pad (d : nat) (m : Z) : string :=
  match d with
  | O => EmptyString
  | S d' => Str.of_Z ((m / 10 ^ Z.of_nat d') mod 10) +:+ pad d' m
  end.

(** The magnitude of [q] in units of [10^-d], to the nearest unit, the
    larger one on a tie. *)
Definition units (d : nat) (q : Q) : Z :=
  Qfloor (Qabs q * inject_Z (10 ^ Z.of_nat d) + (1 # 2)).

Definition is_negative (q : Q) : bool := negb (Qle_bool 0 q).

Definition fixed_text (d : nat) (n : Z) : string :=
  Str.of_Z (n / 10 ^ Z.of_nat d)
  +:+ (match d with O => EmptyString | S _ => "." +:+ pad d (n mod 10 ^ Z.of_nat d) end).

(** [x.toFixed(d)] *)
Definition toFixed (d : nat) (x : Num) : string :=
  match x with
  | Fin q => (if is_negative q then "-" else EmptyString) +:+ fixed_text d (units d q)
  | NaN => "NaN"
  | Inf false => "Infinity"
  | Inf true => "-Infinity"
  end.

(** [String(n / 10^d)] for [0 <= n]: the shortest decimal form, without
    trailing zeros. *)
Fixpoint shortest_text (d : nat) (n : Z) : string :=
  match d with
  | O => Str.of_Z n
  | S d' => if (n mod 10 =? 0)%Z then shortest_text d' (n / 10) else fixed_text d n
  end.

(** [Math.abs(x.toFixed(d))] in a template literal: the text is read
    back as a number, its sign is dropped, and the number is printed. *)
Definition abs_of_fixed (d : nat) (x : Num) : string :=
  match x with
  | Fin q => shortest_text d (units d q)
  | NaN => "NaN"
  | Inf _ => "Infinity"
  end.

End Num.

(** ** Errors, results, statistics *)

#[warnings="-register-all"]
Inductive JsError : Type :=
| Err (msg : string) (originalError : option JsError) (filePath : option string).

Definition err_message (e : JsError) : string :=
  match e with Err m _ _ => m end.

Definition err_original (e : JsError) : option JsError :=
  match e with Err _ o _ => o end.

Definition err_file (e : JsError) : option string :=
  match e with Err _ _ f => f end.

(** [new Error(msg)] *)
Definition new_Error (msg : string) : JsError := Err msg None None.

Record ResultStats : Type := {
  inputSize : Z;
  outputSize : Z;
  savedSize : Z;
  savingPercent : string;
}.

Record ProcessingResult : Type := {
  success : bool;
  message : string;
  stats : option ResultStats;
  error : option JsError;
}.

Record Stats : Type := {
  processed : nat;
  failed : nat;
  skipped : nat;
  totalSaved : Z;
  startTime : option Z;
  endTime : option Z;
}.

Definition zero_stats : Stats := {|
  processed := 0; failed := 0; skipped := 0; totalSaved := 0;
  startTime := None; endTime := None;
|}.

(** Everything the processor does to the outside, in the order it happens. *)
Inductive IOEvent : Type :=
| IoAccess (p : string)
| IoStat (p : string)
| IoMkdir (p : string)
| IoReaddir (p : string)
| IoUnlink (p : string)
| IoEncode (input format : string) (opts : Js.Obj) (output : string)
| IoConsoleError (msg : string)
| IoProgress (file : string) (progress : Q) (result : ProcessingResult).

(** The processor ([#stats], [#cache]) together with the world it acts
    on: regular files with their size, directories with their listing,
    the number of clock readings so far and the trace. *)
Record State : Type := {
  st_stats : Stats;
  st_cache : gmap string ProcessingResult;
  st_files : gmap string Z;
  st_dirs : gmap string (list string);
  st_ticks : nat;
  st_trace : list IOEvent;
}.

(** The part of the world the processor cannot change: which paths refuse
    read access, directory creation or removal, what the encoder does with
    a request, and what the clock shows at each reading. *)
Record Env : Type := {
  access_denied : string -> bool;
  mkdir_error : string -> option string;
  unlink_error : string -> option string;
  encoder : string -> string -> Js.Obj -> string -> Z + string;
  clock : nat -> Z;
}.

(** ** Computations that read and change the state and may throw *)

Inductive Outcome (A : Type) : Type :=
| Ok (a : A)
| Throw (e : JsError).

Arguments Ok {A} a.
Arguments Throw {A} e.

Definition M (A : Type) : Type := State -> Outcome A * State.

Definition ret {A} (a : A) : M A := fun s => (Ok a, s).

Definition bind {A B} (m : M A) (k : A -> M B) : M B :=
  fun s =>
    match m s with
    | (Ok a, s') => k a s'
    | (Throw e, s') => (Throw e, s')
    end.

Definition throw {A} (e : JsError) : M A := fun s => (Throw e, s).

(** [try { m } catch (e) { h e }] *)
Definition try_catch {A} (m : M A) (h : JsError -> M A) : M A :=
  fun s =>
    match m s with
    | (Ok a, s') => (Ok a, s')
    | (Throw e, s') => h e s'
    end.

(** The outcome of [m] as a value: what a [try] block around [m] sees. *)
Definition attempt {A} (m : M A) : M (Outcome A) :=
  fun s => let (r, s') := m s in (Ok r, s').

Definition gets {A} (f : State -> A) : M A := fun s => (Ok (f s), s).

Definition modify (f : State -> State) : M unit := fun s => (Ok tt, f s).

Notation "x <- m ;; k" := (bind m (fun x => k))
  (at level 100, m at next level, right associativity).
Notation "m ;; k" := (bind m (fun _ => k))
  (at level 100, right associativity).

(** *** Field updates *)

Definition with_stats (f : Stats -> Stats) (s : State) : State :=
  {| st_stats := f (st_stats s); st_cache := st_cache s; st_files := st_files s;
     st_dirs := st_dirs s; st_ticks := st_ticks s; st_trace := st_trace s |}.

Definition with_cache (f : gmap string ProcessingResult -> gmap string ProcessingResult)
    (s : State) : State :=
  {| st_stats := st_stats s; st_cache := f (st_cache s); st_files := st_files s;
     st_dirs := st_dirs s; st_ticks := st_ticks s; st_trace := st_trace s |}.

Definition with_files (f : gmap string Z -> gmap string Z) (s : State) : State :=
  {| st_stats := st_stats s; st_cache := st_cache s; st_files := f (st_files s);
     st_dirs := st_dirs s; st_ticks := st_ticks s; st_trace := st_trace s |}.

Definition with_dirs (f : gmap string (list string) -> gmap string (list string))
    (s : State) : State :=
  {| st_stats := st_stats s; st_cache := st_cache s; st_files := st_files s;
     st_dirs := f (st_dirs s); st_ticks := st_ticks s; st_trace := st_trace s |}.

Definition tick (s : State) : State :=
  {| st_stats := st_stats s; st_cache := st_cache s; st_files := st_files s;
     st_dirs := st_dirs s; st_ticks := S (st_ticks s); st_trace := st_trace s |}.

(** The state after the events [evs] have been added to the trace. *)
Definition logged (evs : list IOEvent) (s : State) : State :=
  {| st_stats := st_stats s; st_cache := st_cache s; st_files := st_files s;
     st_dirs := st_dirs s; st_ticks := st_ticks s; st_trace := st_trace s ++ evs |}.

Definition log (ev : IOEvent) : M unit := modify (logged [ev]).

Definition incr_processed (t : Stats) : Stats :=
  {| processed := S (processed t); failed := failed t; skipped := skipped t;
     totalSaved := totalSaved t; startTime := startTime t; endTime := endTime t |}.

Definition incr_failed (t : Stats) : Stats :=
  {| processed := processed t; failed := S (failed t); skipped := skipped t;
     totalSaved := totalSaved t; startTime := startTime t; endTime := endTime t |}.

Definition incr_skipped (t : Stats) : Stats :=
  {| processed := processed t; failed := failed t; skipped := S (skipped t);
     totalSaved := totalSaved t; startTime := startTime t; endTime := endTime t |}.

Definition add_saved (n : Z) (t : Stats) : Stats :=
  {| processed := processed t; failed := failed t; skipped := skipped t;
     totalSaved := (totalSaved t + n)%Z; startTime := startTime t; endTime := endTime t |}.

Definition set_startTime (now : Z) (t : Stats) : Stats :=
  {| processed := processed t; failed := failed t; skipped := skipped t;
     totalSaved := totalSaved t; startTime := Some now; endTime := endTime t |}.

Definition set_endTime (now : Z) (t : Stats) : Stats :=
  {| processed := processed t; failed := failed t; skipped := skipped t;
     totalSaved := totalSaved t; startTime := startTime t; endTime := Some now |}.

(** ** The processor *)

Record FileRequest : Type := {
  input : string;
  output : option string;
  format : string;
  processingOptions : Js.Obj;
}.

Record FolderRequest : Type := {
  folder : string;
  dest : string;
  folder_format : string;
  folder_processingOptions : Js.Obj;
}.

(** A progress callback: what it is called with is recorded in the trace;
    the function says whether the call returns ([None]) or throws. *)
Definition Callback : Type := string -> Q -> ProcessingResult -> option JsError.

Record StatInfo : Type := {
  isFile : bool;
  size : Z;
}.

Record StatsView : Type := {
  view : Stats;
  processingTime : option Q;
  averageSaving : option string;
}.

(** ** Directories and their listings *)

(** A listing once [name] is in it, and once it is not. *)
Definition add_name (name : string) (l : list string) : list string :=
  if existsb (String.eqb name) l then l else l ++ [name].

Definition drop_name (name : string) (l : list string) : list string :=
  List.filter (fun n => negb (String.eqb name n)) l.

(** [p] is the entry [basename p] of the directory [dirname p]; the root
    and the working directory are entries of nothing. *)
Definition is_entry (p : string) : bool :=
  String.eqb (Path.join (Path.dirname p) (Path.basename p)) p
  && negb (String.eqb (Path.dirname p) p).

(** The listings once [p] has appeared in its directory, and once it has
    gone from it. *)
Definition enter (p : string) (dirs : gmap string (list string))
  : gmap string (list string) :=
  if is_entry p then alter (add_name (Path.basename p)) (Path.dirname p) dirs else dirs.

Definition leave (p : string) (dirs : gmap string (list string))
  : gmap string (list string) :=
  if is_entry p then alter (drop_name (Path.basename p)) (Path.dirname p) dirs else dirs.

(** [p] and the directories above it, nearest first. *)
Fixpoint lineage (fuel : nat) (p : string) : list string :=
  match fuel with
  | O => [p]
  | S k => if String.eqb (Path.dirname p) p then [p] else p :: lineage k (Path.dirname p)
  end.

(** [mkdir] of one directory whose parent is there: an existing directory
    is left as it is, a new one is empty and enters the listing of its
    parent. *)
Definition make_one (q : string) (dirs : gmap string (list string))
  : gmap string (list string) :=
  match dirs !! q with
  | Some _ => dirs
  | None => <[q := []]> (enter q dirs)
  end.

(** [mkdir -p]: the missing directories above [p] are made first. *)
Definition make_dirs (p : string) (dirs : gmap string (list string))
  : gmap string (list string) :=
  fold_right make_one dirs (lineage (S (String.length p)) p).

Section Processor.
Import Js Registry.

Variable env : Env.

(** *** The world's primitives *)

Definition exists_path (s : State) (p : string) : bool :=
  bool_decide (is_Some (st_files s !! p)) || bool_decide (is_Some (st_dirs s !! p)).

(** [fs.access(p, R_OK)] *)
Definition fs_access (p : string) : M unit :=
  log (IoAccess p) ;;
  here <- gets (fun s => exists_path s p) ;;
  if negb here then
    throw (new_Error ("ENOENT: no such file or directory, access '" +:+ p +:+ "'"))
  else if access_denied env p then
    throw (new_Error ("EACCES: permission denied, access '" +:+ p +:+ "'"))
  else ret tt.

(** [fs.stat(p)] *)
Definition fs_stat (p : string) : M StatInfo :=
  log (IoStat p) ;;
  f <- gets (fun s => st_files s !! p) ;;
  d <- gets (fun s => st_dirs s !! p) ;;
  match f, d with
  | Some n, _ => ret {| isFile := true; size := n |}
  | None, Some _ => ret {| isFile := false; size := 0 |}
  | None, None =>
      throw (new_Error ("ENOENT: no such file or directory, stat '" +:+ p +:+ "'"))
  end.

(** [fs.mkdir(p, { recursive: true })]: whether the directory can be
    made is the environment's [mkdir_error]; making one that exists
    changes nothing; otherwise the directory and the missing ones above
    it are made, each entering the listing of its parent. *)
Definition fs_mkdir (p : string) : M unit :=
  log (IoMkdir p) ;;
  d <- gets (fun s => st_dirs s !! p) ;;
  match mkdir_error env p, d with
  | Some msg, _ => throw (new_Error msg)
  | None, Some _ => ret tt
  | None, None => modify (with_dirs (make_dirs p))
  end.

(** [fs.readdir(p)] *)
Definition fs_readdir (p : string) : M (list string) :=
  log (IoReaddir p) ;;
  f <- gets (fun s => st_files s !! p) ;;
  d <- gets (fun s => st_dirs s !! p) ;;
  match d, f with
  | Some names, _ => ret names
  | None, Some _ => throw (new_Error ("ENOTDIR: not a directory, scandir '" +:+ p +:+ "'"))
  | None, None =>
      throw (new_Error ("ENOENT: no such file or directory, scandir '" +:+ p +:+ "'"))
  end.

(** [fs.unlink(p)] *)
Definition fs_unlink (p : string) : M unit :=
  log (IoUnlink p) ;;
  f <- gets (fun s => st_files s !! p) ;;
  match f, unlink_error env p with
  | None, _ =>
      throw (new_Error ("ENOENT: no such file or directory, unlink '" +:+ p +:+ "'"))
  | Some _, Some msg => throw (new_Error msg)
  | Some _, None => modify (fun s => with_dirs (leave p) (with_files (delete p) s))
  end.

(** [sharp(input).withMetadata().rotate().toFormat(fmt, opts).toFile(output)] *)
Definition sharp_toFile (filePath fmt : string) (opts : Obj) (outputPath : string)
  : M unit :=
  log (IoEncode filePath fmt opts outputPath) ;;
  match encoder env filePath fmt opts outputPath with
  | inl bytes =>
      modify (fun s => with_dirs (enter outputPath) (with_files (insert outputPath bytes) s))
  | inr msg => throw (new_Error msg)
  end.

(** [Date.now()] *)
Definition date_now : M Z :=
  fun s => (Ok (clock env (st_ticks s)), tick s).

(** *** Event handlers *)

Definition handleError (e : JsError) : M unit :=
  log (IoConsoleError (err_message e)).

Definition handleProcessingStart : M unit :=
  now <- date_now ;; modify (with_stats (set_startTime now)).

Definition handleProcessingComplete : M unit :=
  now <- date_now ;; modify (with_stats (set_endTime now)).

Inductive Event : Type :=
| ProcessingStart
| ProcessingComplete
| ErrorEvent (e : JsError).

(** [this.emit(event)], with the listeners of [#bindEventHandlers]. *)
Definition emit (ev : Event) : M unit :=
  match ev with
  | ProcessingStart => handleProcessingStart
  | ProcessingComplete => handleProcessingComplete
  | ErrorEvent e => handleError e
  end.

(** *** Private methods *)

(** [#validateFile] *)
Definition validateFile (filePath : string) : M unit :=
  try_catch
    (fs_access filePath ;;
     st <- fs_stat filePath ;;
     if negb (isFile st) then throw (new_Error "Path is not a file") else ret tt)
    (fun error => throw (new_Error ("Invalid file path: " +:+ err_message error))).

(** [#validateFormat] *)
Definition validateFormat (inputPath fmt : string) : M FormatConfig :=
  let inputExt := Str.toLowerCase (Path.extname inputPath) in
  match lookup (Str.toLowerCase fmt) with
  | Missing => throw (new_Error ("Unsupported output format: " +:+ fmt))
  | Inherited =>
      throw (new_Error "Cannot read properties of undefined (reading 'includes')")
  | Own formatConfig =>
      if negb (includes inputExt (supportedInputs formatConfig)) then
        throw (new_Error
          ("Cannot convert " +:+ inputExt +:+ " to " +:+ fmt
           +:+ ". Supported input formats: "
           +:+ Str.join ", " (supportedInputs formatConfig)))
      else ret formatConfig
  end.

(** [#formatResultMessage] *)
Definition formatResultMessage (fileName : string) (inputSize outputSize : Z)
    (savingPercent : Num.Num) : string :=
  let grew := (inputSize <? outputSize)%Z in
  let prefix := if grew then "⚠️ Size increased" else "✅ Size reduced" in
  let nl := String Str.newline "    " in
  prefix +:+ " - " +:+ fileName
  +:+ nl +:+ "Original: " +:+ Num.toFixed 2 (Num.div inputSize 1024) +:+ "KB"
  +:+ nl +:+ "New: " +:+ Num.toFixed 2 (Num.div outputSize 1024) +:+ "KB"
  +:+ nl +:+ "Change: " +:+ (if grew then "+" else "-")
  +:+ Num.abs_of_fixed 1 savingPercent +:+ "%".

(** [#generateResult]. The local [savingPercent] of the source is the
    text [toFixed(1)] returns; it is kept here as the number it renders,
    and turned into text where the source uses it. *)
Definition generateResult (filePath : string) (inputSize outputSize : Z)
  : ProcessingResult :=
  let savedSize := (inputSize - outputSize)%Z in
  let savingPercent := Num.scale (Num.div savedSize inputSize) 100 in
  let fileName := Path.basename filePath in
  {| success := true;
     message := formatResultMessage fileName inputSize outputSize savingPercent;
     stats := Some {|
       inputSize := inputSize;
       outputSize := outputSize;
       savedSize := savedSize;
       savingPercent :=
         if (savedSize <? 0)%Z then "+" +:+ Num.abs_of_fixed 1 savingPercent
         else "-" +:+ Num.toFixed 1 savingPercent |};
     error := None |}.

(** [#enhanceError] *)
Definition enhanceError (e : JsError) (filePath : string) : JsError :=
  Err ("Processing failed for " +:+ filePath +:+ ": " +:+ err_message e)
      (Some e) (Some filePath).

Definition cacheKey (filePath : string) (options : Obj) : string :=
  filePath +:+ ":" +:+ stringify options.

Definition saved_of (r : ProcessingResult) : Z :=
  match stats r with
  | Some t => savedSize t
  | None => 0
  end.

(** [#processImage] *)
Definition processImage (filePath outputPath : string) (options : Obj)
  : M ProcessingResult :=
  try_catch
    (validateFile filePath ;;
     st <- fs_stat filePath ;;
     let inputSize := size st in
     let key := cacheKey filePath options in
     hit <- gets (fun s => st_cache s !! key) ;;
     match hit with
     | Some cached =>
         modify (with_stats incr_skipped) ;;
         ret cached
     | None =>
         let allOptions := without "format" options in
         sharp_toFile filePath (Str.slice1 (Path.extname outputPath)) allOptions outputPath ;;
         st' <- fs_stat outputPath ;;
         let outputSize := size st' in
         let result := generateResult filePath inputSize outputSize in
         (if truthy (prop "remove" options) then fs_unlink filePath else ret tt) ;;
         modify (with_cache (insert key result)) ;;
         modify (with_stats incr_processed) ;;
         modify (with_stats (add_saved (saved_of result))) ;;
         ret result
     end)
    (fun error =>
       modify (with_stats incr_failed) ;;
       throw (enhanceError error filePath)).

(** *** Public methods *)

(** [{ ...formatConfig.options, quality: formatConfig.defaultQuality,
      format }]: the part of the merged options that does not come from
    the caller. *)
Definition format_defaults (formatConfig : FormatConfig) (fmt : string) : Obj :=
  define "format" (JStr fmt)
    (define "quality" (JNum (defaultQuality formatConfig))
       (spread [] (options formatConfig))).

(** [{ ...formatConfig.options, quality: formatConfig.defaultQuality,
      format, ...processingOptions }] *)
Definition mergedOptions (formatConfig : FormatConfig) (fmt : string)
    (processingOptions : Obj) : Obj :=
  spread (format_defaults formatConfig fmt) processingOptions.

(** [options.output || path.join(...)] *)
Definition resolveOutput (req : FileRequest) (formatConfig : FormatConfig) : string :=
  match output req with
  | Some o =>
      if Str.is_empty o then
        Path.join (Path.dirname (input req))
          (Path.basename_ext (input req) (Path.extname (input req))
           +:+ extension formatConfig)
      else o
  | None =>
      Path.join (Path.dirname (input req))
        (Path.basename_ext (input req) (Path.extname (input req))
         +:+ extension formatConfig)
  end.

(** [processFile] *)
Definition processFile (req : FileRequest) : M ProcessingResult :=
  emit ProcessingStart ;;
  try_catch
    (formatConfig <- validateFormat (input req) (format req) ;;
     let out := resolveOutput req formatConfig in
     fs_mkdir (Path.dirname out) ;;
     let merged := mergedOptions formatConfig (format req) (processingOptions req) in
     result <- processImage (input req) out merged ;;
     emit ProcessingComplete ;;
     ret result)
    (fun error =>
       emit (ErrorEvent error) ;;
       throw error).

(** The entry [processFolder] records for a file whose conversion threw. *)
Definition failure (e : JsError) : ProcessingResult :=
  {| success := false; message := err_message e; stats := None; error := Some e |}.

(** [((index + 1) / total) * 100]; the loop runs only when [total] is
    positive, so the value is finite. *)
Definition progress_of (index total : nat) : Q :=
  match Num.scale (Num.div (Z.of_nat (index + 1)) (Z.of_nat total)) 100 with
  | Num.Fin q => q
  | _ => 0
  end.

(** [progressCallback({ file, progress, result })] *)
Definition call_progress (cb : Callback) (file : string) (progress : Q)
    (result : ProcessingResult) : M unit :=
  log (IoProgress file progress result) ;;
  match cb file progress result with
  | Some e => throw e
  | None => ret tt
  end.

(** What the loop of [processFolder] passes to [processFile] for one
    entry of the folder. *)
Definition folder_item (req : FolderRequest) (formatConfig : FormatConfig)
    (file : string) : FileRequest :=
  let input := Path.join (folder req) file in
  let output :=
    Path.join (dest req)
      (Path.basename_ext file (Path.extname file) +:+ extension formatConfig) in
  {| input := input; output := Some output; format := folder_format req;
     processingOptions := folder_processingOptions req |}.

(** The body of the [for] loop of [processFolder], from position [index]
    on; [results] is the array built so far. A result is pushed before
    the callback runs, so a callback that throws leaves it in place and
    the [catch] clause pushes a second entry. *)
Fixpoint folder_loop (req : FolderRequest) (formatConfig : FormatConfig)
    (cb : option Callback) (total index : nat) (imageFiles : list string)
    (results : list ProcessingResult) : M (list ProcessingResult) :=
  match imageFiles with
  | [] => ret results
  | file :: rest =>
      r <- attempt (processFile (folder_item req formatConfig file)) ;;
      match r with
      | Throw e =>
          folder_loop req formatConfig cb total (S index) rest (results ++ [failure e])
      | Ok result =>
          let pushed := results ++ [result] in
          match cb with
          | None => folder_loop req formatConfig cb total (S index) rest pushed
          | Some f =>
              c <- attempt (call_progress f file (progress_of index total) result) ;;
              match c with
              | Throw e =>
                  folder_loop req formatConfig cb total (S index) rest
                    (pushed ++ [failure e])
              | Ok _ => folder_loop req formatConfig cb total (S index) rest pushed
              end
          end
      end
  end.

(** [files.filter(file => supportedInputs.includes(extname(file).toLowerCase()))] *)
Definition eligible (formatConfig : FormatConfig) (file : string) : bool :=
  includes (Str.toLowerCase (Path.extname file)) (supportedInputs formatConfig).

Definition imageFiles_of (formatConfig : FormatConfig) (files : list string)
  : list string :=
  List.filter (eligible formatConfig) files.

(** [processFolder] *)
Definition processFolder (req : FolderRequest) (cb : option Callback)
  : M (list ProcessingResult) :=
  match lookup (Str.toLowerCase (folder_format req)) with
  | Missing => throw (new_Error ("Unsupported format: " +:+ folder_format req))
  | Inherited =>
      emit ProcessingStart ;;
      try_catch
        (fs_mkdir (dest req) ;;
         files <- fs_readdir (folder req) ;;
         match files with
         | [] => emit ProcessingComplete ;; ret []
         | _ :: _ =>
             throw (new_Error "Cannot read properties of undefined (reading 'includes')")
         end)
        (fun error => emit (ErrorEvent error) ;; throw error)
  | Own formatConfig =>
      emit ProcessingStart ;;
      try_catch
        (fs_mkdir (dest req) ;;
         files <- fs_readdir (folder req) ;;
         let imageFiles := imageFiles_of formatConfig files in
         results <- folder_loop req formatConfig cb (length imageFiles) 0 imageFiles [] ;;
         emit ProcessingComplete ;;
         ret results)
        (fun error => emit (ErrorEvent error) ;; throw error)
  end.

(** [getStats] *)
Definition getStats (s : State) : StatsView :=
  let t := st_stats s in
  {| view := t;
     processingTime :=
       match endTime t with
       | Some e =>
           if (e =? 0)%Z then None
           else Some (inject_Z (e - match startTime t with Some b => b | None => 0 end)
                      / 1000)%Q
       | None => None
       end;
     averageSaving :=
       match processed t with
       | O => None
       | S _ =>
           Some (Num.toFixed 2
                   (Num.over (Num.div (totalSaved t) (Z.of_nat (processed t))) 1024)
                 +:+ " KB")
       end |}.

(** [clearCache] *)
Definition clearCache : M unit := modify (with_cache (fun _ => ∅)).

(** [resetStats] *)
Definition resetStats : M unit := modify (with_stats (fun _ => zero_stats)).

(** Convenience methods *)
Definition convertTo (fmt input : string) (output : option string) (options : Obj)
  : M ProcessingResult :=
  processFile {| input := input; output := output; format := fmt;
                 processingOptions := options |}.

Definition convertFolderTo (fmt folder dest : string) (options : Obj)
  : M (list ProcessingResult) :=
  processFolder {| folder := folder; dest := dest; folder_format := fmt;
                   folder_processingOptions := options |} None.

End Processor.

(** A processor just constructed, in a world given by its files and
    directories. *)
Definition initial (files : gmap string Z) (dirs : gmap string (list string)) : State :=
  {| st_stats := zero_stats; st_cache := ∅; st_files := files; st_dirs := dirs;
     st_ticks := 0; st_trace := [] |}.

(** ** Vocabulary of the properties *)

(** Entries of a batch result that record a failure. *)
Definition count_failures (rs : list ProcessingResult) : nat :=
  length (List.filter (fun r => negb (success r)) rs).

(** A progress callback that is absent or never throws. *)
Definition quiet (cb : option Callback) : Prop :=
  match cb with
  | None => True
  | Some f => forall file p r, f file p r = None
  end.

(** Every cached result is a successful one. *)
Definition cache_ok (s : State) : Prop :=
  forall k r, st_cache s !! k = Some r -> success r = true.

(** The four counters of the statistics. *)
Definition counters (s : State) : nat * nat * nat * Z :=
  (processed (st_stats s), failed (st_stats s), skipped (st_stats s),
   totalSaved (st_stats s)).

(** An error as [#processImage] rethrows it. *)
Definition from_processing_stage (filePath : string) (e : JsError) : Prop :=
  exists cause, e = Err ("Processing failed for " +:+ filePath +:+ ": " +:+ err_message cause)
                        (Some cause) (Some filePath).

(** The progress values a trace reports, in order. *)
Fixpoint progress_values (t : list IOEvent) : list Q :=
  match t with
  | [] => []
  | IoProgress _ p _ :: rest => p :: progress_values rest
  | _ :: rest => progress_values rest
  end.

(** The encoder requests of a trace. *)
Definition is_encode (ev : IOEvent) : bool :=
  match ev with IoEncode _ _ _ _ => true | _ => false end.

Section Milestones.
Import Js.

(** The state after a conversion of [f] that wrote [bytes] bytes to
    [out], before the original is looked at. *)
Definition written (f out : string) (o : Obj) (bytes : Z) (s : State) : State :=
  with_dirs (enter out)
    (with_files (insert out bytes)
       (logged [IoAccess f; IoStat f; IoStat f;
                IoEncode f (Str.slice1 (Path.extname out)) (without "format" o) out;
                IoStat out] s)).

(** The state after the original has been removed. *)
Definition unlinked (f : string) (s : State) : State :=
  with_dirs (leave f) (with_files (delete f) (logged [IoUnlink f] s)).

(** The state after a result has been stored and counted. *)
Definition recorded (key : string) (r : ProcessingResult) (s : State) : State :=
  with_stats (add_saved (saved_of r))
    (with_stats incr_processed (with_cache (insert key r) s)).

End Milestones.

Section Runs.
Import Js Registry.
Variable env : Env.

(** The state after [processing:start] and after [processing:complete]
    have been handled. *)
Definition started (s : State) : State :=
  with_stats (set_startTime (clock env (st_ticks s))) (tick s).

Definition completed (s : State) : State :=
  with_stats (set_endTime (clock env (st_ticks s))) (tick s).

(** The ways [#processImage] can run on a state, each with its outcome
    and the state it leaves. *)
Inductive ImageRun (f out : string) (o : Obj) (s : State)
  : Outcome ProcessingResult * State -> Prop :=
| run_invalid (e : JsError) (evs : list IOEvent) :
    st_files s !! f = None \/ access_denied env f = true ->
    ImageRun f out o s
      (Throw (enhanceError e f), with_stats incr_failed (logged evs s))
| run_hit (n : Z) (r : ProcessingResult) :
    st_files s !! f = Some n -> access_denied env f = false ->
    st_cache s !! cacheKey f o = Some r ->
    ImageRun f out o s
      (Ok r, with_stats incr_skipped (logged [IoAccess f; IoStat f; IoStat f] s))
| run_encode_fail (n : Z) (msg : string) :
    st_files s !! f = Some n -> access_denied env f = false ->
    st_cache s !! cacheKey f o = None ->
    encoder env f (Str.slice1 (Path.extname out)) (without "format" o) out = inr msg ->
    ImageRun f out o s
      (Throw (enhanceError (new_Error msg) f),
       with_stats incr_failed
         (logged [IoAccess f; IoStat f; IoStat f;
                  IoEncode f (Str.slice1 (Path.extname out)) (without "format" o) out] s))
| run_kept (n bytes : Z) :
    st_files s !! f = Some n -> access_denied env f = false ->
    st_cache s !! cacheKey f o = None ->
    encoder env f (Str.slice1 (Path.extname out)) (without "format" o) out = inl bytes ->
    truthy (prop "remove" o) = false ->
    ImageRun f out o s
      (Ok (generateResult f n bytes),
       recorded (cacheKey f o) (generateResult f n bytes) (written f out o bytes s))
| run_removed (n bytes : Z) :
    st_files s !! f = Some n -> access_denied env f = false ->
    st_cache s !! cacheKey f o = None ->
    encoder env f (Str.slice1 (Path.extname out)) (without "format" o) out = inl bytes ->
    truthy (prop "remove" o) = true -> unlink_error env f = None ->
    ImageRun f out o s
      (Ok (generateResult f n bytes),
       recorded (cacheKey f o) (generateResult f n bytes)
         (unlinked f (written f out o bytes s)))
| run_unlink_fail (n bytes : Z) (msg : string) :
    st_files s !! f = Some n -> access_denied env f = false ->
    st_cache s !! cacheKey f o = None ->
    encoder env f (Str.slice1 (Path.extname out)) (without "format" o) out = inl bytes ->
    truthy (prop "remove" o) = true -> unlink_error env f = Some msg ->
    ImageRun f out o s
      (Throw (enhanceError (new_Error msg) f),
       with_stats incr_failed (logged [IoUnlink f] (written f out o bytes s))).

(** The target format is known and accepts the extension of the input. *)
Definition accepts (cfg : FormatConfig) (req : FileRequest) : Prop :=
  lookup (Str.toLowerCase (format req)) = Own cfg
  /\ includes (Str.toLowerCase (Path.extname (input req))) (supportedInputs cfg) = true.

(** The target format is unknown or refuses the extension of the input. *)
Definition rejects (req : FileRequest) : Prop :=
  forall cfg, lookup (Str.toLowerCase (format req)) = Own cfg ->
    includes (Str.toLowerCase (Path.extname (input req))) (supportedInputs cfg) = false.

(** How [processFile] ends once [#processImage] has run. *)
Definition finish (r : Outcome ProcessingResult * State)
  : Outcome ProcessingResult * State :=
  match r with
  | (Ok res, s) => (Ok res, completed s)
  | (Throw e, s) => (Throw e, logged [IoConsoleError (err_message e)] s)
  end.

(** The ways [processFile] can run. *)
Inductive FileRun (req : FileRequest) (s : State)
  : Outcome ProcessingResult * State -> Prop :=
| file_rejected (e : JsError) :
    rejects req ->
    FileRun req s (Throw e, logged [IoConsoleError (err_message e)] (started s))
| file_mkdir_fail (cfg : FormatConfig) (msg : string) :
    accepts cfg req ->
    mkdir_error env (Path.dirname (resolveOutput req cfg)) = Some msg ->
    FileRun req s
      (Throw (new_Error msg),
       logged [IoMkdir (Path.dirname (resolveOutput req cfg)); IoConsoleError msg]
         (started s))
| file_image (cfg : FormatConfig) (s1 : State)
    (r : Outcome ProcessingResult * State) :
    accepts cfg req ->
    mkdir_error env (Path.dirname (resolveOutput req cfg)) = None ->
    fs_mkdir env (Path.dirname (resolveOutput req cfg)) (started s) = (Ok tt, s1) ->
    ImageRun (input req) (resolveOutput req cfg)
      (mergedOptions cfg (format req) (processingOptions req)) s1 r ->
    FileRun req s (finish r).

End Runs.

Section Batches.
Import Js Registry.
Variable env : Env.




End Batches.

(** ** A small world for the examples

    Three pictures and a text file in [in/], two pictures in [tail/], a
    picture in [locked/] that cannot be removed. The encoder turns every
    file into 122880 bytes, except those named [b.png], which it rejects.
    The clock advances by ten units between two readings. *)

Module Demo.
Import Js Registry.

Definition env : Env := {|
  access_denied := fun _ => false;
  mkdir_error := fun _ => None;
  unlink_error := fun p =>
    if String.eqb p "locked/a.png" then Some "EPERM: operation not permitted" else None;
  encoder := fun input _ _ _ =>
    if String.eqb (Path.basename input) "b.png"
    then inr "Input file contains unsupported image format"
    else inl 122880%Z;
  clock := fun n => (1000 + 10 * Z.of_nat n)%Z;
|}.

Definition files : gmap string Z :=
  list_to_map
    [("in/a.png", 204800%Z); ("in/b.png", 100%Z); ("in/c.png", 50%Z);
     ("tail/a.png", 204800%Z); ("tail/b.png", 100%Z);
     ("locked/a.png", 1000%Z); ("pics/x.webp", 500%Z); ("grow/a.png", 100%Z)].

Definition dirs : gmap string (list string) :=
  list_to_map
    [(".", ["in"; "tail"; "locked"; "pics"; "grow"]);
     ("in", ["a.png"; "b.png"; "note.txt"; "c.png"]);
     ("tail", ["a.png"; "b.png"]);
     ("locked", ["a.png"]); ("pics", ["x.webp"]); ("grow", ["a.png"])].

Definition fresh : State := initial files dirs.

Definition silent : Callback := fun _ _ _ => None.

(** A progress callback that throws whenever it is called. *)
Definition grumpy : Callback := fun _ _ _ => Some (new_Error "progress display closed").

(** [convertFolder("in", "out", "webp", { quality: 80 })] *)
Definition batch : FolderRequest := {|
  folder := "in"; dest := "out"; folder_format := "webp";
  folder_processingOptions := [("quality", JNum 80)];
|}.

(** The same with a destination that does not exist yet and lies in
    the folder under a name with an accepted extension. *)
Definition nested : FolderRequest := {|
  folder := "in"; dest := "in/x.png"; folder_format := "webp";
  folder_processingOptions := [("quality", JNum 80)];
|}.

(** A batch over a folder that does not exist yet, into a directory
    below it. *)
Definition deep : FolderRequest := {|
  folder := "new"; dest := "new/out"; folder_format := "webp";
  folder_processingOptions := [];
|}.

(** The same over [tail/], whose last picture is the rejected one. *)
Definition tail_batch : FolderRequest := {|
  folder := "tail"; dest := "out"; folder_format := "webp";
  folder_processingOptions := [("quality", JNum 80)];
|}.

(** [processFile] of one picture to WebP. *)
Definition single (remove : bool) (path : string) : FileRequest := {|
  input := path; output := Some "out/a.webp"; format := "webp";
  processingOptions := [("quality", JNum 80); ("remove", JBool remove)];
|}.

(** A request for a format that is not registered. *)
Definition to_bmp : FileRequest := {|
  input := "in/a.png"; output := None; format := "bmp"; processingOptions := [];
|}.

(** Caller options that blank every default of JPEG and of PNG and set
    [quality] and [format] themselves. *)
Definition blanking : Obj :=
  [("progressive", JUndefined); ("chromaSubsampling", JUndefined);
   ("mozjpeg", JUndefined); ("compressionLevel", JUndefined);
   ("palette", JUndefined); ("quality", JNum 50); ("format", JStr "x")].

(** The state, and the outcome, after a computation has run. *)
Definition after {A} (m : M A) (s : State) : State := snd (m s).
Definition outcome {A} (m : M A) (s : State) : Outcome A := fst (m s).

End Demo.

(** ** Vocabulary of the further properties *)

Section Further.
Import Js Registry.

(** What a single conversion of [req] may ask of the outside: its input
    is checked, measured, encoded and removed; its output is written and
    measured; the directory of the output is made; errors go to the
    console. No directory is listed and no progress is reported. The
    encoder is asked for the format that the extension of the output
    path names, with options that have no [format] property. *)
Definition call_event (req : FileRequest) (ev : IOEvent) : Prop :=
  match ev with
  | IoAccess p | IoUnlink p => p = input req
  | IoStat p =>
      p = input req \/ exists cfg, accepts cfg req /\ p = resolveOutput req cfg
  | IoMkdir p => exists cfg, accepts cfg req /\ p = Path.dirname (resolveOutput req cfg)
  | IoEncode i f o out =>
      i = input req
      /\ (exists cfg, accepts cfg req /\ out = resolveOutput req cfg)
      /\ f = Str.slice1 (Path.extname out)
      /\ has "format" o = false
  | IoConsoleError _ => True
  | IoReaddir _ | IoProgress _ _ _ => False
  end.

(** The request [req] with another output path. *)
Definition with_output (o : option string) (req : FileRequest) : FileRequest :=
  {| input := input req; output := o; format := format req;
     processingOptions := processingOptions req |}.

(** The cache of [s'] holds everything the cache of [s] holds. *)
Definition cache_extends (s s' : State) : Prop :=
  forall k r, st_cache s !! k = Some r -> st_cache s' !! k = Some r.

(** Entries of a batch result that record a success. *)
Definition count_successes (rs : list ProcessingResult) : nat :=
  length (List.filter success rs).

(** Files a state counts as converted or served from the cache. *)
Definition delivered (s : State) : nat :=
  processed (st_stats s) + skipped (st_stats s).

(** One turn of the loop of [processFolder]: the entries it adds to the
    results and the state it leaves. *)
Definition item_step (env : Env) (req : FolderRequest) (cfg : FormatConfig)
    (cb : option Callback) (total index : nat) (file : string) (s : State)
  : list ProcessingResult * State :=
  match processFile env (folder_item req cfg file) s with
  | (Throw e, s1) => ([failure e], s1)
  | (Ok result, s1) =>
      match cb with
      | None => ([result], s1)
      | Some f =>
          (result :: match f file (progress_of index total) result with
                     | Some e => [failure e]
                     | None => []
                     end,
           logged [IoProgress file (progress_of index total) result] s1)
      end
  end.

(** The turns of the loop, one after the other. *)
Fixpoint loop_run (env : Env) (req : FolderRequest) (cfg : FormatConfig)
    (cb : option Callback) (total index : nat) (files : list string) (s : State)
  : list ProcessingResult * State :=
  match files with
  | [] => ([], s)
  | file :: rest =>
      let (added, mid) := item_step env req cfg cb total index file s in
      let (more, s') := loop_run env req cfg cb total (S index) rest mid in
      (added ++ more, s')
  end.

(** The state in which the loop of [processFolder] starts: the start
    time is taken, the destination is made, the folder is listed. *)
Definition batch_start (env : Env) (req : FolderRequest) (s : State) : State :=
  logged [IoReaddir (folder req)] (snd (fs_mkdir env (dest req) (started env s))).

(** What a batch may ask of the encoder and remove: the encoder reads
    an eligible entry of the folder and writes, in the format that the
    extension of the target names and with options that have no [format]
    property, the file of the same name and that extension in the
    destination; only eligible entries of the folder are removed. *)
Definition batch_event (req : FolderRequest) (cfg : FormatConfig)
    (files : list string) (ev : IOEvent) : Prop :=
  match ev with
  | IoEncode i f o out =>
      f = Str.slice1 (extension cfg)
      /\ has "format" o = false
      /\ exists name,
           In name files
           /\ i = Path.join (folder req) name
           /\ out = Path.join (dest req)
                      (Path.basename_ext name (Path.extname name) +:+ extension cfg)
  | IoUnlink p => exists name, In name files /\ p = Path.join (folder req) name
  | _ => True
  end.


End Further.

(** ** Command-line defaults ([filterDefaultArgs]) *)

Module Cli.

(** [s.split("=")[0]] *)
Fixpoint key_of (s : string) : string :=
  match s with
  | EmptyString => EmptyString
  | String c t => if Ascii.eqb c "="%char then EmptyString else String c (key_of t)
  end.

(** [s.startsWith(p)] *)
Definition startsWith (p s : string) : bool := String.prefix p s.

(** [allargs.some(arg => arg.startsWith(defaultKey))] *)
Definition overridden (allargs : list string) (defaultArg : string) : bool :=
  existsb (startsWith (key_of defaultArg)) allargs.

(** [filterDefaultArgs] *)
Definition filterDefaultArgs (defaultArgs allargs : list string) : list string :=
  List.filter (fun defaultArg => negb (overridden allargs defaultArg)) defaultArgs
  ++ allargs.

End Cli.

(** * Properties *)

(** ** Texts *)

Lemma app_cons (c : ascii) (a b : string) : String c a +:+ b = String c (a +:+ b).
Proof. reflexivity. Qed.

Lemma app_assoc_s (a b c : string) : (a +:+ b) +:+ c = a +:+ (b +:+ c).
Proof. induction a as [|x a IH]; [reflexivity|]. rewrite !app_cons. by rewrite IH. Qed.

Lemma string_tail_inj (c c' : ascii) (a b : string) : String c a = String c' b -> a = b.
Proof. intros H. by injection H. Qed.

Lemma app_nil_l_s (a : string) : EmptyString +:+ a = a.
Proof. reflexivity. Qed.

Lemma app_nil_r_s (a : string) : a +:+ EmptyString = a.
Proof. induction a as [|x a IH]; [reflexivity|]. rewrite app_cons. by rewrite IH. Qed.

Lemma chars_app (a b : string) :
  list_ascii_of_string (a +:+ b) = list_ascii_of_string a ++ list_ascii_of_string b.
Proof. induction a as [|x a IH]; [reflexivity|]. rewrite app_cons. simpl. by rewrite IH. Qed.

Lemma chars_inj (a b : string) : list_ascii_of_string a = list_ascii_of_string b -> a = b.
Proof.
  intros H. rewrite <- (string_of_list_ascii_of_string a), <- (string_of_list_ascii_of_string b).
  by rewrite H.
Qed.


Lemma app_inv_head_s (a b c : string) : a +:+ b = a +:+ c -> b = c.
Proof. apply String.app_inj. Qed.

Module JsFacts.
Import Js.

Lemma unesc_esc (c : ascii) (r : string) : unesc_char (esc_char c +:+ r) = Some (c, r).
Proof. destruct c as [[] [] [] [] [] [] [] []]; reflexivity. Qed.

Lemma escape_inj (s s' r r' : string) :
  escape s +:+ String Str.dquote r = escape s' +:+ String Str.dquote r' ->
  s = s' /\ r = r'.
Proof.
  revert s'. induction s as [|c s IH]; intros [|c' s'] H; simpl in H.
  - injection H as ->. done.
  - rewrite app_assoc_s in H. apply (f_equal unesc_char) in H.
    rewrite unesc_esc in H. discriminate H.
  - rewrite app_assoc_s in H. apply (f_equal unesc_char) in H.
    rewrite unesc_esc in H. discriminate H.
  - rewrite !app_assoc_s in H. apply (f_equal unesc_char) in H.
    rewrite !unesc_esc in H. injection H as -> H.
    destruct (IH _ H) as [-> ->]. done.
Qed.

Lemma quote_inj (s s' r r' : string) :
  quote s +:+ r = quote s' +:+ r' -> s = s' /\ r = r'.
Proof.
  unfold quote. rewrite !app_cons, !app_assoc_s, !app_cons. intros H.
  injection H as H. by apply escape_inj in H.
Qed.

(** A run of characters of one class ends where the first character
    outside the class stands. *)
Lemma token_split (p : ascii -> bool) (a b : string) (t t' : ascii) (r r' : string) :
  Str.all_chars p a = true -> Str.all_chars p b = true ->
  p t = false -> p t' = false ->
  a +:+ String t r = b +:+ String t' r' -> a = b /\ String t r = String t' r'.
Proof.
  revert b. induction a as [|x a IH]; intros [|y b] Ha Hb Ht Ht' H; simpl in *.
  - done.
  - rewrite app_cons in H. injection H as -> _.
    apply andb_prop in Hb as [Hy _]. congruence.
  - rewrite app_cons in H. injection H as -> _.
    apply andb_prop in Ha as [Hx _]. congruence.
  - rewrite !app_cons in H. injection H as -> H.
    apply andb_prop in Ha as [_ Ha]. apply andb_prop in Hb as [_ Hb].
    destruct (IH b Ha Hb Ht Ht' H) as [-> ?]. done.
Qed.

Lemma uint_digits (d : Decimal.uint) :
  Str.all_chars digit_char (NilEmpty.string_of_uint d) = true.
Proof. induction d; simpl; auto. Qed.

Lemma of_Z_digits (z : Z) : Str.all_chars digit_char (Str.of_Z z) = true.
Proof.
  unfold Str.of_Z. destruct (Z.to_int z); simpl; apply uint_digits.
Qed.

Lemma of_Z_inj (z z' : Z) : Str.of_Z z = Str.of_Z z' -> z = z'.
Proof.
  unfold Str.of_Z. intros H. apply to_int_inj.
  apply (f_equal NilEmpty.int_of_string) in H. rewrite !NilEmpty.isi in H.
  by injection H.
Qed.

Lemma digit_atom (s : string) :
  Str.all_chars digit_char s = true -> Str.all_chars atom_char s = true.
Proof.
  induction s as [|c s IH]; simpl; [done|]. intros [Hc Hs]%andb_prop.
  rewrite (IH Hs), andb_true_r. unfold digit_char in Hc. unfold atom_char.
  by rewrite Hc.
Qed.

Lemma atom_text (v : JsValue) : is_atom v -> Str.all_chars atom_char (ser_value v) = true.
Proof.
  destruct v as [| |[]|z|s]; simpl; try done. intros _. apply digit_atom, of_Z_digits.
Qed.

Lemma atom_inj (v v' : JsValue) :
  is_atom v -> is_atom v' -> ser_value v = ser_value v' -> v = v'.
Proof.
  destruct v as [| |[]|z|s], v' as [| |[]|z'|s']; simpl; try done; intros _ _ H;
    try (by apply of_Z_inj in H; subst);
    try (pose proof (of_Z_digits z) as D; rewrite H in D; discriminate D);
    try (pose proof (of_Z_digits z') as D; rewrite <- H in D; discriminate D).
Qed.

Lemma ser_value_inj (v v' : JsValue) (t t' : ascii) (r r' : string) :
  v <> JUndefined -> v' <> JUndefined -> separator t -> separator t' ->
  ser_value v +:+ String t r = ser_value v' +:+ String t' r' ->
  v = v' /\ String t r = String t' r'.
Proof.
  intros Hv Hv' Ht Ht' H.
  assert (At : atom_char t = false) by (destruct Ht as [-> | ->]; reflexivity).
  assert (At' : atom_char t' = false) by (destruct Ht' as [-> | ->]; reflexivity).
  assert (Q : forall w, is_atom w -> forall s x y u,
             ser_value w +:+ String u x = quote s +:+ y -> separator u -> False).
  { intros w Hw s x y u E Hu. pose proof (atom_text w Hw) as A.
    destruct (ser_value w) as [|c a]; unfold quote in E; rewrite !app_cons in E;
      injection E as -> _.
    - destruct Hu as [Hu | Hu]; discriminate Hu.
    - simpl in A. discriminate A. }
  assert (C : forall w, w <> JUndefined -> is_atom w \/ exists s, w = JStr s).
  { intros [| | | |s] Hw; simpl; eauto. }
  destruct (C v Hv) as [a | [s ->]]; destruct (C v' Hv') as [a' | [s' ->]].
  - destruct (token_split atom_char _ _ _ _ _ _ (atom_text v a) (atom_text v' a') At At' H)
      as [E ?]. split; [by apply atom_inj | done].
  - exfalso. exact (Q v a s' _ _ _ H Ht).
  - exfalso. symmetry in H. exact (Q v' a' s _ _ _ H Ht').
  - simpl in H. apply quote_inj in H as [-> ?]. done.
Qed.

Lemma tail_text_sep (es : list (string * JsValue)) :
  exists t r, separator t /\ tail_text es = String t r.
Proof. destruct es as [|e es]; simpl; eexists _, _; (split; [|reflexivity]); [right|left]; done. Qed.

Lemma entry_inj (e e' : string * JsValue) (es es' : list (string * JsValue)) :
  snd e <> JUndefined -> snd e' <> JUndefined ->
  ser_entry e +:+ tail_text es = ser_entry e' +:+ tail_text es' ->
  e = e' /\ tail_text es = tail_text es'.
Proof.
  destruct e as [k v], e' as [k' v']. unfold ser_entry. simpl. intros Hv Hv'.
  rewrite !app_assoc_s. intros H. apply quote_inj in H as [-> H].
  rewrite !app_cons in H. injection H as H. rewrite ?app_nil_l_s in H.
  destruct (tail_text_sep es) as (t & r & Ht & Et).
  destruct (tail_text_sep es') as (t' & r' & Ht' & Et').
  rewrite ?app_assoc_s in H. rewrite Et, Et' in *.
  destruct (ser_value_inj _ _ _ _ _ _ Hv Hv' Ht Ht' H) as [-> ?]. done.
Qed.

Lemma tail_text_cons (e : string * JsValue) (es : list (string * JsValue)) :
  tail_text (e :: es) = String ","%char (ser_entry e +:+ tail_text es).
Proof. reflexivity. Qed.

Lemma tail_text_inj (es es' : list (string * JsValue)) :
  all_visible es -> all_visible es' -> tail_text es = tail_text es' -> es = es'.
Proof.
  revert es'. induction es as [|e es IH]; intros [|e' es'] V V' H;
    rewrite ?tail_text_cons in H.
  - done.
  - discriminate H.
  - discriminate H.
  - apply string_tail_inj in H. inversion V; inversion V'; subst.
    apply entry_inj in H as [-> H]; [|done..]. f_equal. by apply IH.
Qed.

Lemma join_tail (e : string * JsValue) (es : list (string * JsValue)) :
  Str.join "," (map ser_entry (e :: es)) +:+ "}" = ser_entry e +:+ tail_text es.
Proof.
  revert e. induction es as [|e' es IH]; intros e; [reflexivity|].
  change (Str.join "," (map ser_entry (e :: e' :: es)))
    with (ser_entry e +:+ "," +:+ Str.join "," (map ser_entry (e' :: es))).
  rewrite !app_assoc_s, IH. reflexivity.
Qed.

Lemma visible_all (o : Obj) : all_visible (visible o).
Proof.
  unfold all_visible, visible. apply List.Forall_forall. intros kv [_ H]%filter_In.
  apply negb_true_iff, bool_decide_eq_false in H. done.
Qed.

(** [JSON.stringify] tells apart any two objects that differ in a
    property it prints. *)
Lemma entry_opens (e : string * JsValue) (r : string) :
  exists x, ser_entry e +:+ r = String Str.dquote x.
Proof. destruct e as [k v]. unfold ser_entry, quote. rewrite !app_cons. eauto. Qed.

Lemma stringify_inj (o o' : Obj) : stringify o = stringify o' -> visible o = visible o'.
Proof.
  unfold stringify. intros H. rewrite !app_cons in H. apply string_tail_inj in H.
  rewrite ?app_nil_l_s in H.
  pose proof (visible_all o) as V. pose proof (visible_all o') as V'.
  destruct (visible o) as [|e es], (visible o') as [|e' es']; rewrite ?join_tail in H.
  - done.
  - destruct (entry_opens e' (tail_text es')) as [x E]. rewrite E in H. discriminate H.
  - destruct (entry_opens e (tail_text es)) as [x E]. rewrite E in H. discriminate H.
  - inversion V; inversion V'; subst.
    apply entry_inj in H as [-> H]; [|done..]. f_equal. by apply tail_text_inj.
Qed.
End JsFacts.

Module ObjFacts.
Import Js.

Lemma eqb_false_ne (a b : string) : a <> b -> String.eqb a b = false.
Proof. by intros H; apply String.eqb_neq. Qed.

Lemma has_get (k : string) (o : Obj) : has k o = true <-> exists v, get k o = Some v.
Proof. unfold has. destruct (get k o); split; eauto; try done. by intros [? ?]. Qed.

Lemma has_cons (k k' : string) (v : JsValue) (o : Obj) :
  has k ((k', v) :: o) = String.eqb k k' || has k o.
Proof. unfold has. simpl. by destruct (String.eqb k k'). Qed.

Lemma has_in (k : string) (o : Obj) : has k o = true <-> In k (keys o).
Proof.
  induction o as [|[k' v] o IH]; simpl; [unfold has; simpl; split; [done|tauto]|].
  rewrite has_cons, orb_true_iff, IH, String.eqb_eq. split; intros [? | ?]; auto.
Qed.

Lemma get_update_ne (k k' : string) (v : JsValue) (o : Obj) :
  k <> k' -> get k (update k' v o) = get k o.
Proof.
  intros Hne. induction o as [|[k2 v2] o IH]; simpl; [done|].
  destruct (String.eqb_spec k' k2) as [-> | ?]; simpl.
  - by rewrite (eqb_false_ne _ _ Hne).
  - by rewrite IH.
Qed.

Lemma get_update_eq (k : string) (v : JsValue) (o : Obj) :
  has k o = true -> get k (update k v o) = Some v.
Proof.
  induction o as [|[k2 v2] o IH]; [done|]. rewrite has_cons. simpl.
  destruct (String.eqb_spec k k2) as [-> | Hne]; simpl.
  - by rewrite String.eqb_refl.
  - intros H. rewrite (eqb_false_ne _ _ Hne). by apply IH.
Qed.

Lemma keys_update (k : string) (v : JsValue) (o : Obj) : keys (update k v o) = keys o.
Proof.
  induction o as [|[k2 v2] o IH]; simpl; [done|].
  destruct (String.eqb k k2); simpl; [done|]. by rewrite IH.
Qed.

Lemma has_update (k k' : string) (v : JsValue) (o : Obj) :
  has k (update k' v o) = has k o.
Proof.
  apply eq_true_iff_eq. by rewrite !has_in, keys_update.
Qed.

Lemma get_insert_index_ne (k k' : string) (n : N) (v : JsValue) (o : Obj) :
  k <> k' -> get k (insert_index n k' v o) = get k o.
Proof.
  intros Hne. induction o as [|[k2 v2] o IH]; simpl.
  - by rewrite (eqb_false_ne _ _ Hne).
  - destruct (array_index k2) as [n'|]; [destruct (n' <? n)%N|]; simpl;
      rewrite ?IH, ?(eqb_false_ne _ _ Hne); done.
Qed.

Lemma get_insert_index_eq (k : string) (n : N) (v : JsValue) (o : Obj) :
  has k o = false -> get k (insert_index n k v o) = Some v.
Proof.
  induction o as [|[k2 v2] o IH]; simpl.
  - by rewrite String.eqb_refl.
  - rewrite has_cons. intros [H1 H2]%orb_false_elim.
    destruct (array_index k2) as [n'|]; [destruct (n' <? n)%N|]; simpl;
      rewrite ?H1, ?String.eqb_refl; auto.
Qed.

Lemma get_app (k : string) (o o' : Obj) :
  get k (o ++ o') = match get k o with Some x => Some x | None => get k o' end.
Proof.
  induction o as [|[k2 v2] o IH]; simpl; [done|]. by destruct (String.eqb k k2).
Qed.

Lemma get_define (k k' : string) (v : JsValue) (o : Obj) :
  get k (define k' v o) = if String.eqb k k' then Some v else get k o.
Proof.
  unfold define. destruct (String.eqb_spec k k') as [-> | Hne].
  - destruct (has k' o) eqn:Hh; [by apply get_update_eq|].
    destruct (array_index k'); [by apply get_insert_index_eq|].
    rewrite get_app. unfold has in Hh. destruct (get k' o); [done|]. simpl.
    by rewrite String.eqb_refl.
  - destruct (has k' o); [by apply get_update_ne|].
    destruct (array_index k'); [by apply get_insert_index_ne|].
    rewrite get_app. destruct (get k o); [done|]. simpl. by rewrite (eqb_false_ne _ _ Hne).
Qed.

Lemma has_define (k k' : string) (v : JsValue) (o : Obj) :
  has k (define k' v o) = String.eqb k k' || has k o.
Proof. unfold has at 1. rewrite get_define. unfold has. by destruct (String.eqb k k'). Qed.

Lemma get_spread_absent (k : string) (src base : Obj) :
  has k src = false -> get k (spread base src) = get k base.
Proof.
  unfold spread. revert base. induction src as [|[k' v] src IH]; intros base; simpl; [done|].
  rewrite has_cons. intros [H1 H2]%orb_false_elim. rewrite IH by done.
  by rewrite get_define, H1.
Qed.

Lemma get_visible (k : string) (v : JsValue) (o : Obj) :
  get k o = Some v -> v <> JUndefined -> get k (visible o) = Some v.
Proof.
  intros G Hv. induction o as [|[k' v'] o IH]; simpl in *; [done|].
  destruct (String.eqb k k') eqn:E.
  - injection G as ->. rewrite bool_decide_eq_false_2 by done. simpl. by rewrite E.
  - destruct (negb _); simpl; rewrite ?E; auto.
Qed.
End ObjFacts.

Module SpreadFacts.
Import Js ObjFacts.

Ltac eqb_norm :=
  repeat first [ rewrite String.eqb_refl | rewrite eqb_false_ne by congruence ].

Lemma update_update (k1 k2 : string) (v1 v2 : JsValue) (o : Obj) :
  k1 <> k2 -> update k1 v1 (update k2 v2 o) = update k2 v2 (update k1 v1 o).
Proof.
  intros Hne. induction o as [|[k v] o IH]; simpl; [done|].
  destruct (String.eqb_spec k2 k) as [-> | H2]; destruct (String.eqb_spec k1 k) as [-> | H1];
    simpl; eqb_norm; congruence.
Qed.

Lemma update_insert_index (k1 k2 : string) (n : N) (v1 v2 : JsValue) (o : Obj) :
  k1 <> k2 ->
  update k1 v1 (insert_index n k2 v2 o) = insert_index n k2 v2 (update k1 v1 o).
Proof.
  intros Hne. induction o as [|[k v] o IH]; simpl.
  - by eqb_norm.
  - destruct (String.eqb_spec k1 k) as [-> | H1]; simpl;
      (destruct (array_index k) as [n'|]; [destruct (n' <? n)%N|]); simpl;
      eqb_norm; congruence.
Qed.

Lemma update_app (k : string) (v : JsValue) (o o' : Obj) :
  has k o = true -> update k v (o ++ o') = update k v o ++ o'.
Proof.
  induction o as [|[k' v'] o IH]; [done|]. rewrite has_cons. simpl.
  destruct (String.eqb k k'); simpl; [done|]. intros H. by rewrite IH.
Qed.

(** Writing two different properties commutes as soon as one of them is
    already there. *)
Lemma define_comm (k1 k2 : string) (v1 v2 : JsValue) (o : Obj) :
  k1 <> k2 -> has k1 o = true \/ has k2 o = true ->
  define k1 v1 (define k2 v2 o) = define k2 v2 (define k1 v1 o).
Proof.
  intros Hne H. unfold define at 2 4.
  destruct (has k1 o) eqn:H1; destruct (has k2 o) eqn:H2.
  - unfold define. rewrite !has_update, H1, H2. by apply update_update.
  - unfold define. rewrite has_update, H2.
    destruct (array_index k2) as [n|].
    + assert (has k1 (insert_index n k2 v2 o) = true) as ->.
      { apply has_get. rewrite get_insert_index_ne by done. by apply has_get. }
      by apply update_insert_index.
    + assert (has k1 (o ++ [(k2, v2)]) = true) as ->.
      { apply has_in. unfold keys. rewrite map_app. apply in_or_app. left. by apply has_in. }
      by apply update_app.
  - unfold define. rewrite has_update, H1.
    destruct (array_index k1) as [n|].
    + assert (has k2 (insert_index n k1 v1 o) = true) as ->.
      { apply has_get. rewrite get_insert_index_ne by done. by apply has_get. }
      symmetry. by apply update_insert_index.
    + assert (has k2 (o ++ [(k1, v1)]) = true) as ->.
      { apply has_in. unfold keys. rewrite map_app. apply in_or_app. left. by apply has_in. }
      symmetry. by apply update_app.
  - destruct H; discriminate.
Qed.

Lemma spread_cons (base : Obj) (kv : string * JsValue) (src : Obj) :
  spread base (kv :: src) = spread (define (fst kv) (snd kv) base) src.
Proof. reflexivity. Qed.

(** A property can be moved to the front of the source of a spread
    across properties that do not compete with it for a new place. *)
Lemma spread_move (l r : Obj) (k : string) (v : JsValue) (base : Obj) :
  ~ In k (keys l) ->
  has k base = true \/ (forall kv, In kv l -> has (fst kv) base = true) ->
  spread base (l ++ (k, v) :: r) = spread base ((k, v) :: l ++ r).
Proof.
  revert base. induction l as [|[k' v'] l IH]; intros base Hk H; [done|].
  simpl in Hk. rewrite <- app_comm_cons, spread_cons. simpl fst; simpl snd.
  rewrite IH.
  - rewrite <- ?app_comm_cons, !spread_cons. simpl fst; simpl snd. f_equal.
    apply define_comm; [intros ->; apply Hk; by left|].
    destruct H as [H | H]; [by left|right]. apply (H (k', v')). by left.
  - intros Hin. apply Hk. by right.
  - destruct H as [H | H]; [left|right].
    + by rewrite has_define, H, orb_true_r.
    + intros kv Hin. rewrite has_define, (H kv), orb_true_r; [done|by right].
Qed.

Lemma filter_new_define (k : string) (v : JsValue) (base l : Obj) :
  ~ In k (keys l) ->
  List.filter (new_key (define k v base)) l = List.filter (new_key base) l.
Proof.
  intros Hk. apply filter_ext_in. intros [k' v'] Hin. unfold new_key. simpl.
  rewrite has_define. f_equal.
  rewrite eqb_false_ne; [done|]. intros ->. apply Hk.
  apply in_map_iff. by exists (k, v').
Qed.

(** The merged object does not depend on the order in which the source
    lists its properties, as long as the properties that are new to the
    target keep their relative order. *)
Lemma spread_perm (o1 : Obj) :
  forall (base o2 : Obj),
    NoDup (keys o1) -> Permutation o1 o2 ->
    List.filter (new_key base) o1 = List.filter (new_key base) o2 ->
    spread base o1 = spread base o2.
Proof.
  induction o1 as [|[k v] t IH]; intros base o2 Hnd Hp Hf.
  - apply Permutation_nil in Hp. by subst.
  - assert (Hin : In (k, v) o2) by (apply (Permutation_in _ Hp); by left).
    apply in_split in Hin as (l & r & ->).
    apply Permutation_cons_app_inv in Hp.
    assert (Hnd2 : NoDup (k :: keys t)) by exact Hnd. clear Hnd.
    apply NoDup_cons in Hnd2 as [Hkt Hnd].
    assert (Hkt' : ~ In k (keys t)) by (by rewrite <- list_elem_of_In).
    assert (Hklr : ~ In k (keys (l ++ r))).
    { intros Hc. apply Hkt'. unfold keys in *.
      apply (Permutation_in _ (Permutation_map fst (Permutation_sym Hp))). done. }
    assert (Hkl : ~ In k (keys l)).
    { intros Hc. apply Hklr. unfold keys. rewrite map_app. apply in_or_app. by left. }
    rewrite List.filter_app in Hf. simpl in Hf.
    assert (Hnk : new_key base (k, v) = negb (has k base)) by reflexivity.
    rewrite Hnk in Hf. clear Hnk.
    destruct (has k base) eqn:Hb; simpl in Hf.
    + rewrite (spread_move l r k v base Hkl (or_introl Hb)). rewrite !spread_cons. simpl fst; simpl snd.
      apply IH; [done..|]. rewrite !filter_new_define by done.
      by rewrite List.filter_app.
    + assert (Hl : List.filter (new_key base) l = []).
      { destruct (List.filter (new_key base) l) as [|x xs] eqn:E; [done|].
        exfalso. injection Hf as <- _. apply Hkl.
        assert (In (k, v) (List.filter (new_key base) l)) as [? _]%filter_In
          by (rewrite E; by left).
        apply in_map_iff. by exists (k, v). }
      rewrite Hl in Hf. simpl in Hf. injection Hf as Hf.
      rewrite spread_move; [|done|].
      * rewrite !spread_cons. simpl fst; simpl snd.
        apply IH; [done..|]. rewrite !filter_new_define by done.
        by rewrite List.filter_app, Hl.
      * right. intros kv Hkv.
        destruct (has (fst kv) base) eqn:E; [done|]. exfalso.
        assert (In kv (List.filter (new_key base) l)) as Hc.
        { apply filter_In. split; [done|]. unfold new_key. by rewrite E. }
        by rewrite Hl in Hc.
Qed.
End SpreadFacts.

Module PathFacts.
Import Path.

Lemma chars_of_list (l : list ascii) :
  list_ascii_of_string (string_of_list_ascii l) = l.
Proof. apply list_ascii_of_string_of_list_ascii. Qed.

Lemma all_chars_forallb (p : ascii -> bool) (s : string) :
  Str.all_chars p s = forallb p (list_ascii_of_string s).
Proof. induction s as [|c s IH]; simpl; [done|]. by rewrite IH. Qed.

Lemma plain_chars (f : string) : plain_name f = true -> plain_l (list_ascii_of_string f).
Proof.
  unfold plain_name, plain_l.
  intros [[[H1 H2]%andb_prop H3]%andb_prop H4]%andb_prop.
  rewrite all_chars_forallb in H2.
  apply negb_true_iff in H3, H4. apply String.eqb_neq in H3, H4.
  repeat split; try done.
  - destruct f; [discriminate H1|done].
  - intros E. apply H3. apply chars_inj. by rewrite E.
  - intros E. apply H4. apply chars_inj. by rewrite E.
Qed.

Lemma take_while_app {A} (p : A -> bool) (l r : list A) :
  forallb p l = true -> (r = [] \/ exists x r', r = x :: r' /\ p x = false) ->
  Str.take_while p (l ++ r) = l.
Proof.
  intros Hl Hr. induction l as [|x l IH]; simpl in *.
  - destruct Hr as [-> | (x & r' & -> & Hx)]; simpl; [done|]. by rewrite Hx.
  - apply andb_prop in Hl as [Hx Hl]. rewrite Hx. by rewrite IH.
Qed.

Lemma forallb_rev {A} (p : A -> bool) (l : list A) : forallb p (rev l) = forallb p l.
Proof.
  induction l as [|x l IH]; simpl; [done|].
  rewrite forallb_app, IH. simpl. rewrite andb_true_r. apply andb_comm.
Qed.

Lemma seg_rev_prefix (pre b : list ascii) :
  dir_prefix pre -> plain_l b -> seg_rev (pre ++ b) = rev b.
Proof.
  intros Hpre (Hne & Hns & _). unfold seg_rev. rewrite rev_app_distr.
  assert (Hr : forallb not_slash (rev b) = true) by (by rewrite forallb_rev).
  destruct (rev b) as [|x rb] eqn:E.
  { exfalso. apply Hne. apply (f_equal (@rev ascii)) in E. by rewrite rev_involutive in E. }
  simpl in Hr. apply andb_prop in Hr as [Hx Hrb].
  assert (Sx : is_slash x = false) by (unfold not_slash in Hx; by apply negb_true_iff in Hx).
  simpl. rewrite Sx. simpl. rewrite Hx. f_equal.
  apply take_while_app; [done|].
  destruct Hpre as [-> | [q ->]]; [by left|right].
  rewrite rev_app_distr. simpl. eexists _, _. split; [reflexivity|]. reflexivity.
Qed.

Lemma extname_prefix (pre b : list ascii) :
  dir_prefix pre -> plain_l b -> extname_l (pre ++ b) = extname_l b.
Proof.
  intros Hpre Hb. unfold extname_l.
  rewrite (seg_rev_prefix pre b Hpre Hb).
  pose proof (seg_rev_prefix [] b (or_introl eq_refl) Hb) as E. simpl in E. by rewrite E.
Qed.

Lemma split_nonempty (p : list ascii) : split p <> [].
Proof. induction p as [|c p IH]; simpl; [done|]. destruct (is_slash c); [done|]. by destruct (split p). Qed.

Lemma split_plain (b : list ascii) : forallb not_slash b = true -> split b = [b].
Proof.
  induction b as [|c b IH]; simpl; [done|]. intros [Hc Hb]%andb_prop.
  unfold not_slash in Hc. apply negb_true_iff in Hc. rewrite Hc, (IH Hb). done.
Qed.

Lemma split_app (a b : list ascii) :
  forallb not_slash b = true -> split (a ++ slash :: b) = split a ++ [b].
Proof.
  intros Hb. induction a as [|c a IH]; simpl.
  - by rewrite (split_plain b Hb).
  - rewrite IH. destruct (is_slash c); [done|].
    pose proof (split_nonempty a). by destruct (split a).
Qed.

Lemma render_snoc (l : list (list ascii)) (b : list ascii) :
  render (l ++ [b]) = match l with [] => b | _ => render l ++ slash :: b end.
Proof.
  induction l as [|s l IH]; [done|]. simpl app.
  change (render (s :: l ++ [b])) with
    (match l ++ [b] with [] => s | _ => s ++ slash :: render (l ++ [b]) end).
  rewrite IH. destruct l as [|s' l]; simpl; [done|].
  rewrite <- !app_assoc. simpl. done.
Qed.

Lemma norm_step_plain (above : bool) (stack : list (list ascii)) (b : list ascii) :
  plain_l b -> norm_step above stack b = b :: stack.
Proof.
  intros (H1 & _ & H2 & H3). unfold norm_step.
  rewrite !bool_decide_eq_false_2 by done. done.
Qed.

Lemma join_prefix_dir (a : list ascii) : dir_prefix (join_prefix a).
Proof.
  unfold join_prefix, dir_prefix. destruct a as [|c a]; [by left|].
  destruct (rev _) as [|s segs].
  - destruct (starts_with_slash _); [right; by exists []|by left].
  - right. eexists. rewrite app_assoc. reflexivity.
Qed.

Lemma last_not_slash (a b : list ascii) :
  b <> [] -> forallb not_slash b = true -> starts_with_slash (rev (a ++ b)) = false.
Proof.
  intros Hne Hb. rewrite rev_app_distr.
  assert (Hr : forallb not_slash (rev b) = true) by (by rewrite forallb_rev).
  destruct (rev b) as [|x rb] eqn:E.
  { exfalso. apply Hne. apply (f_equal (@rev ascii)) in E. by rewrite rev_involutive in E. }
  simpl in *. apply andb_prop in Hr as [Hx _]. by apply negb_true_iff in Hx.
Qed.

Lemma normalize_nonempty (p : list ascii) :
  p <> [] ->
  normalize_l p =
    let abs := starts_with_slash p in
    let trail := starts_with_slash (rev p) in
    let body := render (rev (fold_left (norm_step (negb abs)) (split p) [])) in
    match body with
    | [] => if abs then [slash] else if trail then [dot; slash] else [dot]
    | _ => (if abs then [slash] else []) ++ body ++ (if trail then [slash] else [])
    end.
Proof. by destruct p. Qed.

Lemma normalize_entry (b : list ascii) : plain_l b -> normalize_l b = b.
Proof.
  intros Hb. pose proof Hb as (Hne & Hns & _).
  rewrite normalize_nonempty by done. cbv zeta.
  rewrite (split_plain b Hns).
  change (fold_left ?f [b] []) with (f [] b). rewrite (norm_step_plain _ _ _ Hb).
  change (render (rev [b])) with b.
  assert (starts_with_slash b = false) as ->.
  { destruct b as [|c b]; [done|]. simpl in *. apply andb_prop in Hns as [Hc _].
    by apply negb_true_iff in Hc. }
  rewrite (last_not_slash [] b Hne Hns : starts_with_slash (rev b) = false).
  destruct b; [done|]. simpl. by rewrite app_nil_r.
Qed.

Lemma normalize_below (a b : list ascii) :
  a <> [] -> plain_l b -> normalize_l (a ++ slash :: b) = join_prefix a ++ b.
Proof.
  intros Ha Hb. pose proof Hb as (Hne & Hns & _).
  rewrite normalize_nonempty by (by destruct a). cbv zeta.
  assert (starts_with_slash (a ++ slash :: b) = starts_with_slash a) as -> by (by destruct a).
  assert (starts_with_slash (rev (a ++ slash :: b)) = false) as ->.
  { change (a ++ slash :: b) with (a ++ [slash] ++ b). rewrite app_assoc.
    by apply last_not_slash. }
  rewrite (split_app _ _ Hns), fold_left_app.
  change (fold_left ?f [b] ?st) with (f st b). rewrite (norm_step_plain _ _ _ Hb).
  change (rev (b :: ?st)) with (rev st ++ [b]). rewrite render_snoc.
  unfold join_prefix. destruct a as [|c a]; [done|].
  remember (starts_with_slash (c :: a)) as abs.
  remember (rev (fold_left (norm_step (negb abs)) (split (c :: a)) [])) as segs.
  destruct segs as [|s segs].
  - rewrite !app_nil_r. destruct b; [done|]. done.
  - rewrite !app_nil_r.
    destruct (render (s :: segs) ++ slash :: b) eqn:E; [by destruct (render (s :: segs))|].
    rewrite <- E, <- !app_assoc. done.
Qed.

Lemma join_plain (a b : list ascii) : plain_l b -> join_l a b = join_prefix a ++ b.
Proof.
  intros Hb. pose proof Hb as (Hne & _). unfold join_l.
  destruct a as [|c a]; destruct b as [|x b]; try done.
  - by rewrite normalize_entry.
  - by rewrite normalize_below.
Qed.

(** *** On strings *)


End PathFacts.

(** ** Running computations *)

Lemma bind_ok {A B} (m : M A) (k : A -> M B) (s s1 : State) (a : A) :
  m s = (Ok a, s1) -> bind m k s = k a s1.
Proof. unfold bind. by intros ->. Qed.

Lemma bind_throw {A B} (m : M A) (k : A -> M B) (s s1 : State) (e : JsError) :
  m s = (Throw e, s1) -> bind m k s = (Throw e, s1).
Proof. unfold bind. by intros ->. Qed.

Lemma try_catch_ok {A} (m : M A) (h : JsError -> M A) (s s1 : State) (a : A) :
  m s = (Ok a, s1) -> try_catch m h s = (Ok a, s1).
Proof. unfold try_catch. by intros ->. Qed.

Lemma try_catch_throw {A} (m : M A) (h : JsError -> M A) (s s1 : State) (e : JsError) :
  m s = (Throw e, s1) -> try_catch m h s = h e s1.
Proof. unfold try_catch. by intros ->. Qed.


Lemma logged_logged (a b : list IOEvent) (s : State) :
  logged b (logged a s) = logged (a ++ b) s.
Proof. unfold logged. simpl. by rewrite app_assoc. Qed.

Lemma logged_with_stats (f : Stats -> Stats) (a : list IOEvent) (s : State) :
  logged a (with_stats f s) = with_stats f (logged a s).
Proof. reflexivity. Qed.

Lemma logged_with_files (f : gmap string Z -> gmap string Z) (a : list IOEvent) (s : State) :
  logged a (with_files f s) = with_files f (logged a s).
Proof. reflexivity. Qed.

Lemma logged_with_cache (f : gmap string ProcessingResult -> gmap string ProcessingResult)
    (a : list IOEvent) (s : State) :
  logged a (with_cache f s) = with_cache f (logged a s).
Proof. reflexivity. Qed.

Lemma logged_with_dirs (f : gmap string (list string) -> gmap string (list string))
    (a : list IOEvent) (s : State) :
  logged a (with_dirs f s) = with_dirs f (logged a s).
Proof. reflexivity. Qed.

(** *** Listings *)

Lemma enter_keeps (p k : string) (dirs : gmap string (list string)) :
  is_Some (enter p dirs !! k) <-> is_Some (dirs !! k).
Proof.
  unfold enter. destruct (is_entry p); [|done].
  destruct (decide (Path.dirname p = k)) as [<- | Hne].
  - rewrite lookup_alter_eq. by rewrite fmap_is_Some.
  - by rewrite lookup_alter_ne.
Qed.

Lemma leave_keeps (p k : string) (dirs : gmap string (list string)) :
  is_Some (leave p dirs !! k) <-> is_Some (dirs !! k).
Proof.
  unfold leave. destruct (is_entry p); [|done].
  destruct (decide (Path.dirname p = k)) as [<- | Hne].
  - rewrite lookup_alter_eq. by rewrite fmap_is_Some.
  - by rewrite lookup_alter_ne.
Qed.

Lemma make_one_keeps (q k : string) (dirs : gmap string (list string)) :
  is_Some (dirs !! k) -> is_Some (make_one q dirs !! k).
Proof.
  intros Hk. unfold make_one. destruct (dirs !! q) eqn:E; [done|].
  destruct (decide (q = k)) as [<- | Hne].
  - rewrite lookup_insert_eq. by eexists.
  - rewrite lookup_insert_ne by done. by apply enter_keeps.
Qed.

Lemma make_one_made (q : string) (dirs : gmap string (list string)) :
  is_Some (make_one q dirs !! q).
Proof.
  unfold make_one. destruct (dirs !! q) eqn:E; [by eexists|].
  rewrite lookup_insert_eq. by eexists.
Qed.

Lemma make_dirs_keeps (p k : string) (dirs : gmap string (list string)) :
  is_Some (dirs !! k) -> is_Some (make_dirs p dirs !! k).
Proof.
  intros Hk. unfold make_dirs.
  induction (lineage (S (String.length p)) p) as [|q l IH]; [done|].
  cbn [fold_right]. by apply make_one_keeps.
Qed.

Lemma make_dirs_made (p : string) (dirs : gmap string (list string)) :
  is_Some (make_dirs p dirs !! p).
Proof.
  unfold make_dirs. cbn [lineage].
  destruct (String.eqb (Path.dirname p) p); cbn [fold_right]; apply make_one_made.
Qed.

Section Primitives.
Variable env : Env.


Lemma fs_access_ok (p : string) (s : State) :
  exists_path s p = true -> access_denied env p = false ->
  fs_access env p s = (Ok tt, logged [IoAccess p] s).
Proof.
  intros H1 H2. unfold fs_access, bind, log, modify, gets. cbn beta iota.
  change (exists_path (logged [IoAccess p] s) p) with (exists_path s p).
  by rewrite H1, H2.
Qed.

Lemma fs_access_fail (p : string) (s : State) :
  exists_path s p = false \/ access_denied env p = true ->
  exists e, fs_access env p s = (Throw e, logged [IoAccess p] s).
Proof.
  intros H. unfold fs_access, bind, log, modify, gets. cbn beta iota.
  change (exists_path (logged [IoAccess p] s) p) with (exists_path s p).
  destruct (exists_path s p); cbn; [|eauto].
  destruct H as [H | ->]; [discriminate H|]. eauto.
Qed.

Lemma fs_stat_file (p : string) (n : Z) (s : State) :
  st_files s !! p = Some n ->
  fs_stat p s = (Ok {| isFile := true; size := n |}, logged [IoStat p] s).
Proof.
  intros H. unfold fs_stat, bind, log, modify, gets. cbn beta iota.
  change (st_files (logged [IoStat p] s)) with (st_files s). by rewrite H.
Qed.

Lemma fs_stat_not_file (p : string) (s : State) :
  st_files s !! p = None ->
  (exists l, st_dirs s !! p = Some l /\
     fs_stat p s = (Ok {| isFile := false; size := 0 |}, logged [IoStat p] s))
  \/ (exists e, fs_stat p s = (Throw e, logged [IoStat p] s)).
Proof.
  intros H. unfold fs_stat, bind, log, modify, gets. cbn beta iota.
  change (st_files (logged [IoStat p] s)) with (st_files s).
  change (st_dirs (logged [IoStat p] s)) with (st_dirs s). rewrite H.
  destruct (st_dirs s !! p); [left|right]; eauto.
Qed.

(** The state a successful [mkdir] leaves. *)
Lemma fs_mkdir_ok (p : string) (s : State) :
  mkdir_error env p = None ->
  exists s1, fs_mkdir env p s = (Ok tt, s1)
    /\ st_stats s1 = st_stats s /\ st_cache s1 = st_cache s
    /\ st_files s1 = st_files s /\ st_ticks s1 = st_ticks s
    /\ st_trace s1 = st_trace s ++ [IoMkdir p]
    /\ is_Some (st_dirs s1 !! p)
    /\ (forall q, is_Some (st_dirs s !! q) -> is_Some (st_dirs s1 !! q))
    /\ (is_Some (st_dirs s !! p) -> st_dirs s1 = st_dirs s).
Proof.
  intros H. unfold fs_mkdir, bind, log, modify, gets. cbn beta iota.
  change (st_dirs (logged [IoMkdir p] s)) with (st_dirs s). rewrite H.
  destruct (st_dirs s !! p) as [l|] eqn:E.
  - eexists. split; [reflexivity|]. cbn. rewrite E. eauto 10.
  - eexists. split; [reflexivity|]. cbn.
    repeat split; eauto using make_dirs_made, make_dirs_keeps.
    intros [x Hx]. discriminate Hx.
Qed.

Lemma fs_mkdir_fail (p : string) (msg : string) (s : State) :
  mkdir_error env p = Some msg ->
  fs_mkdir env p s = (Throw (new_Error msg), logged [IoMkdir p] s).
Proof.
  intros H. unfold fs_mkdir, bind, log, modify, gets. cbn beta iota. by rewrite H.
Qed.

Lemma fs_readdir_ok (p : string) (names : list string) (s : State) :
  st_dirs s !! p = Some names ->
  fs_readdir p s = (Ok names, logged [IoReaddir p] s).
Proof.
  intros H. unfold fs_readdir, bind, log, modify, gets. cbn beta iota.
  change (st_dirs (logged [IoReaddir p] s)) with (st_dirs s). by rewrite H.
Qed.

Lemma fs_unlink_ok (p : string) (n : Z) (s : State) :
  st_files s !! p = Some n -> unlink_error env p = None ->
  fs_unlink env p s
  = (Ok tt, with_dirs (leave p) (with_files (delete p) (logged [IoUnlink p] s))).
Proof.
  intros H1 H2. unfold fs_unlink, bind, log, modify, gets. cbn beta iota.
  change (st_files (logged [IoUnlink p] s)) with (st_files s). by rewrite H1, H2.
Qed.

Lemma fs_unlink_fail (p : string) (n : Z) (msg : string) (s : State) :
  st_files s !! p = Some n -> unlink_error env p = Some msg ->
  fs_unlink env p s = (Throw (new_Error msg), logged [IoUnlink p] s).
Proof.
  intros H1 H2. unfold fs_unlink, bind, log, modify, gets. cbn beta iota.
  change (st_files (logged [IoUnlink p] s)) with (st_files s). by rewrite H1, H2.
Qed.

Lemma sharp_ok (f fmt : string) (o : Js.Obj) (out : string) (bytes : Z) (s : State) :
  encoder env f fmt o out = inl bytes ->
  sharp_toFile env f fmt o out s
  = (Ok tt, with_dirs (enter out)
              (with_files (insert out bytes) (logged [IoEncode f fmt o out] s))).
Proof.
  intros H. unfold sharp_toFile, bind, log, modify. cbn beta iota. by rewrite H.
Qed.

Lemma sharp_fail (f fmt : string) (o : Js.Obj) (out msg : string) (s : State) :
  encoder env f fmt o out = inr msg ->
  sharp_toFile env f fmt o out s
  = (Throw (new_Error msg), logged [IoEncode f fmt o out] s).
Proof.
  intros H. unfold sharp_toFile, bind, log, modify. cbn beta iota. by rewrite H.
Qed.
End Primitives.

(** ** The stages of [#processImage] *)

Section Stages.
Import Js Registry.
Variable env : Env.

Lemma exists_file (s : State) (p : string) (n : Z) :
  st_files s !! p = Some n -> exists_path s p = true.
Proof. intros H. unfold exists_path. rewrite H. by rewrite bool_decide_eq_true_2. Qed.

Lemma validateFile_ok (f : string) (n : Z) (s : State) :
  st_files s !! f = Some n -> access_denied env f = false ->
  validateFile env f s = (Ok tt, logged [IoAccess f; IoStat f] s).
Proof.
  intros Hf Hd. unfold validateFile.
  erewrite try_catch_ok; [reflexivity|].
  erewrite bind_ok by (apply fs_access_ok; [by eapply exists_file|done]).
  erewrite bind_ok by (by apply fs_stat_file).
  cbn. by rewrite logged_logged.
Qed.

Lemma validateFile_fail (f : string) (s : State) :
  st_files s !! f = None \/ access_denied env f = true ->
  exists e evs, validateFile env f s = (Throw e, logged evs s).
Proof.
  intros H. unfold validateFile.
  destruct (exists_path s f) eqn:Hex; [destruct (access_denied env f) eqn:Hd|].
  - destruct (fs_access_fail env f s (or_intror Hd)) as [e He].
    erewrite try_catch_throw by (erewrite bind_throw by exact He; reflexivity).
    cbn. eauto.
  - destruct H as [Hn | ?]; [|discriminate].
    destruct (fs_stat_not_file f (logged [IoAccess f] s) Hn) as [(l & _ & Hs) | [e He]].
    + erewrite try_catch_throw.
      2:{ erewrite bind_ok by (by apply fs_access_ok).
          erewrite bind_ok by exact Hs. reflexivity. }
      cbn. rewrite logged_logged. eauto.
    + erewrite try_catch_throw.
      2:{ erewrite bind_ok by (by apply fs_access_ok).
          erewrite bind_throw by exact He. reflexivity. }
      cbn. rewrite logged_logged. eauto.
  - destruct (fs_access_fail env f s (or_introl Hex)) as [e He].
    erewrite try_catch_throw by (erewrite bind_throw by exact He; reflexivity).
    cbn. eauto.
Qed.

(** The input is missing, unreadable or not a regular file. *)
Lemma processImage_invalid (f out : string) (o : Obj) (s : State) :
  st_files s !! f = None \/ access_denied env f = true ->
  exists e evs,
    processImage env f out o s
    = (Throw (enhanceError e f), with_stats incr_failed (logged evs s)).
Proof.
  intros H. destruct (validateFile_fail f s H) as (e & evs & He).
  unfold processImage.
  erewrite try_catch_throw by (erewrite bind_throw by exact He; reflexivity).
  cbn. eauto.
Qed.

(** The result is in the cache. *)
Lemma processImage_hit (f out : string) (o : Obj) (n : Z) (r : ProcessingResult)
    (s : State) :
  st_files s !! f = Some n -> access_denied env f = false ->
  st_cache s !! cacheKey f o = Some r ->
  processImage env f out o s
  = (Ok r, with_stats incr_skipped (logged [IoAccess f; IoStat f; IoStat f] s)).
Proof.
  intros Hf Hd Hc. unfold processImage.
  erewrite try_catch_ok; [reflexivity|].
  erewrite bind_ok by (by eapply validateFile_ok).
  erewrite bind_ok by (by apply fs_stat_file).
  rewrite logged_logged. unfold gets at 1. unfold bind at 1. cbn beta iota.
  change (st_cache (logged _ s)) with (st_cache s). rewrite Hc.
  reflexivity.
Qed.

(** The encoder rejects the request. *)
Lemma processImage_encode_fail (f out : string) (o : Obj) (n : Z) (msg : string)
    (s : State) :
  st_files s !! f = Some n -> access_denied env f = false ->
  st_cache s !! cacheKey f o = None ->
  encoder env f (Str.slice1 (Path.extname out)) (without "format" o) out = inr msg ->
  processImage env f out o s
  = (Throw (enhanceError (new_Error msg) f),
     with_stats incr_failed
       (logged [IoAccess f; IoStat f; IoStat f;
                IoEncode f (Str.slice1 (Path.extname out)) (without "format" o) out] s)).
Proof.
  intros Hf Hd Hc He. unfold processImage.
  erewrite try_catch_throw.
  2:{ erewrite bind_ok by (by eapply validateFile_ok).
      erewrite bind_ok by (by apply fs_stat_file).
      rewrite logged_logged. unfold gets at 1. unfold bind at 1. cbn beta iota.
      change (st_cache (logged _ s)) with (st_cache s). rewrite Hc.
      erewrite bind_throw by (by apply sharp_fail). rewrite logged_logged. reflexivity. }
  reflexivity.
Qed.

Ltac run_to_stat :=
  erewrite bind_ok by (by eapply validateFile_ok);
  erewrite bind_ok by (by apply fs_stat_file);
  rewrite logged_logged; unfold gets at 1; unfold bind at 1; cbn beta iota;
  change (st_cache (logged _ ?s)) with (st_cache s);
  match goal with H : st_cache _ !! _ = None |- _ => rewrite H end;
  erewrite bind_ok by (by apply sharp_ok); rewrite logged_logged;
  erewrite bind_ok by (apply fs_stat_file; cbn; apply lookup_insert_eq);
  rewrite logged_with_dirs, logged_with_files, logged_logged; cbn [size app].

(** The conversion succeeds and the original stays. *)
Lemma processImage_kept (f out : string) (o : Obj) (n bytes : Z) (s : State) :
  st_files s !! f = Some n -> access_denied env f = false ->
  st_cache s !! cacheKey f o = None ->
  encoder env f (Str.slice1 (Path.extname out)) (without "format" o) out = inl bytes ->
  truthy (prop "remove" o) = false ->
  processImage env f out o s
  = (Ok (generateResult f n bytes),
     recorded (cacheKey f o) (generateResult f n bytes) (written f out o bytes s)).
Proof.
  intros Hf Hd Hc He Hr. unfold processImage.
  erewrite try_catch_ok; [reflexivity|].
  run_to_stat. rewrite Hr. reflexivity.
Qed.

Lemma written_input (f out : string) (o : Obj) (n bytes : Z) (s : State) :
  st_files s !! f = Some n ->
  exists n', st_files (written f out o bytes s) !! f = Some n'.
Proof.
  intros Hf. cbn. destruct (decide (out = f)) as [-> | Hne].
  - rewrite lookup_insert_eq. eauto.
  - rewrite lookup_insert_ne by done. eauto.
Qed.

(** The conversion succeeds and the original is removed. *)
Lemma processImage_removed (f out : string) (o : Obj) (n bytes : Z) (s : State) :
  st_files s !! f = Some n -> access_denied env f = false ->
  st_cache s !! cacheKey f o = None ->
  encoder env f (Str.slice1 (Path.extname out)) (without "format" o) out = inl bytes ->
  truthy (prop "remove" o) = true -> unlink_error env f = None ->
  processImage env f out o s
  = (Ok (generateResult f n bytes),
     recorded (cacheKey f o) (generateResult f n bytes)
       (unlinked f (written f out o bytes s))).
Proof.
  intros Hf Hd Hc He Hr Hu. unfold processImage.
  destruct (written_input f out o n bytes s Hf) as [n' Hn'].
  erewrite try_catch_ok; [reflexivity|].
  run_to_stat. rewrite Hr.
  erewrite bind_ok by (by eapply fs_unlink_ok). reflexivity.
Qed.

(** The conversion succeeds and the original cannot be removed. *)
Lemma processImage_unlink_fail (f out : string) (o : Obj) (n bytes : Z) (msg : string)
    (s : State) :
  st_files s !! f = Some n -> access_denied env f = false ->
  st_cache s !! cacheKey f o = None ->
  encoder env f (Str.slice1 (Path.extname out)) (without "format" o) out = inl bytes ->
  truthy (prop "remove" o) = true -> unlink_error env f = Some msg ->
  processImage env f out o s
  = (Throw (enhanceError (new_Error msg) f),
     with_stats incr_failed (logged [IoUnlink f] (written f out o bytes s))).
Proof.
  intros Hf Hd Hc He Hr Hu. unfold processImage.
  destruct (written_input f out o n bytes s Hf) as [n' Hn'].
  erewrite try_catch_throw.
  2:{ run_to_stat. rewrite Hr.
      erewrite bind_throw by (by eapply fs_unlink_fail). reflexivity. }
  reflexivity.
Qed.
End Stages.

(** ** Every run of [#processImage] and of [processFile] *)

Section AllRuns.
Import Js Registry.
Variable env : Env.

Lemma processImage_run (f out : string) (o : Obj) (s : State) :
  ImageRun env f out o s (processImage env f out o s).
Proof.
  destruct (st_files s !! f) as [n|] eqn:Hf.
  2:{ destruct (processImage_invalid env f out o s (or_introl Hf)) as (e & evs & ->).
      apply run_invalid. by left. }
  destruct (access_denied env f) eqn:Hd.
  { destruct (processImage_invalid env f out o s (or_intror Hd)) as (e & evs & ->).
    apply run_invalid. by right. }
  destruct (st_cache s !! cacheKey f o) as [r|] eqn:Hc.
  { rewrite (processImage_hit env f out o n r s Hf Hd Hc). by eapply run_hit. }
  destruct (encoder env f (Str.slice1 (Path.extname out)) (without "format" o) out)
    as [bytes | msg] eqn:He.
  2:{ rewrite (processImage_encode_fail env f out o n msg s Hf Hd Hc He).
      by eapply run_encode_fail. }
  destruct (truthy (prop "remove" o)) eqn:Hr.
  2:{ rewrite (processImage_kept env f out o n bytes s Hf Hd Hc He Hr). by eapply run_kept. }
  destruct (unlink_error env f) as [msg|] eqn:Hu.
  - rewrite (processImage_unlink_fail env f out o n bytes msg s Hf Hd Hc He Hr Hu).
    by eapply run_unlink_fail.
  - rewrite (processImage_removed env f out o n bytes s Hf Hd Hc He Hr Hu).
    by eapply run_removed.
Qed.

Lemma emit_start (s : State) : emit env ProcessingStart s = (Ok tt, started env s).
Proof. reflexivity. Qed.

Lemma emit_complete (s : State) : emit env ProcessingComplete s = (Ok tt, completed env s).
Proof. reflexivity. Qed.

Lemma emit_error (e : JsError) (s : State) :
  emit env (ErrorEvent e) s = (Ok tt, logged [IoConsoleError (err_message e)] s).
Proof. reflexivity. Qed.

Lemma validateFormat_accepts (cfg : FormatConfig) (req : FileRequest) (s : State) :
  accepts cfg req -> validateFormat (input req) (format req) s = (Ok cfg, s).
Proof. intros [H1 H2]. unfold validateFormat. rewrite H1, H2. reflexivity. Qed.

Lemma validateFormat_rejects (req : FileRequest) (s : State) :
  rejects req -> exists e, validateFormat (input req) (format req) s = (Throw e, s).
Proof.
  intros H. unfold validateFormat.
  destruct (lookup (Str.toLowerCase (format req))) as [cfg| |] eqn:E; [|by eexists..].
  rewrite (H cfg E). by eexists.
Qed.

Lemma accepts_or_rejects (req : FileRequest) : (exists cfg, accepts cfg req) \/ rejects req.
Proof.
  unfold accepts, rejects.
  destruct (lookup (Str.toLowerCase (format req))) as [cfg| |] eqn:E;
    [|right; intros ? [=]..].
  destruct (includes (Str.toLowerCase (Path.extname (input req))) (supportedInputs cfg)) eqn:I.
  - left. by exists cfg.
  - right. by intros ? [= <-].
Qed.

Lemma processFile_rejected (req : FileRequest) (s : State) :
  rejects req ->
  exists e, processFile env req s
            = (Throw e, logged [IoConsoleError (err_message e)] (started env s)).
Proof.
  intros H. destruct (validateFormat_rejects req (started env s) H) as [e He].
  exists e. unfold processFile.
  erewrite bind_ok by apply emit_start.
  erewrite try_catch_throw by (erewrite bind_throw by exact He; reflexivity).
  erewrite bind_ok by apply emit_error. reflexivity.
Qed.

Lemma processFile_mkdir_fail (cfg : FormatConfig) (req : FileRequest) (msg : string)
    (s : State) :
  accepts cfg req ->
  mkdir_error env (Path.dirname (resolveOutput req cfg)) = Some msg ->
  processFile env req s
  = (Throw (new_Error msg),
     logged [IoMkdir (Path.dirname (resolveOutput req cfg)); IoConsoleError msg]
       (started env s)).
Proof.
  intros Ha Hm. unfold processFile.
  erewrite bind_ok by apply emit_start.
  erewrite try_catch_throw.
  2:{ erewrite bind_ok by (by apply validateFormat_accepts).
      erewrite bind_throw by (by apply fs_mkdir_fail). reflexivity. }
  erewrite bind_ok by apply emit_error. by rewrite logged_logged.
Qed.

Lemma processFile_image (cfg : FormatConfig) (req : FileRequest) (s s1 : State) :
  accepts cfg req ->
  fs_mkdir env (Path.dirname (resolveOutput req cfg)) (started env s) = (Ok tt, s1) ->
  processFile env req s
  = finish env (processImage env (input req) (resolveOutput req cfg)
                  (mergedOptions cfg (format req) (processingOptions req)) s1).
Proof.
  intros Ha Hm. unfold processFile.
  erewrite bind_ok by apply emit_start.
  destruct (processImage env (input req) (resolveOutput req cfg)
              (mergedOptions cfg (format req) (processingOptions req)) s1)
    as [[res | e] s2] eqn:E.
  - erewrite try_catch_ok; [reflexivity|].
    erewrite bind_ok by (by apply validateFormat_accepts).
    erewrite bind_ok by exact Hm.
    erewrite bind_ok by exact E.
    erewrite bind_ok by apply emit_complete. reflexivity.
  - erewrite try_catch_throw.
    2:{ erewrite bind_ok by (by apply validateFormat_accepts).
        erewrite bind_ok by exact Hm.
        erewrite bind_throw by exact E. reflexivity. }
    erewrite bind_ok by apply emit_error. reflexivity.
Qed.

Lemma processFile_run (req : FileRequest) (s : State) :
  FileRun env req s (processFile env req s).
Proof.
  destruct (accepts_or_rejects req) as [[cfg Ha] | Hr].
  2:{ destruct (processFile_rejected req s Hr) as [e ->]. by apply file_rejected. }
  destruct (mkdir_error env (Path.dirname (resolveOutput req cfg))) as [msg|] eqn:Hm.
  { rewrite (processFile_mkdir_fail cfg req msg s Ha Hm). by eapply file_mkdir_fail. }
  destruct (fs_mkdir_ok env _ (started env s) Hm) as (s1 & Hs1 & _).
  rewrite (processFile_image cfg req s s1 Ha Hs1).
  eapply file_image; eauto. apply processImage_run.
Qed.
End AllRuns.

(** ** One file of a batch *)

Section OneFile.
Import Js Registry.
Variable env : Env.

Lemma fs_mkdir_inv (p : string) (s s1 : State) :
  fs_mkdir env p s = (Ok tt, s1) ->
  st_stats s1 = st_stats s /\ st_cache s1 = st_cache s
  /\ st_files s1 = st_files s /\ st_ticks s1 = st_ticks s
  /\ st_trace s1 = st_trace s ++ [IoMkdir p]
  /\ is_Some (st_dirs s1 !! p)
  /\ (forall q, is_Some (st_dirs s !! q) -> is_Some (st_dirs s1 !! q))
  /\ (is_Some (st_dirs s !! p) -> st_dirs s1 = st_dirs s).
Proof.
  intros H. destruct (mkdir_error env p) as [msg|] eqn:E.
  - rewrite (fs_mkdir_fail env p msg s E) in H. discriminate H.
  - destruct (fs_mkdir_ok env p s E) as (s1' & H' & F). rewrite H' in H.
    injection H as <-. exact F.
Qed.


Lemma accepts_unique (cfg cfg' : FormatConfig) (req : FileRequest) :
  accepts cfg req -> accepts cfg' req -> cfg = cfg'.
Proof. intros [H _] [H' _]. rewrite H in H'. by injection H'. Qed.

Lemma accepts_not_rejects (cfg : FormatConfig) (req : FileRequest) :
  accepts cfg req -> rejects req -> False.
Proof. intros [H1 H2] H. rewrite (H cfg H1) in H2. discriminate H2. Qed.


End OneFile.

(** ** The loop of [processFolder] *)

Section Loop.
Import Js Registry.
Variable env : Env.
Variable req : FolderRequest.
Variable cfg : FormatConfig.
Variable cb : option Callback.
Variable corrupted : string -> bool.

Hypothesis registered : lookup (Str.toLowerCase (folder_format req)) = Own cfg.
Hypothesis cb_quiet : quiet cb.






End Loop.

(** ** Partial failure of a batch *)







(** ** Errors before the processing stage *)

(** C10. A single-file call whose target format is unknown, or whose
    input extension the target format does not accept, throws before the
    processing stage: nothing but the console is reached, and the four
    counters, the cache, the files and the directories are as before.
    In every call, the [failed] counter either stays or grows by one, and
    it grows only when the call rethrows an error of [#processImage], which
    carries the path of the input and the error that caused it. *)
Theorem failed_counts_processing_errors_only
    (env : Env) (req : FileRequest) (s s' : State) (r : Outcome ProcessingResult) :
  processFile env req s = (r, s') ->
  (rejects req ->
     (exists e, r = Throw e /\ st_trace s' = st_trace s ++ [IoConsoleError (err_message e)])
     /\ counters s' = counters s
     /\ st_cache s' = st_cache s
     /\ st_files s' = st_files s
     /\ st_dirs s' = st_dirs s)
  /\ (failed (st_stats s') = failed (st_stats s)
      \/ (failed (st_stats s') = S (failed (st_stats s))
          /\ exists e, r = Throw e /\ from_processing_stage (input req) e)).
Proof.
  intros H. pose proof (processFile_run env req s) as R. rewrite H in R.
  inversion R as [e Hr | cfg msg Ha Hm | cfg s1 r0 Ha Hm Hrun Hi Hfin]; subst.
  - split; [|by left]. intros _. repeat split; eauto.
  - split; [|by left]. intros Hr. destruct (accepts_not_rejects cfg req Ha Hr).
  - split; [intros Hr; destruct (accepts_not_rejects cfg req Ha Hr)|].
    apply fs_mkdir_inv in Hrun as (Hst & _).
    assert (F1 : failed (st_stats s1) = failed (st_stats s)) by (by rewrite Hst).
    inversion Hi; subst; cbn [finish] in Hfin; injection Hfin as <- <-; cbn; rewrite F1;
      first [ by left | right; split; [done|]; eexists; split; [done|]; by eexists ].
Qed.

Lemma failed_counts_processing_errors_only_witness :
  (rejects Demo.to_bmp ->
     (exists e, Demo.outcome (processFile Demo.env Demo.to_bmp) Demo.fresh = Throw e
        /\ st_trace (Demo.after (processFile Demo.env Demo.to_bmp) Demo.fresh)
           = st_trace Demo.fresh ++ [IoConsoleError (err_message e)])
     /\ counters (Demo.after (processFile Demo.env Demo.to_bmp) Demo.fresh)
        = counters Demo.fresh
     /\ st_cache (Demo.after (processFile Demo.env Demo.to_bmp) Demo.fresh)
        = st_cache Demo.fresh
     /\ st_files (Demo.after (processFile Demo.env Demo.to_bmp) Demo.fresh)
        = st_files Demo.fresh
     /\ st_dirs (Demo.after (processFile Demo.env Demo.to_bmp) Demo.fresh)
        = st_dirs Demo.fresh)
  /\ rejects Demo.to_bmp.
Proof.
  split.
  - apply (failed_counts_processing_errors_only Demo.env Demo.to_bmp Demo.fresh
             (Demo.after (processFile Demo.env Demo.to_bmp) Demo.fresh)
             (Demo.outcome (processFile Demo.env Demo.to_bmp) Demo.fresh)).
    unfold Demo.after, Demo.outcome. by destruct (processFile _ _ _).
  - intros cfg H. vm_compute in H. discriminate H.
Defined.

(** ** The cache *)

(** What a call that returned a result tells about the request, the
    environment and the cache it leaves. *)
Lemma processFile_ok_inv (env : Env) (req : FileRequest) (s s1 : State)
    (r : ProcessingResult) :
  processFile env req s = (Ok r, s1) ->
  exists cfg,
    accepts cfg req
    /\ mkdir_error env (Path.dirname (resolveOutput req cfg)) = None
    /\ access_denied env (input req) = false
    /\ st_cache s1 !! cacheKey (input req)
                        (mergedOptions cfg (format req) (processingOptions req)) = Some r.
Proof.
  intros H. pose proof (processFile_run env req s) as R. rewrite H in R.
  inversion R as [e Hr | cfg msg Ha Hm | cfg s0 r0 Ha Hm Hrun Hi Hfin]; subst.
  exists cfg. apply fs_mkdir_inv in Hrun as (_ & Hca & _).
  inversion Hi; subst; cbn [finish] in Hfin; try discriminate Hfin;
    injection Hfin as <- <-;
    (split; [exact Ha|]); (split; [exact Hm|]); (split; [done|]); cbn;
    first [ done | apply lookup_insert_eq ].
Qed.

(** C2, as the code has it. When a call has returned a result and the
    input is still a regular file, a second call with the same arguments
    returns the same result; it adds one to [skipped] and leaves the other
    counters, the cache and the files as they are; it does not reach the
    encoder. It is not free of I/O: it asks for the output directory and
    checks and measures the input, which are the four file-system calls the
    trace gains. *)
Theorem second_call_served_from_cache
    (env : Env) (req : FileRequest) (s s1 : State) (r : ProcessingResult) :
  processFile env req s = (Ok r, s1) ->
  is_Some (st_files s1 !! input req) ->
  exists cfg s2,
    processFile env req s1 = (Ok r, s2)
    /\ skipped (st_stats s2) = S (skipped (st_stats s1))
    /\ processed (st_stats s2) = processed (st_stats s1)
    /\ failed (st_stats s2) = failed (st_stats s1)
    /\ totalSaved (st_stats s2) = totalSaved (st_stats s1)
    /\ st_cache s2 = st_cache s1
    /\ st_files s2 = st_files s1
    /\ st_trace s2
       = st_trace s1
         ++ [IoMkdir (Path.dirname (resolveOutput req cfg)); IoAccess (input req);
             IoStat (input req); IoStat (input req)].
Proof.
  intros H [n Hn]. destruct (processFile_ok_inv env req s s1 r H) as (cfg & Ha & Hm & Hd & Hk).
  destruct (fs_mkdir_ok env _ (started env s1) Hm)
    as (s1' & Hrun & Hst & Hca & Hfi & _ & Htr & _).
  exists cfg. rewrite (processFile_image env cfg req s1 s1' Ha Hrun).
  change (st_cache (started env s1)) with (st_cache s1) in Hca.
  change (st_files (started env s1)) with (st_files s1) in Hfi.
  change (st_trace (started env s1)) with (st_trace s1) in Htr.
  rewrite (processImage_hit env _ _ _ n r s1'); [|by rewrite Hfi|done|by rewrite Hca].
  cbn [finish]. eexists. split; [reflexivity|]. cbn. rewrite Hst, Htr. cbn.
  rewrite <- app_assoc. done.
Qed.

Lemma second_call_served_from_cache_witness :
  exists cfg s2,
    processFile Demo.env (Demo.single false "in/a.png")
      (Demo.after (processFile Demo.env (Demo.single false "in/a.png")) Demo.fresh)
    = (Ok (generateResult "in/a.png" 204800 122880), s2)
    /\ skipped (st_stats s2) = 1
    /\ processed (st_stats s2) = 1
    /\ failed (st_stats s2) = 0
    /\ totalSaved (st_stats s2) = 81920%Z
    /\ st_cache s2
       = st_cache (Demo.after (processFile Demo.env (Demo.single false "in/a.png")) Demo.fresh)
    /\ st_files s2
       = st_files (Demo.after (processFile Demo.env (Demo.single false "in/a.png")) Demo.fresh)
    /\ st_trace s2
       = st_trace (Demo.after (processFile Demo.env (Demo.single false "in/a.png")) Demo.fresh)
         ++ [IoMkdir (Path.dirname (resolveOutput (Demo.single false "in/a.png") cfg));
             IoAccess "in/a.png"; IoStat "in/a.png"; IoStat "in/a.png"].
Proof.
  apply (second_call_served_from_cache Demo.env (Demo.single false "in/a.png") Demo.fresh
           (Demo.after (processFile Demo.env (Demo.single false "in/a.png")) Demo.fresh)
           (generateResult "in/a.png" 204800 122880)).
  - vm_compute. reflexivity.
  - eexists. vm_compute. reflexivity.
Defined.

(** C2, as stated, does not hold: a second call with the same arguments
    is not free of I/O even when it is served from the cache; it fails when
    the first call removed the original; and when the first call failed it
    reaches the encoder again. *)
Lemma second_call_not_as_stated :
  let kept := processFile Demo.env (Demo.single false "in/a.png") in
  let removed := processFile Demo.env (Demo.single true "in/a.png") in
  let rejected := processFile Demo.env (Demo.single false "in/b.png") in
  (Demo.outcome kept (Demo.after kept Demo.fresh) = Demo.outcome kept Demo.fresh
   /\ st_trace (Demo.after kept (Demo.after kept Demo.fresh))
      = st_trace (Demo.after kept Demo.fresh)
        ++ [IoMkdir "out"; IoAccess "in/a.png"; IoStat "in/a.png"; IoStat "in/a.png"])
  /\ (Demo.outcome removed Demo.fresh = Ok (generateResult "in/a.png" 204800 122880)
      /\ (exists e, Demo.outcome removed (Demo.after removed Demo.fresh) = Throw e)
      /\ skipped (st_stats (Demo.after removed (Demo.after removed Demo.fresh))) = 0
      /\ failed (st_stats (Demo.after removed (Demo.after removed Demo.fresh))) = 1)
  /\ (length (List.filter is_encode (st_trace (Demo.after rejected Demo.fresh))) = 1
      /\ length (List.filter is_encode
                   (st_trace (Demo.after rejected (Demo.after rejected Demo.fresh)))) = 2
      /\ skipped (st_stats (Demo.after rejected (Demo.after rejected Demo.fresh))) = 0).
Proof.
  cbv zeta. repeat split; try (vm_compute; reflexivity).
  eexists. vm_compute. reflexivity.
Qed.

Import Js Registry.

(** ** The cache key *)

(** C3, as the code has it. The key is the input path followed by
    [JSON.stringify] of the merged options, which lists the properties in
    the order of the object. Two option maps with the same key/value pairs
    give the same key when the properties that the format's own defaults
    do not have appear in the same relative order in both; the order of
    the properties that override a default does not matter. *)
Theorem cache_key_order
    (inputPath : string) (cfg : FormatConfig) (fmt : string) (o1 o2 : Obj) :
  NoDup (keys o1) ->
  Permutation o1 o2 ->
  List.filter (new_key (format_defaults cfg fmt)) o1
  = List.filter (new_key (format_defaults cfg fmt)) o2 ->
  cacheKey inputPath (mergedOptions cfg fmt o1)
  = cacheKey inputPath (mergedOptions cfg fmt o2).
Proof.
  intros Hnd Hp Hf. unfold mergedOptions.
  by rewrite (SpreadFacts.spread_perm o1 (format_defaults cfg fmt) o2 Hnd Hp Hf).
Qed.

Lemma cache_key_order_witness :
  cacheKey "in/a.jpg"
    (mergedOptions png "png"
       [("quality", JNum 90); ("compressionLevel", JNum 9); ("remove", JBool false)])
  = cacheKey "in/a.jpg"
      (mergedOptions png "png"
         [("compressionLevel", JNum 9); ("quality", JNum 90); ("remove", JBool false)]).
Proof.
  apply cache_key_order.
  - apply (bool_decide_unpack _). vm_compute. reflexivity.
  - apply perm_swap.
  - vm_compute. reflexivity.
Defined.

(** C3, as stated, does not hold: two option maps with the same pairs in
    a different insertion order can give different keys. *)
Lemma cache_key_depends_on_order :
  ~ (forall (inputPath : string) (cfg : FormatConfig) (fmt : string) (o1 o2 : Obj),
       NoDup (keys o1) -> Permutation o1 o2 ->
       cacheKey inputPath (mergedOptions cfg fmt o1)
       = cacheKey inputPath (mergedOptions cfg fmt o2)).
Proof.
  intros H.
  specialize (H "in/a.jpg" png "png"
                [("progressive", JBool true); ("mozjpeg", JBool true)]
                [("mozjpeg", JBool true); ("progressive", JBool true)]).
  assert (Hnd : NoDup (keys [("progressive", JBool true); ("mozjpeg", JBool true)]))
    by (apply (bool_decide_unpack _); vm_compute; reflexivity).
  specialize (H Hnd (perm_swap _ _ _)). vm_compute in H. discriminate H.
Qed.

(** ** The target format in the cache key *)

Lemma cacheKey_inj_options (inputPath : string) (o o' : Obj) :
  cacheKey inputPath o = cacheKey inputPath o' -> visible o = visible o'.
Proof.
  unfold cacheKey. intros H. apply app_inv_head_s, app_inv_head_s in H.
  by apply JsFacts.stringify_inj.
Qed.

Lemma merged_format (cfg : FormatConfig) (fmt : string) (o : Obj) :
  has "format" o = false -> get "format" (mergedOptions cfg fmt o) = Some (JStr fmt).
Proof.
  intros H. unfold mergedOptions. rewrite ObjFacts.get_spread_absent by done.
  unfold format_defaults. by rewrite ObjFacts.get_define.
Qed.

(** C9, as the code has it. When the caller's options have no [format]
    property of their own, the merged options carry the target format name
    under [format], and two conversions of the same input with the same
    such options and different target format names have different cache
    keys. *)
Theorem format_in_cache_key
    (inputPath : string) (cfg1 cfg2 : FormatConfig) (f1 f2 : string) (o : Obj) :
  has "format" o = false ->
  get "format" (mergedOptions cfg1 f1 o) = Some (JStr f1)
  /\ (f1 <> f2 ->
      cacheKey inputPath (mergedOptions cfg1 f1 o)
      <> cacheKey inputPath (mergedOptions cfg2 f2 o)).
Proof.
  intros H. split; [by apply merged_format|]. intros Hne E.
  apply cacheKey_inj_options in E.
  assert (G1 : get "format" (visible (mergedOptions cfg1 f1 o)) = Some (JStr f1))
    by (apply ObjFacts.get_visible; [by apply merged_format|done]).
  assert (G2 : get "format" (visible (mergedOptions cfg2 f2 o)) = Some (JStr f2))
    by (apply ObjFacts.get_visible; [by apply merged_format|done]).
  rewrite E, G2 in G1. injection G1 as G. by symmetry in G.
Qed.

Lemma format_in_cache_key_witness :
  get "format" (mergedOptions jpeg "jpeg" [("quality", JNum 50)]) = Some (JStr "jpeg")
  /\ ("jpeg" <> "png" ->
      cacheKey "pics/x.webp" (mergedOptions jpeg "jpeg" [("quality", JNum 50)])
      <> cacheKey "pics/x.webp" (mergedOptions png "png" [("quality", JNum 50)])).
Proof.
  apply (format_in_cache_key "pics/x.webp" jpeg png "jpeg" "png" [("quality", JNum 50)]).
  reflexivity.
Defined.

(** C9, as stated, does not hold: options that set [format] themselves
    (and leave the defaults of both formats undefined) give JPEG and PNG
    one and the same key for the same input, and the PNG request is then
    answered with the JPEG result. *)
Lemma formats_can_share_a_key :
  lookup "jpeg" = Own jpeg /\ lookup "png" = Own png
  /\ cacheKey "pics/x.webp" (mergedOptions jpeg "jpeg" Demo.blanking)
     = cacheKey "pics/x.webp" (mergedOptions png "png" Demo.blanking)
  /\ get "format" (mergedOptions png "png" Demo.blanking) = Some (JStr "x")
  /\ (let to fmt out :=
        processFile Demo.env
          {| input := "pics/x.webp"; output := Some out; format := fmt;
             processingOptions := Demo.blanking |} in
      let s1 := Demo.after (to "jpeg" "out/x.jpg") Demo.fresh in
      Demo.outcome (to "png" "out/x.png") s1 = Demo.outcome (to "jpeg" "out/x.jpg") Demo.fresh
      /\ skipped (st_stats (Demo.after (to "png" "out/x.png") s1)) = 1
      /\ st_files (Demo.after (to "png" "out/x.png") s1) !! "out/x.png" = None).
Proof. cbv zeta. repeat split; vm_compute; reflexivity. Qed.

(** ** Removing the original *)

(** C7, as the code has it. With the [remove] option set, the original is
    removed only after the output has been written and measured: the
    removal is the last file-system call of the conversion. When the
    removal fails, the call fails with it: the error is rethrown with the
    path of the input, [failed] grows by one, [processed] does not, the
    result is not cached, and the output stays written. When it succeeds,
    the call returns the result, caches it and counts it. *)
Theorem original_removed_last
    (env : Env) (req : FileRequest) (cfg : FormatConfig) (n bytes : Z) (s : State) :
  let o := mergedOptions cfg (format req) (processingOptions req) in
  let out := resolveOutput req cfg in
  let io :=
    [IoMkdir (Path.dirname out); IoAccess (input req); IoStat (input req);
     IoStat (input req);
     IoEncode (input req) (Str.slice1 (Path.extname out)) (without "format" o) out;
     IoStat out; IoUnlink (input req)] in
  accepts cfg req ->
  mkdir_error env (Path.dirname out) = None ->
  st_files s !! input req = Some n ->
  access_denied env (input req) = false ->
  st_cache s !! cacheKey (input req) o = None ->
  encoder env (input req) (Str.slice1 (Path.extname out)) (without "format" o) out
  = inl bytes ->
  truthy (prop "remove" o) = true ->
  exists s',
    match unlink_error env (input req) with
    | Some msg =>
        processFile env req s = (Throw (enhanceError (new_Error msg) (input req)), s')
        /\ failed (st_stats s') = S (failed (st_stats s))
        /\ processed (st_stats s') = processed (st_stats s)
        /\ st_cache s' = st_cache s
        /\ st_files s' = <[out := bytes]> (st_files s)
        /\ st_trace s'
           = st_trace s ++ io
             ++ [IoConsoleError (err_message (enhanceError (new_Error msg) (input req)))]
    | None =>
        processFile env req s = (Ok (generateResult (input req) n bytes), s')
        /\ failed (st_stats s') = failed (st_stats s)
        /\ processed (st_stats s') = S (processed (st_stats s))
        /\ st_cache s'
           = <[cacheKey (input req) o := generateResult (input req) n bytes]> (st_cache s)
        /\ st_files s' = delete (input req) (<[out := bytes]> (st_files s))
        /\ st_trace s' = st_trace s ++ io
    end.
Proof.
  intros o out io Ha Hm Hf Hd Hk He Hr.
  destruct (fs_mkdir_ok env _ (started env s) Hm) as (s1 & Hrun & Hst & Hca & Hfi & _ & Htr & _).
  change (st_cache (started env s)) with (st_cache s) in Hca.
  change (st_files (started env s)) with (st_files s) in Hfi.
  change (st_trace (started env s)) with (st_trace s) in Htr.
  rewrite (processFile_image env cfg req s s1 Ha Hrun). fold o out.
  assert (Hf1 : st_files s1 !! input req = Some n) by (by rewrite Hfi).
  assert (Hk1 : st_cache s1 !! cacheKey (input req) o = None) by (by rewrite Hca).
  destruct (unlink_error env (input req)) as [msg|] eqn:Hu.
  - rewrite (processImage_unlink_fail env _ out o n bytes msg s1 Hf1 Hd Hk1 He Hr Hu).
    cbn [finish]. eexists. split; [reflexivity|]. cbn. rewrite Hst, Hca, Hfi, Htr. cbn.
    repeat split. by rewrite <- !app_assoc.
  - rewrite (processImage_removed env _ out o n bytes s1 Hf1 Hd Hk1 He Hr Hu).
    cbn [finish]. eexists. split; [reflexivity|]. cbn. rewrite Hst, Hca, Hfi, Htr. cbn.
    repeat split. by rewrite <- !app_assoc.
Qed.

Lemma original_removed_last_witness :
  exists s',
    processFile Demo.env (Demo.single true "locked/a.png") Demo.fresh
    = (Throw (enhanceError (new_Error "EPERM: operation not permitted") "locked/a.png"), s')
    /\ failed (st_stats s') = 1
    /\ processed (st_stats s') = 0
    /\ st_cache s' = ∅
    /\ st_files s' = <["out/a.webp" := 122880%Z]> Demo.files
    /\ st_trace s'
       = [IoMkdir "out"; IoAccess "locked/a.png"; IoStat "locked/a.png";
          IoStat "locked/a.png";
          IoEncode "locked/a.png" "webp"
            (without "format"
               (mergedOptions webp "webp" (processingOptions (Demo.single true "locked/a.png"))))
            "out/a.webp";
          IoStat "out/a.webp"; IoUnlink "locked/a.png";
          IoConsoleError "Processing failed for locked/a.png: EPERM: operation not permitted"].
Proof.
  apply (original_removed_last Demo.env (Demo.single true "locked/a.png") webp 1000 122880
           Demo.fresh);
    vm_compute; try reflexivity. done.
Defined.

(** C7, as stated, does not hold: when the original cannot be removed the
    call does not return a result; it throws, nothing is cached, and the
    conversion is counted as failed, not as processed. *)
Lemma removal_failure_fails_the_call :
  let run := processFile Demo.env (Demo.single true "locked/a.png") in
  (exists e, Demo.outcome run Demo.fresh = Throw e)
  /\ processed (st_stats (Demo.after run Demo.fresh)) = 0
  /\ failed (st_stats (Demo.after run Demo.fresh)) = 1
  /\ st_cache (Demo.after run Demo.fresh) = ∅
  /\ st_files (Demo.after run Demo.fresh) !! "out/a.webp" = Some 122880%Z.
Proof. cbv zeta. split; [eexists|repeat split]; vm_compute; reflexivity. Qed.

(** ** Where the code departs from what is said of it *)

(** C4. The callback is called in the [try] branch of the loop only: a
    file that fails is recorded but not reported. In a batch of two files
    whose second is rejected by the encoder, both get a result, the only
    progress reported is the 50 of the first, and 100 is never reported. *)
Lemma failed_file_is_not_reported :
  let run := processFolder Demo.env Demo.tail_batch (Some Demo.silent) in
  (exists r1 r2, Demo.outcome run Demo.fresh = Ok [r1; r2]
     /\ success r1 = true /\ success r2 = false)
  /\ map Qred (progress_values (st_trace (Demo.after run Demo.fresh))) = [50 # 1].
Proof. cbv zeta. split; [eexists _, _; repeat split|]; vm_compute; reflexivity. Qed.

(** C5. Six of the seven descriptors leave their own extension out of
    their inputs; the JPEG descriptor lists [.jpg], the extension it
    writes (and [.jpeg]). *)
Lemma jpeg_accepts_its_own_extension :
  map fst
    (List.filter (fun entry => includes (extension (snd entry)) (supportedInputs (snd entry)))
       FORMAT_MAPPINGS)
  = ["jpeg"]
  /\ includes ".jpeg" (supportedInputs jpeg) = true.
Proof. split; vm_compute; reflexivity. Qed.

(** C6. The saved size is the exact difference, and a file that shrank
    from 204800 to 122880 bytes reports 81920 and [-40.0]. A file that
    grew from 100 to 125 bytes reports [+25], not [+25.0]: the text of
    [toFixed(1)] goes through [Math.abs], which turns it back into a
    number, and the number is printed without the trailing zero. *)
Lemma grown_file_percent_loses_its_decimal :
  (forall f a b, option_map savedSize (stats (generateResult f a b)) = Some (a - b)%Z)
  /\ option_map savingPercent (stats (generateResult "in/a.png" 204800 122880)) = Some "-40.0"
  /\ option_map savingPercent (stats (generateResult "grow/a.png" 100 125)) = Some "+25"
  /\ Num.toFixed 1 (Num.scale (Num.div (100 - 125) 100) 100) = "-25.0".
Proof. split; [reflexivity|]. repeat split; vm_compute; reflexivity. Qed.

(** C8. [processFolder] emits [processing:start] once, but every
    [processFile] it calls emits it again, and the handler overwrites
    [startTime] each time. After a batch of three files that began at
    clock reading 1000 and ended at 1060, [startTime] is 1040, the moment
    the last file started, and [processingTime] is 0.02 instead of 0.06. *)
Lemma start_time_is_that_of_the_last_file :
  let s' := Demo.after (processFolder Demo.env Demo.batch (Some Demo.silent)) Demo.fresh in
  clock Demo.env (st_ticks Demo.fresh) = 1000%Z
  /\ startTime (st_stats s') = Some 1040%Z
  /\ endTime (st_stats s') = Some 1060%Z
  /\ option_map Qred (processingTime (getStats s')) = Some (1 # 50).
Proof. cbv zeta. repeat split; vm_compute; reflexivity. Qed.

(** ** Every single call, in full *)

Ltac evs_ok :=
  repeat first [apply List.Forall_nil
               | apply List.Forall_cons; [first [by left | by right]|]].

Section Cases.
Variable env : Env.

Lemma validateFile_fail_trace (f : string) (s : State) :
  st_files s !! f = None \/ access_denied env f = true ->
  exists e evs,
    validateFile env f s = (Throw e, logged evs s)
    /\ Forall (fun ev => ev = IoAccess f \/ ev = IoStat f) evs.
Proof.
  intros H. unfold validateFile.
  destruct (exists_path s f) eqn:Hex; [destruct (access_denied env f) eqn:Hd|].
  - destruct (fs_access_fail env f s (or_intror Hd)) as [e He].
    erewrite try_catch_throw by (erewrite bind_throw by exact He; reflexivity).
    cbn. eexists _, _. split; [reflexivity|]. evs_ok.
  - destruct H as [Hn | ?]; [|discriminate].
    destruct (fs_stat_not_file f (logged [IoAccess f] s) Hn) as [(l & _ & Hs) | [e He]].
    + erewrite try_catch_throw.
      2:{ erewrite bind_ok by (by apply fs_access_ok).
          erewrite bind_ok by exact Hs. reflexivity. }
      cbn. rewrite logged_logged. eexists _, _. split; [reflexivity|].
      evs_ok.
    + erewrite try_catch_throw.
      2:{ erewrite bind_ok by (by apply fs_access_ok).
          erewrite bind_throw by exact He. reflexivity. }
      cbn. rewrite logged_logged. eexists _, _. split; [reflexivity|].
      evs_ok.
  - destruct (fs_access_fail env f s (or_introl Hex)) as [e He].
    erewrite try_catch_throw by (erewrite bind_throw by exact He; reflexivity).
    cbn. eexists _, _. split; [reflexivity|]. evs_ok.
Qed.

Lemma processImage_invalid_trace (f out : string) (o : Obj) (s : State) :
  st_files s !! f = None \/ access_denied env f = true ->
  exists e evs,
    processImage env f out o s
    = (Throw (enhanceError e f), with_stats incr_failed (logged evs s))
    /\ Forall (fun ev => ev = IoAccess f \/ ev = IoStat f) evs.
Proof.
  intros H. destruct (validateFile_fail_trace f s H) as (e & evs & He & Hevs).
  unfold processImage.
  erewrite try_catch_throw by (erewrite bind_throw by exact He; reflexivity).
  cbn. eauto.
Qed.

Lemma processFile_rejected_msg (req : FileRequest) (s : State) :
  rejects req ->
  exists msg, processFile env req s
              = (Throw (new_Error msg), logged [IoConsoleError msg] (started env s)).
Proof.
  intros H.
  assert (V : exists msg, validateFormat (input req) (format req) (started env s)
                          = (Throw (new_Error msg), started env s)).
  { unfold validateFormat.
    destruct (lookup (Str.toLowerCase (format req))) as [cfg| |] eqn:E; [|by eexists..].
    rewrite (H cfg E). by eexists. }
  destruct V as [msg He]. exists msg. unfold processFile.
  erewrite bind_ok by apply emit_start.
  erewrite try_catch_throw by (erewrite bind_throw by exact He; reflexivity).
  erewrite bind_ok by apply emit_error. reflexivity.
Qed.

(** The shape of every run of [processFile]: where it stops, what it
    returns, and the state it leaves, field by field. *)
Lemma processFile_total (req : FileRequest) (s : State) :
  (exists msg,
      rejects req
      /\ processFile env req s
         = (Throw (new_Error msg), logged [IoConsoleError msg] (started env s)))
  \/ (exists cfg msg,
        accepts cfg req
        /\ mkdir_error env (Path.dirname (resolveOutput req cfg)) = Some msg
        /\ processFile env req s
           = (Throw (new_Error msg),
              logged [IoMkdir (Path.dirname (resolveOutput req cfg)); IoConsoleError msg]
                (started env s)))
  \/ (exists cfg s1,
        accepts cfg req
        /\ mkdir_error env (Path.dirname (resolveOutput req cfg)) = None
        /\ st_stats s1 = st_stats (started env s)
        /\ st_cache s1 = st_cache s /\ st_files s1 = st_files s
        /\ st_ticks s1 = S (st_ticks s)
        /\ st_trace s1 = st_trace s ++ [IoMkdir (Path.dirname (resolveOutput req cfg))]
        /\ is_Some (st_dirs s1 !! Path.dirname (resolveOutput req cfg))
        /\ (forall q, is_Some (st_dirs s !! q) -> is_Some (st_dirs s1 !! q))
        /\ processFile env req s
           = finish env (processImage env (input req) (resolveOutput req cfg)
                           (mergedOptions cfg (format req) (processingOptions req)) s1)).
Proof.
  destruct (accepts_or_rejects req) as [[cfg Ha] | Hr].
  2:{ left. destruct (processFile_rejected_msg req s Hr) as [msg E]. eauto. }
  right. destruct (mkdir_error env (Path.dirname (resolveOutput req cfg))) as [msg|] eqn:Hm.
  { left. exists cfg, msg. split; [done|]. split; [done|]. by apply processFile_mkdir_fail. }
  right. destruct (fs_mkdir_ok env _ (started env s) Hm)
    as (s1 & Hrun & Hst & Hca & Hfi & Hti & Htr & Hmade & Hdi & _).
  exists cfg, s1. split; [exact Ha|]. split; [exact Hm|].
  split; [exact Hst|]. split; [exact Hca|]. split; [exact Hfi|].
  split; [exact Hti|]. split; [exact Htr|]. split; [exact Hmade|]. split; [exact Hdi|].
  by apply processFile_image.
Qed.
End Cases.

(** ** What a single call does to each part of the state *)

Lemma processImage_total (env : Env) (f out : string) (o : Obj) (s : State) :
  (exists e evs,
      (st_files s !! f = None \/ access_denied env f = true)
      /\ processImage env f out o s
         = (Throw (enhanceError e f), with_stats incr_failed (logged evs s))
      /\ Forall (fun ev => ev = IoAccess f \/ ev = IoStat f) evs)
  \/ ((exists n, st_files s !! f = Some n /\ access_denied env f = false)
      /\ ImageRun env f out o s (processImage env f out o s)).
Proof.
  destruct (st_files s !! f) as [n|] eqn:Hn.
  2:{ destruct (processImage_invalid_trace env f out o s (or_introl Hn))
        as (e & evs & H1 & H2).
      left. exists e, evs. split; [by left|]. by split. }
  destruct (access_denied env f) eqn:Hd.
  { destruct (processImage_invalid_trace env f out o s (or_intror Hd))
      as (e & evs & H1 & H2).
    left. exists e, evs. split; [by right|]. by split. }
  right. split; [by exists n|]. apply processImage_run.
Qed.

(** Splits a run of [processFile] into the eight ways it can go, with the
    final state of each written out. *)
Ltac file_cases env req s :=
  let E := fresh "E" in
  destruct (processFile_total env req s)
    as [(?msg & ?Hr & E)
       | [(?cfg & ?msg & ?Ha & ?Hmk & E)
         | (?cfg & ?s1 & ?Ha & ?Hmk & ?Hst & ?Hca & ?Hfi & ?Hti & ?Htr & ?Hmade & ?Hdi & E)]];
  [ rewrite E; clear E
  | rewrite E; clear E
  | let Ei := fresh "Ei" in
    let Hrun := fresh "Hrun" in
    let r := fresh "r" in
    let Er := fresh "Er" in
    match type of E with
    | _ = finish _ (processImage _ ?f ?out ?o ?st) =>
        destruct (processImage_total env f out o st)
          as [(?e & ?evs & ?Hbad & Ei & ?Hevs) | [(?n & ?Hn & ?Hd) Hrun]];
        [ rewrite Ei in E; rewrite E; clear E Ei
        | remember (processImage env f out o st) as r eqn:Er;
          destruct Hrun as [? ? [? | ?] | | | | | ];
          [ congruence | congruence | rewrite E; clear E Er .. ] ]
    end ];
  unfold finish.

Lemma has_without (k : string) (o : Obj) : has k (without k o) = false.
Proof.
  unfold has, without. induction o as [|[k' v] o IH]; [done|]. cbn [List.filter fst].
  destruct (String.eqb k k') eqn:E; cbn [negb]; [exact IH|].
  cbn [get]. by rewrite E.
Qed.

Lemma no_encode_in_checks (f : string) (evs : list IOEvent) :
  Forall (fun ev => ev = IoAccess f \/ ev = IoStat f) evs ->
  List.filter is_encode evs = [].
Proof.
  induction 1 as [|ev evs [-> | ->] _ IH]; [done|exact IH..].
Qed.

Ltac trace_ok cfg :=
  repeat first
    [ apply List.Forall_nil
    | apply List.Forall_cons;
      [ cbn;
        first [ done | by exists cfg | by left | (right; by exists cfg)
              | (split; [done|]; split; [by exists cfg|]; split; [done|]; apply has_without) ]
      | ] ].

Lemma assoc_In {A} (k : string) (l : list (string * A)) (a : A) :
  assoc k l = Some a -> In a (map snd l).
Proof.
  induction l as [|[k' a'] l IH]; [done|]. cbn [assoc map snd].
  destruct (String.eqb k k'); [intros [= ->]; by left|]. intros H. right. by apply IH.
Qed.

Lemma registered_In (name : string) (cfg : FormatConfig) :
  lookup name = Own cfg -> In cfg (map snd FORMAT_MAPPINGS).
Proof.
  unfold lookup. destruct (assoc name FORMAT_MAPPINGS) as [c|] eqn:E.
  - intros [= <-]. by apply (assoc_In name).
  - by destruct (_ || _).
Qed.

Lemma defaults_no_remove (name fmt : string) (cfg : FormatConfig) :
  lookup name = Own cfg -> has "remove" (format_defaults cfg fmt) = false.
Proof.
  intros H. apply registered_In in H. unfold format_defaults.
  rewrite !ObjFacts.has_define. cbn [String.eqb Ascii.eqb Bool.eqb orb].
  cbn in H. repeat (destruct H as [<- | H]; [vm_compute; reflexivity|]). done.
Qed.

Lemma spread_keeps_falsy (k : string) (src : Obj) :
  forall base,
    truthy (prop k base) = false ->
    (forall v, In (k, v) src -> truthy v = false) ->
    truthy (prop k (spread base src)) = false.
Proof.
  unfold spread. induction src as [|[k' v'] src IH]; intros base Hb Hs; [done|].
  cbn [fold_left fst snd]. apply IH.
  - unfold prop. rewrite ObjFacts.get_define.
    destruct (String.eqb_spec k k') as [-> | Hne]; [|exact Hb].
    apply Hs. by left.
  - intros v Hv. apply Hs. by right.
Qed.

Lemma merged_no_remove (req : FileRequest) (cfg : FormatConfig) :
  accepts cfg req ->
  (forall v, In ("remove", v) (processingOptions req) -> truthy v = false) ->
  truthy (prop "remove" (mergedOptions cfg (format req) (processingOptions req))) = false.
Proof.
  intros [Hl _] Hv. unfold mergedOptions. apply spread_keeps_falsy; [|exact Hv].
  pose proof (defaults_no_remove _ (format req) _ Hl) as Hd.
  unfold prop. unfold has in Hd. by destruct (get _ _).
Qed.

Section Single.
Variable env : Env.

Lemma call_stats (req : FileRequest) (s : State) :
  let t := st_stats s in
  let t' := st_stats (processFile env req s).2 in
  match (processFile env req s).1 with
  | Ok res =>
      failed t' = failed t
      /\ ((processed t' = S (processed t) /\ skipped t' = skipped t
           /\ totalSaved t' = (totalSaved t + saved_of res)%Z)
          \/ (processed t' = processed t /\ skipped t' = S (skipped t)
              /\ totalSaved t' = totalSaved t))
  | Throw _ =>
      processed t' = processed t /\ skipped t' = skipped t
      /\ totalSaved t' = totalSaved t
      /\ (failed t' = failed t \/ failed t' = S (failed t))
  end.
Proof.
  file_cases env req s; cbn; rewrite ?Hst; cbn; auto 10.
Qed.

Lemma call_times (req : FileRequest) (s : State) :
  let s' := (processFile env req s).2 in
  startTime (st_stats s') = Some (clock env (st_ticks s))
  /\ match (processFile env req s).1 with
     | Ok _ =>
         endTime (st_stats s') = Some (clock env (S (st_ticks s)))
         /\ st_ticks s' = S (S (st_ticks s))
     | Throw _ =>
         endTime (st_stats s') = endTime (st_stats s) /\ st_ticks s' = S (st_ticks s)
     end.
Proof.
  file_cases env req s; cbn; rewrite ?Hst, ?Hti; cbn; auto.
Qed.

Lemma call_files (req : FileRequest) (s : State) (p : string) :
  p <> input req ->
  (forall cfg, accepts cfg req -> p <> resolveOutput req cfg) ->
  st_files (processFile env req s).2 !! p = st_files s !! p.
Proof.
  intros Hi Ho.
  file_cases env req s; cbn; rewrite ?Hfi; try done;
    pose proof (Ho _ Ha) as Hne.
  - by rewrite lookup_insert_ne.
  - rewrite lookup_delete_ne by done. by rewrite lookup_insert_ne.
  - by rewrite lookup_insert_ne.
Qed.

Lemma call_cache (req : FileRequest) (s : State) :
  let s' := (processFile env req s).2 in
  cache_extends s s'
  /\ (cache_ok s -> cache_ok s')
  /\ match (processFile env req s).1 with
     | Ok res =>
         success res = true \/ st_cache s' = st_cache s
     | Throw _ => st_cache s' = st_cache s
     end.
Proof.
  unfold cache_extends, cache_ok.
  file_cases env req s; cbn; rewrite ?Hca; try (split; [|split]; by auto).
  - split; [|split]; [| |by left].
    + intros k r Hk. rewrite lookup_insert_ne; [done|]. intros <-. congruence.
    + intros Hc k r. destruct (decide (cacheKey (input req)
          (mergedOptions cfg (format req) (processingOptions req)) = k)) as [<-|Hne].
      * rewrite lookup_insert_eq. by intros [= <-].
      * rewrite lookup_insert_ne by done. apply Hc.
  - split; [|split]; [| |by left].
    + intros k r Hk. rewrite lookup_insert_ne; [done|]. intros <-. congruence.
    + intros Hc k r. destruct (decide (cacheKey (input req)
          (mergedOptions cfg (format req) (processingOptions req)) = k)) as [<-|Hne].
      * rewrite lookup_insert_eq. by intros [= <-].
      * rewrite lookup_insert_ne by done. apply Hc.
Qed.

Lemma call_trace (req : FileRequest) (s : State) :
  exists ext,
    st_trace (processFile env req s).2 = st_trace s ++ ext
    /\ Forall (call_event req) ext
    /\ length (List.filter is_encode ext) <= 1.
Proof.
  file_cases env req s; cbn; rewrite ?Htr; rewrite <- ?app_assoc;
    (eexists; split; [reflexivity|]).
  - split; [by repeat constructor|cbn; lia].
  - split; [|cbn; lia]. trace_ok cfg.
  - split.
    + constructor; [by exists cfg|]. apply Forall_app. split; [|by repeat constructor].
      eapply Forall_impl; [exact Hevs|]. intros ev [-> | ->]; cbn; auto.
    + cbn [app List.filter is_encode]. rewrite List.filter_app, (no_encode_in_checks _ _ Hevs).
      cbn. lia.
  - split; [|cbn; lia]. trace_ok cfg.
  - split; [|cbn; lia]. trace_ok cfg.
  - split; [|cbn; lia]. trace_ok cfg.
  - split; [|cbn; lia]. trace_ok cfg.
  - split; [|cbn; lia]. trace_ok cfg.
Qed.

Lemma call_keeps_input (req : FileRequest) (s : State) :
  (forall cfg, accepts cfg req -> input req <> resolveOutput req cfg) ->
  (forall v, In ("remove", v) (processingOptions req) -> truthy v = false) ->
  st_files (processFile env req s).2 !! input req = st_files s !! input req.
Proof.
  intros Ho Hv.
  file_cases env req s; cbn; rewrite ?Hfi; try done;
    pose proof (Ho _ Ha) as Hne; pose proof (merged_no_remove req _ Ha Hv) as Hm;
    try congruence.
  by rewrite lookup_insert_ne.
Qed.

Lemma call_result_ok (req : FileRequest) (s : State) :
  cache_ok s ->
  match (processFile env req s).1 with
  | Ok res => success res = true
  | Throw _ => True
  end.
Proof.
  intros Hc. file_cases env req s; cbn; try done.
  rewrite Hca in *. by eapply Hc.
Qed.

Lemma returned_call_facts (req : FileRequest) (s s1 : State) (r : ProcessingResult) :
  processFile env req s = (Ok r, s1) ->
  exists cfg,
    accepts cfg req
    /\ access_denied env (input req) = false
    /\ st_cache s1 !! cacheKey (input req)
                        (mergedOptions cfg (format req) (processingOptions req)) = Some r.
Proof.
  file_cases env req s; cbn; intros Hret; try discriminate Hret;
    injection Hret as <- <-; exists cfg; (split; [done|]); (split; [done|]); cbn;
    first [done | apply lookup_insert_eq].
Qed.
End Single.



(** ** The loop of [processFolder], turn by turn *)

Section Turns.
Variable env : Env.
Variable req : FolderRequest.
Variable cfg : FormatConfig.
Variable cb : option Callback.
Variable total : nat.

Lemma folder_loop_cons (index : nat) (f : string) (rest : list string)
    (results : list ProcessingResult) (s : State) :
  folder_loop env req cfg cb total index (f :: rest) results s
  = folder_loop env req cfg cb total (S index) rest
      (results ++ (item_step env req cfg cb total index f s).1)
      (item_step env req cfg cb total index f s).2.
Proof.
  cbn [folder_loop]. unfold item_step, bind at 1, attempt at 1.
  destruct (processFile env (folder_item req cfg f) s) as [[res|e] s1]; [|done].
  destruct cb as [g|]; [|done].
  unfold bind at 1, attempt at 1, call_progress, bind, log, modify.
  cbn beta iota. destruct (g f (progress_of index total) res); cbn; [|done].
  by rewrite <- app_assoc.
Qed.

Lemma folder_loop_eq (files : list string) :
  forall (index : nat) (results : list ProcessingResult) (s : State),
    folder_loop env req cfg cb total index files results s
    = (Ok (results ++ (loop_run env req cfg cb total index files s).1),
       (loop_run env req cfg cb total index files s).2).
Proof.
  induction files as [|f rest IH]; intros index results s.
  { cbn. by rewrite app_nil_r. }
  rewrite folder_loop_cons, IH.
  change (loop_run env req cfg cb total index (f :: rest) s)
    with (let (added, mid) := item_step env req cfg cb total index f s in
          let (more, s') := loop_run env req cfg cb total (S index) rest mid in
          (added ++ more, s')).
  destruct (item_step env req cfg cb total index f s) as [added mid]. cbn [fst snd].
  destruct (loop_run env req cfg cb total (S index) rest mid) as [more s'].
  cbn [fst snd]. by rewrite app_assoc.
Qed.
End Turns.

Section Batch.
Variable env : Env.
Variable req : FolderRequest.
Variable cfg : FormatConfig.
Variable cb : option Callback.

Hypothesis registered : lookup (Str.toLowerCase (folder_format req)) = Own cfg.

Lemma fs_readdir_fail (p : string) (s : State) :
  st_dirs s !! p = None ->
  exists e, fs_readdir p s = (Throw e, logged [IoReaddir p] s).
Proof.
  intros H. unfold fs_readdir, bind, log, modify, gets. cbn beta iota.
  change (st_dirs (logged [IoReaddir p] s)) with (st_dirs s).
  change (st_files (logged [IoReaddir p] s)) with (st_files s).
  rewrite H. destruct (st_files s !! p); by eexists.
Qed.

(** The state in which the loop starts is the state [mkdir] leaves, with
    the listing of the folder in the trace. *)
Lemma batch_start_run (s : State) :
  mkdir_error env (dest req) = None ->
  fs_mkdir env (dest req) (started env s)
  = (Ok tt, snd (fs_mkdir env (dest req) (started env s))).
Proof.
  intros Hm. by destruct (fs_mkdir_ok env (dest req) (started env s) Hm) as (s1 & -> & _).
Qed.

(** The run of a batch over the listing [readdir] returns once the
    destination has been made. *)
Lemma processFolder_listed (names : list string) (s : State) :
  mkdir_error env (dest req) = None ->
  st_dirs (batch_start env req s) !! folder req = Some names ->
  processFolder env req cb s
  = (Ok (loop_run env req cfg cb (length (imageFiles_of cfg names)) 0
           (imageFiles_of cfg names) (batch_start env req s)).1,
     completed env
       (loop_run env req cfg cb (length (imageFiles_of cfg names)) 0
          (imageFiles_of cfg names) (batch_start env req s)).2).
Proof.
  intros Hm Hd.
  assert (Hrd : fs_readdir (folder req) (snd (fs_mkdir env (dest req) (started env s)))
                = (Ok names, batch_start env req s)).
  { apply fs_readdir_ok. exact Hd. }
  unfold processFolder. rewrite registered.
  erewrite bind_ok by apply emit_start.
  erewrite try_catch_ok; [reflexivity|].
  erewrite bind_ok by (by apply batch_start_run).
  erewrite bind_ok by exact Hrd. cbn zeta.
  erewrite bind_ok by apply folder_loop_eq.
  erewrite bind_ok by apply emit_complete. reflexivity.
Qed.

(** A folder that could be listed before the destination was made can be
    listed after it. *)
Lemma listed_before (names : list string) (s : State) :
  mkdir_error env (dest req) = None ->
  st_dirs s !! folder req = Some names ->
  is_Some (st_dirs (batch_start env req s) !! folder req).
Proof.
  intros Hm Hd. unfold batch_start.
  destruct (fs_mkdir_ok env (dest req) (started env s) Hm)
    as (s1 & -> & _ & _ & _ & _ & _ & _ & Hk & _).
  cbn. apply Hk. cbn. rewrite Hd. by eexists.
Qed.

(** The two ways the preparations of a batch can fail. *)
Lemma processFolder_mkdir_fail (msg : string) (s : State) :
  mkdir_error env (dest req) = Some msg ->
  processFolder env req cb s
  = (Throw (new_Error msg),
     logged [IoMkdir (dest req); IoConsoleError msg] (started env s)).
Proof.
  intros Hm. unfold processFolder. rewrite registered.
  erewrite bind_ok by apply emit_start.
  erewrite try_catch_throw.
  2:{ erewrite bind_throw by (by apply fs_mkdir_fail). reflexivity. }
  erewrite bind_ok by apply emit_error. cbn. by rewrite logged_logged.
Qed.

Lemma processFolder_readdir_fail (s : State) :
  mkdir_error env (dest req) = None ->
  st_dirs (batch_start env req s) !! folder req = None ->
  exists e,
    processFolder env req cb s
    = (Throw e, logged [IoConsoleError (err_message e)] (batch_start env req s)).
Proof.
  intros Hm Hd.
  destruct (fs_readdir_fail (folder req) (snd (fs_mkdir env (dest req) (started env s))) Hd)
    as [e Hrd].
  exists e. unfold processFolder. rewrite registered.
  erewrite bind_ok by apply emit_start.
  erewrite try_catch_throw.
  2:{ erewrite bind_ok by (by apply batch_start_run).
      erewrite bind_throw by exact Hrd. reflexivity. }
  erewrite bind_ok by apply emit_error. reflexivity.
Qed.
End Batch.

Section Steps.
Variable env : Env.
Variable req : FolderRequest.
Variable cfg : FormatConfig.
Variable cb : option Callback.
Variable total : nat.

Lemma loop_run_cons (index : nat) (f : string) (rest : list string) (s : State) :
  loop_run env req cfg cb total index (f :: rest) s
  = ((item_step env req cfg cb total index f s).1 ++ (loop_run env req cfg cb total (S index) rest (item_step env req cfg cb total index f s).2).1,
     (loop_run env req cfg cb total (S index) rest (item_step env req cfg cb total index f s).2).2).
Proof.
  change (loop_run env req cfg cb total index (f :: rest) s)
    with (let (added, mid) := item_step env req cfg cb total index f s in
          let (more, s') := loop_run env req cfg cb total (S index) rest mid in (added ++ more, s')).
  destruct (item_step env req cfg cb total index f s) as [added mid]. cbn [fst snd].
  by destruct (loop_run env req cfg cb total (S index) rest mid).
Qed.

(** A relation between states that every turn keeps is kept by the loop. *)
Lemma loop_run_inv (R : State -> State -> Prop) (files : list string) :
  (forall s, R s s) ->
  (forall a b c, R a b -> R b c -> R a c) ->
  (forall index f s, f ∈ files -> R s (item_step env req cfg cb total index f s).2) ->
  forall index s, R s (loop_run env req cfg cb total index files s).2.
Proof.
  intros Hrefl Htrans. induction files as [|f rest IH]; intros Hstep index s.
  { apply Hrefl. }
  rewrite loop_run_cons. cbn [snd]. eapply Htrans.
  - apply Hstep. by left.
  - apply IH. intros i g s0 Hg. apply Hstep. by right.
Qed.

Lemma step_length (index : nat) (f : string) (s : State) :
  1 <= length (item_step env req cfg cb total index f s).1 <= 2
  /\ (quiet cb -> length (item_step env req cfg cb total index f s).1 = 1).
Proof.
  unfold item_step.
  destruct (processFile env (folder_item req cfg f) s) as [[res|e] s1]; cbn; [|lia].
  destruct cb as [g|]; cbn; [|lia].
  destruct (g f (progress_of index total) res) eqn:E; cbn; [|lia].
  split; [lia|]. intros Hq. by rewrite Hq in E.
Qed.

Lemma step_account (index : nat) (f : string) (s : State) :
  cache_ok s ->
  cache_ok (item_step env req cfg cb total index f s).2
  /\ delivered (item_step env req cfg cb total index f s).2 = delivered s + count_successes (item_step env req cfg cb total index f s).1
  /\ failed (st_stats s) <= failed (st_stats (item_step env req cfg cb total index f s).2)
     <= failed (st_stats s) + count_failures (item_step env req cfg cb total index f s).1.
Proof.
  intros Hc. unfold item_step, delivered, count_successes, count_failures.
  pose proof (call_stats env (folder_item req cfg f) s) as Hs.
  pose proof (call_cache env (folder_item req cfg f) s) as (_ & Hk & _).
  pose proof (call_result_ok env (folder_item req cfg f) s Hc) as Hr.
  specialize (Hk Hc).
  destruct (processFile env (folder_item req cfg f) s) as [[res|e] s1];
    cbn [fst snd] in *.
  - assert (Hd : processed (st_stats s1) + skipped (st_stats s1)
                 = processed (st_stats s) + skipped (st_stats s) + 1) by lia.
    destruct Hs as [Hf _].
    destruct cb as [g|]; cbn [fst snd]; [destruct (g f _ res)|];
      cbn; rewrite Hr; cbn; (split; [exact Hk|]); lia.
  - cbn. split; [exact Hk|]. lia.
Qed.


Lemma step_files (index : nat) (f p : string) (s : State) :
  lookup (Str.toLowerCase (folder_format req)) = Own cfg ->
  p <> resolveOutput (folder_item req cfg f) cfg ->
  p <> input (folder_item req cfg f)
  \/ (forall v, In ("remove", v) (folder_processingOptions req) -> truthy v = false) ->
  st_files (item_step env req cfg cb total index f s).2 !! p = st_files s !! p.
Proof.
  intros Hl Ho Hi.
  assert (Hout : forall cfg', accepts cfg' (folder_item req cfg f) ->
                   p <> resolveOutput (folder_item req cfg f) cfg').
  { intros cfg' [Hl' _]. cbn [format folder_item] in Hl'. rewrite Hl in Hl'.
    by injection Hl' as <-. }
  assert (Hcall : st_files (processFile env (folder_item req cfg f) s).2 !! p
                  = st_files s !! p).
  { destruct (decide (p = input (folder_item req cfg f))) as [-> | Hne].
    - destruct Hi as [Hi | Hi]; [done|]. by apply call_keeps_input.
    - by apply call_files. }
  unfold item_step.
  destruct (processFile env (folder_item req cfg f) s) as [[res|e] s1];
    cbn [fst snd] in *; [|done].
  by destruct cb.
Qed.

Lemma loop_length (files : list string) :
  forall index s,
    length files <= length (loop_run env req cfg cb total index files s).1
      <= 2 * length files
    /\ (quiet cb -> length (loop_run env req cfg cb total index files s).1 = length files).
Proof.
  induction files as [|f rest IH]; intros index s; [cbn; lia|].
  rewrite loop_run_cons. cbn [fst length]. rewrite length_app.
  destruct (step_length index f s) as [H1 H2].
  destruct (IH (S index) (item_step env req cfg cb total index f s).2) as [H3 H4].
  split; [lia|]. intros Hq. rewrite (H2 Hq), (H4 Hq). done.
Qed.

Lemma loop_account (files : list string) :
  forall index s,
    cache_ok s ->
    cache_ok (loop_run env req cfg cb total index files s).2
    /\ delivered (loop_run env req cfg cb total index files s).2
       = delivered s + count_successes (loop_run env req cfg cb total index files s).1
    /\ failed (st_stats s)
       <= failed (st_stats (loop_run env req cfg cb total index files s).2)
       <= failed (st_stats s)
          + count_failures (loop_run env req cfg cb total index files s).1.
Proof.
  induction files as [|f rest IH]; intros index s Hc.
  { cbn. unfold count_successes, count_failures. cbn. split; [done|]. lia. }
  rewrite loop_run_cons. cbn [fst snd].
  destruct (step_account index f s Hc) as (Hc1 & Hd1 & Hf1).
  destruct (IH (S index) _ Hc1) as (Hc2 & Hd2 & Hf2).
  unfold count_successes, count_failures in *.
  rewrite !List.filter_app, !length_app. split; [exact Hc2|]. lia.
Qed.


Lemma loop_files (files : list string) (p : string) :
  lookup (Str.toLowerCase (folder_format req)) = Own cfg ->
  (forall f, f ∈ files -> p <> resolveOutput (folder_item req cfg f) cfg) ->
  (forall f, f ∈ files -> p <> input (folder_item req cfg f))
  \/ (forall v, In ("remove", v) (folder_processingOptions req) -> truthy v = false) ->
  forall index s,
    st_files (loop_run env req cfg cb total index files s).2 !! p = st_files s !! p.
Proof.
  intros Hl Ho Hi.
  apply (loop_run_inv (fun a b => st_files b !! p = st_files a !! p)); [done| |].
  - intros a b c H1 H2. by rewrite H2.
  - intros index f s Hf. apply step_files; [done|by apply Ho|].
    destruct Hi as [Hi | Hi]; [left; by apply Hi|by right].
Qed.
End Steps.

(** ** The paths of a batch *)

Lemma normalize_not_nil (p : list ascii) : Path.normalize_l p <> [].
Proof.
  destruct p as [|c p]; [done|]. unfold Path.normalize_l.
  destruct (Path.render _) as [|x body]; [by repeat destruct (Path.starts_with_slash _)|].
  destruct (Path.starts_with_slash (c :: p)); done.
Qed.

Lemma join_not_empty (a b : string) : Str.is_empty (Path.join a b) = false.
Proof.
  unfold Path.join, Path.lift2, Path.join_l.
  assert (H : forall l, l <> [] -> Str.is_empty (string_of_list_ascii l) = false).
  { intros [|c l] Hl; done. }
  apply H. destruct (list_ascii_of_string a), (list_ascii_of_string b);
    first [done | apply normalize_not_nil].
Qed.

Lemma item_output (req : FolderRequest) (cfg : FormatConfig) (f : string) :
  resolveOutput (folder_item req cfg f) cfg
  = Path.join (dest req) (Path.basename_ext f (Path.extname f) +:+ extension cfg).
Proof. unfold resolveOutput. cbn [output folder_item]. by rewrite join_not_empty. Qed.

(** ** The state in which the loop starts *)

Lemma batch_start_facts (env : Env) (req : FolderRequest) (s : State) :
  st_cache (batch_start env req s) = st_cache s
  /\ st_files (batch_start env req s) = st_files s
  /\ delivered (batch_start env req s) = delivered s
  /\ failed (st_stats (batch_start env req s)) = failed (st_stats s)
  /\ counters (batch_start env req s) = counters s
  /\ st_trace (batch_start env req s)
     = st_trace s ++ [IoMkdir (dest req); IoReaddir (folder req)].
Proof.
  unfold batch_start, delivered, counters, fs_mkdir, bind, log, modify, gets.
  cbn beta iota.
  destruct (mkdir_error env (dest req));
    [|destruct (st_dirs (logged [IoMkdir (dest req)] (started env s)) !! dest req)];
    cbn; by rewrite <- app_assoc.
Qed.

(** ** The names of derived outputs *)

Module OutputFacts.
Import Path PathFacts.

Lemma take_while_all {A} (p : A -> bool) (l : list A) :
  forallb p (Str.take_while p l) = true.
Proof.
  induction l as [|x l IH]; [done|]. cbn [Str.take_while].
  destruct (p x) eqn:E; [|done]. cbn [forallb]. by rewrite E, IH.
Qed.

Lemma forallb_take {A} (p : A -> bool) (n : nat) (l : list A) :
  forallb p l = true -> forallb p (take n l) = true.
Proof.
  revert n. induction l as [|x l IH]; intros [|n] H; try done.
  cbn in *. apply andb_prop in H as [-> H]. by apply IH.
Qed.

Lemma basename_no_slash (p : list ascii) : forallb not_slash (basename_l p) = true.
Proof. unfold basename_l, seg_rev. rewrite forallb_rev. apply take_while_all. Qed.

Lemma strip_suffix_stem (ext base : list ascii) :
  base <> [] -> forallb not_slash base = true ->
  strip_suffix ext base <> [] /\ forallb not_slash (strip_suffix ext base) = true.
Proof.
  intros Hne Hns. unfold strip_suffix.
  destruct (_ && _ && _) eqn:E; [|done].
  apply andb_prop in E as [[_ Hn]%andb_prop _].
  apply negb_true_iff, Nat.eqb_neq in Hn. split; [|by apply forallb_take].
  destruct base as [|c base]; [done|].
  destruct (length (c :: base) - length ext) as [|n]; done.
Qed.

Lemma stem_ext (stem e : list ascii) :
  stem <> [] -> forallb not_slash stem = true ->
  e <> [] -> forallb not_dot e = true -> forallb not_slash e = true ->
  plain_l (stem ++ dot :: e) /\ extname_l (stem ++ dot :: e) = dot :: e.
Proof.
  intros Hs Hss He Hed Hes.
  assert (Hp : plain_l (stem ++ dot :: e)).
  { destruct stem as [|c stem]; [done|]. destruct e as [|x e]; [done|].
    repeat split.
    - done.
    - rewrite forallb_app, Hss. cbn [forallb] in *. by rewrite Hes.
    - intros H. apply (f_equal length) in H. rewrite length_app in H. cbn in H. lia.
    - intros H. apply (f_equal length) in H. rewrite length_app in H. cbn in H. lia. }
  split; [exact Hp|]. unfold extname_l.
  pose proof (seg_rev_prefix [] _ (or_introl eq_refl) Hp) as E. cbn [app] in E.
  rewrite E, rev_app_distr. cbn [rev]. rewrite <- app_assoc. cbn [app].
  assert (Hre : forallb not_dot (rev e) = true) by (by rewrite forallb_rev).
  rewrite (take_while_app not_dot (rev e) (dot :: rev stem) Hre)
    by (right; by eexists _, _).
  rewrite drop_app_length.
  destruct (rev stem) as [|y ys] eqn:Er.
  { exfalso. apply Hs. apply (f_equal (@rev ascii)) in Er.
    by rewrite rev_involutive in Er. }
  rewrite bool_decide_eq_false_2.
  - by rewrite rev_involutive.
  - intros H. apply (f_equal length) in H. rewrite length_app in H. cbn in H.
    destruct (rev e) as [|z zs] eqn:Ez; [|cbn in H; lia].
    apply He. apply (f_equal (@rev ascii)) in Ez. by rewrite rev_involutive in Ez.
Qed.

Lemma registered_extension (name : string) (cfg : FormatConfig) :
  lookup name = Own cfg ->
  exists e, list_ascii_of_string (extension cfg) = dot :: e
            /\ e <> [] /\ forallb not_dot e = true /\ forallb not_slash e = true.
Proof.
  intros H. apply registered_In in H. cbn in H.
  repeat (destruct H as [<- | H]; [eexists; split; [reflexivity|]; by repeat split|]).
  done.
Qed.

(** [extname(join(dir, basename(p, extname(p)) + extension))] is the
    extension of a registered format, for every path [p] with a name. *)
Lemma derived_output_extension (dir p name : string) (cfg : FormatConfig) :
  lookup name = Own cfg ->
  basename_l (list_ascii_of_string p) <> [] ->
  extname (join dir (basename_ext p (extname p) +:+ extension cfg)) = extension cfg.
Proof.
  intros Hl Hb. destruct (registered_extension name cfg Hl) as (e & Ee & He & Hed & Hes).
  unfold extname, join, basename_ext, lift1, lift2.
  rewrite !chars_of_list, chars_app, !chars_of_list, Ee.
  destruct (strip_suffix_stem (extname_l (list_ascii_of_string p))
              (basename_l (list_ascii_of_string p)) Hb (basename_no_slash _))
    as [Hs Hss].
  fold (basename_ext_l (list_ascii_of_string p) (extname_l (list_ascii_of_string p)))
    in Hs, Hss.
  destruct (stem_ext _ e Hs Hss He Hed Hes) as [Hp Hx].
  rewrite join_plain by done.
  rewrite extname_prefix by (done || apply join_prefix_dir).
  rewrite Hx, <- Ee. apply string_of_list_ascii_of_string.
Qed.

Lemma plain_basename (f : string) :
  plain_name f = true -> basename_l (list_ascii_of_string f) <> [].
Proof.
  intros Hf%plain_chars. unfold basename_l.
  pose proof (seg_rev_prefix [] _ (or_introl eq_refl) Hf) as E. cbn [app] in E.
  rewrite E, rev_involutive. by destruct Hf.
Qed.
End OutputFacts.

(** ** What a batch asks of the encoder *)

Section Requests.
Variable env : Env.
Variable req : FolderRequest.
Variable cfg : FormatConfig.
Variable cb : option Callback.
Variable total : nat.
Variable all : list string.

Hypothesis registered : lookup (Str.toLowerCase (folder_format req)) = Own cfg.

Lemma item_event (f : string) (ev : IOEvent) :
  In f all -> Path.plain_name f = true ->
  call_event (folder_item req cfg f) ev -> batch_event req cfg all ev.
Proof.
  intros Hin Hp.
  destruct ev as [p|p|p|p|p|i fmt o out|msg|file q r];
    cbn [call_event batch_event]; try done.
  - intros ->. by exists f.
  - intros (-> & (cfg' & [Hl _] & ->) & -> & Ho).
    cbn [format folder_item] in Hl. rewrite registered in Hl. injection Hl as <-.
    rewrite item_output.
    rewrite (OutputFacts.derived_output_extension _ _ _ _ registered)
      by (by apply OutputFacts.plain_basename).
    split; [done|]. split; [done|]. by exists f.
Qed.

Lemma step_requests (index : nat) (f : string) (s : State) :
  In f all -> Path.plain_name f = true ->
  exists ext,
    st_trace (item_step env req cfg cb total index f s).2 = st_trace s ++ ext
    /\ Forall (batch_event req cfg all) ext
    /\ length (List.filter is_encode ext) <= 1.
Proof.
  intros Hin Hp. unfold item_step.
  destruct (call_trace env (folder_item req cfg f) s) as (ext & Ht & Hev & Hn).
  assert (Hev' : Forall (batch_event req cfg all) ext).
  { eapply Forall_impl; [exact Hev|]. intros ev. by apply item_event. }
  destruct (processFile env (folder_item req cfg f) s) as [[res|e] s1];
    cbn [fst snd] in *; [|by exists ext].
  destruct cb as [g|]; [|by exists ext].
  exists (ext ++ [IoProgress f (progress_of index total) res]). cbn.
  rewrite Ht, <- app_assoc. split; [done|]. split.
  - apply Forall_app. split; [done|]. by repeat constructor.
  - rewrite List.filter_app, length_app. cbn. lia.
Qed.

Lemma loop_requests (files : list string) :
  (forall f, In f files -> In f all /\ Path.plain_name f = true) ->
  forall index s,
    exists ext,
      st_trace (loop_run env req cfg cb total index files s).2 = st_trace s ++ ext
      /\ Forall (batch_event req cfg all) ext
      /\ length (List.filter is_encode ext) <= length files.
Proof.
  induction files as [|f rest IH]; intros Hall index s.
  { exists []. cbn. rewrite app_nil_r. repeat split; [constructor|lia]. }
  rewrite loop_run_cons. cbn [snd].
  destruct (Hall f (or_introl eq_refl)) as [Hin Hp].
  destruct (step_requests index f s Hin Hp) as (ext1 & Ht1 & He1 & Hn1).
  destruct (IH (fun g Hg => Hall g (or_intror Hg)) (S index)
              (item_step env req cfg cb total index f s).2)
    as (ext2 & Ht2 & He2 & Hn2).
  exists (ext1 ++ ext2). rewrite Ht2, Ht1, <- app_assoc. split; [done|]. split.
  - by apply Forall_app.
  - rewrite List.filter_app, length_app. cbn [length]. lia.
Qed.
End Requests.

(** ** Command-line defaults *)

Lemma key_of_prefix (s : string) : Cli.startsWith (Cli.key_of s) s = true.
Proof.
  unfold Cli.startsWith. induction s as [|c s IH]; [done|]. cbn [Cli.key_of].
  destruct (Ascii.eqb c "="); [done|]. cbn [String.prefix].
  destruct (ascii_dec c c); [exact IH|done].
Qed.

Lemma filter_none {A} (p : A -> bool) (l : list A) :
  (forall x, In x l -> p x = false) -> List.filter p l = [].
Proof.
  induction l as [|x l IH]; intros H; [done|]. cbn [List.filter].
  rewrite (H x) by (by left). apply IH. intros y Hy. apply H. by right.
Qed.

Lemma filter_all {A} (p : A -> bool) (l : list A) :
  (forall x, In x l -> p x = true) -> List.filter p l = l.
Proof.
  induction l as [|x l IH]; intros H; [done|]. cbn [List.filter].
  rewrite (H x) by (by left). f_equal. apply IH. intros y Hy. apply H. by right.
Qed.

(** X12. Merging the defaults twice changes nothing: once
    [filterDefaultArgs] has put the defaults that were kept in front of the
    user's arguments, every default is matched by an argument of the
    list, so a second pass adds none. With no user argument every default
    is kept. *)
Theorem filterDefaultArgs_settles (defaultArgs allargs : list string) :
  Cli.filterDefaultArgs defaultArgs (Cli.filterDefaultArgs defaultArgs allargs)
  = Cli.filterDefaultArgs defaultArgs allargs
  /\ Cli.filterDefaultArgs defaultArgs [] = defaultArgs.
Proof.
  split.
  - unfold Cli.filterDefaultArgs at 1.
    rewrite filter_none; [done|]. intros x Hx. apply negb_false_iff.
    unfold Cli.overridden, Cli.filterDefaultArgs. rewrite existsb_app.
    destruct (existsb (Cli.startsWith (Cli.key_of x)) allargs) eqn:E;
      [apply orb_true_r|]. rewrite orb_false_r.
    apply existsb_exists. exists x. split; [|apply key_of_prefix].
    apply filter_In. split; [exact Hx|]. unfold Cli.overridden. by rewrite E.
  - unfold Cli.filterDefaultArgs. rewrite app_nil_r. by apply filter_all.
Qed.

(** X13. A user argument overrides the defaults for its key: when the
    user's arguments contain [arg], the entries of the merged list whose
    key (the text before the first [=]) is the key of [arg] are exactly
    the user's entries for that key, in the user's order; no default for
    it is left. *)
Theorem user_argument_overrides_defaults
    (defaultArgs allargs : list string) (arg : string) :
  In arg allargs ->
  List.filter (fun x => String.eqb (Cli.key_of x) (Cli.key_of arg))
    (Cli.filterDefaultArgs defaultArgs allargs)
  = List.filter (fun x => String.eqb (Cli.key_of x) (Cli.key_of arg)) allargs.
Proof.
  intros Harg. unfold Cli.filterDefaultArgs. rewrite List.filter_app.
  rewrite filter_none; [done|]. intros x Hx.
  apply filter_In in Hx as [_ Hx]. apply negb_true_iff in Hx.
  destruct (String.eqb_spec (Cli.key_of x) (Cli.key_of arg)) as [E|]; [|done].
  exfalso. apply not_true_iff_false in Hx. apply Hx.
  unfold Cli.overridden. apply existsb_exists. exists arg. split; [exact Harg|].
  rewrite E. apply key_of_prefix.
Qed.

Lemma user_argument_overrides_defaults_witness :
  List.filter (fun x => String.eqb (Cli.key_of x) (Cli.key_of "--quality=70"))
    (Cli.filterDefaultArgs ["--quality=80"; "--format=jpeg"]
       ["--file=a.png"; "--quality=70"])
  = List.filter (fun x => String.eqb (Cli.key_of x) (Cli.key_of "--quality=70"))
      ["--file=a.png"; "--quality=70"].
Proof.
  apply (user_argument_overrides_defaults ["--quality=80"; "--format=jpeg"]
           ["--file=a.png"; "--quality=70"] "--quality=70").
  right. by left.
Defined.

(** ** Further properties of a single call *)

(** X1. Every call of [processFile] is counted at most once, and in one
    counter only. A call that returns leaves [failed] alone and adds one
    either to [processed], together with the saved bytes of the result it
    returns to [totalSaved], or to [skipped], with [totalSaved] unchanged.
    A call that throws leaves [processed], [skipped] and [totalSaved]
    alone and adds at most one to [failed]. *)
Theorem every_call_is_counted_once (env : Env) (req : FileRequest) (s : State) :
  let t := st_stats s in
  let t' := st_stats (processFile env req s).2 in
  match (processFile env req s).1 with
  | Ok res =>
      failed t' = failed t
      /\ ((processed t' = S (processed t) /\ skipped t' = skipped t
           /\ totalSaved t' = (totalSaved t + saved_of res)%Z)
          \/ (processed t' = processed t /\ skipped t' = S (skipped t)
              /\ totalSaved t' = totalSaved t))
  | Throw _ =>
      processed t' = processed t /\ skipped t' = skipped t
      /\ totalSaved t' = totalSaved t
      /\ (failed t' = failed t \/ failed t' = S (failed t))
  end.
Proof.
  intros t t'. subst t t'.
  file_cases env req s; cbn; rewrite ?Hst; cbn; auto 10.
Qed.

(** X2. [processFile] reads the clock once when it starts and once more
    when it returns. After a call that returns, [getStats] reports as
    [processingTime] the difference of these two readings in seconds
    (nothing when the second reading is 0). A call that throws takes a new
    start time and leaves the end time of the call before it, so
    [getStats] then subtracts the new start from the old end. *)
Theorem processing_time_of_a_call (env : Env) (req : FileRequest) (s : State) :
  let s' := (processFile env req s).2 in
  let t0 := clock env (st_ticks s) in
  let t1 := clock env (S (st_ticks s)) in
  startTime (st_stats s') = Some t0
  /\ match (processFile env req s).1 with
     | Ok _ =>
         endTime (st_stats s') = Some t1
         /\ processingTime (getStats s')
            = if (t1 =? 0)%Z then None else Some (inject_Z (t1 - t0) / 1000)%Q
     | Throw _ =>
         endTime (st_stats s') = endTime (st_stats s)
         /\ processingTime (getStats s')
            = match endTime (st_stats s) with
              | Some e => if (e =? 0)%Z then None else Some (inject_Z (e - t0) / 1000)%Q
              | None => None
              end
     end.
Proof.
  intros s' t0 t1. pose proof (call_times env req s) as [Hs He]. fold s' in Hs, He.
  split; [exact Hs|]. unfold getStats. rewrite Hs.
  destruct ((processFile env req s).1) as [res|e]; destruct He as [He _];
    rewrite He; by split.
Qed.

(** X3. A call of [processFile] changes no file but its own two: every
    path other than the output path keeps its content, the input path
    included unless the caller's options carry a truthy [remove]. *)
Theorem call_touches_only_its_files
    (env : Env) (req : FileRequest) (s : State) (p : string) :
  (forall cfg, accepts cfg req -> p <> resolveOutput req cfg) ->
  p <> input req
  \/ (forall v, In ("remove", v) (processingOptions req) -> truthy v = false) ->
  st_files (processFile env req s).2 !! p = st_files s !! p.
Proof.
  intros Ho Hi. destruct (decide (p = input req)) as [-> | Hne].
  - destruct Hi as [Hi | Hi]; [done|]. by apply call_keeps_input.
  - by apply call_files.
Qed.

Lemma call_touches_only_its_files_witness :
  st_files (processFile Demo.env (Demo.single false "in/a.png") Demo.fresh).2 !! "in/a.png"
  = st_files Demo.fresh !! "in/a.png".
Proof.
  apply (call_touches_only_its_files Demo.env (Demo.single false "in/a.png") Demo.fresh).
  - intros cfg _. vm_compute. discriminate.
  - right. intros v [H | [H | []]]; [discriminate H|]. injection H as <-. reflexivity.
Defined.

(** X4. The cache only grows, and only on success. A call of
    [processFile] keeps every entry the cache had; when it throws, the
    cache is what it was; when it returns, the cache holds the returned
    result under the key of the call. *)
Theorem cache_only_grows (env : Env) (req : FileRequest) (s : State) :
  let s' := (processFile env req s).2 in
  cache_extends s s'
  /\ match (processFile env req s).1 with
     | Ok res =>
         exists cfg,
           accepts cfg req
           /\ st_cache s'
                !! cacheKey (input req)
                     (mergedOptions cfg (format req) (processingOptions req))
              = Some res
     | Throw _ => st_cache s' = st_cache s
     end.
Proof.
  intros s'. split; [apply call_cache|]. subst s'.
  file_cases env req s; cbn; rewrite ?Hca; try done; exists cfg; (split; [done|]).
  - congruence.
  - apply lookup_insert_eq.
  - apply lookup_insert_eq.
Qed.

(** X5. What a call of [processFile] asks of the outside concerns its own
    paths only: it checks, measures, encodes and removes its input,
    writes and measures its output, makes the directory of the output and
    writes errors to the console; it lists no directory and reports no
    progress. It calls the encoder at most once, and then for the format
    named by the extension of the output path, with options that have no
    [format] property. *)
Theorem call_io_is_confined (env : Env) (req : FileRequest) (s : State) :
  exists ext,
    st_trace (processFile env req s).2 = st_trace s ++ ext
    /\ Forall (call_event req) ext
    /\ length (List.filter is_encode ext) <= 1.
Proof. apply call_trace. Qed.

(** X6. When [processFile] returns. A call returns a result exactly when
    the format is registered and accepts the extension of the input, the
    directory of the output can be made, the input is a readable regular
    file, and either the cache holds an entry under the key of the call or
    the encoder succeeds and, if [remove] is set, the input can be
    removed. In every other case it throws. *)
Theorem call_returns_iff (env : Env) (req : FileRequest) (s : State) :
  (exists res, (processFile env req s).1 = Ok res)
  <-> exists cfg n,
        let out := resolveOutput req cfg in
        let merged := mergedOptions cfg (format req) (processingOptions req) in
        accepts cfg req
        /\ mkdir_error env (Path.dirname out) = None
        /\ st_files s !! input req = Some n
        /\ access_denied env (input req) = false
        /\ (is_Some (st_cache s !! cacheKey (input req) merged)
            \/ exists bytes,
                 encoder env (input req) (Str.slice1 (Path.extname out))
                   (without "format" merged) out = inl bytes
                 /\ (truthy (prop "remove" merged) = false
                     \/ unlink_error env (input req) = None)).
Proof.
  split.
  - file_cases env req s; cbn; intros [res Hres]; try discriminate Hres;
      exists cfg, n; cbn zeta; rewrite <- ?Hfi, <- ?Hca;
      (split; [done|]); (split; [done|]); (split; [done|]); (split; [done|]).
    + left. by eexists.
    + right. exists bytes. split; [done|]. by left.
    + right. exists bytes. split; [done|]. by right.
  - intros (cfg0 & n0 & Ha0 & Hm0 & Hn0 & Hd0 & Hrest). cbn zeta in *.
    file_cases env req s; cbn; try (by eexists);
      try (exfalso; by eapply accepts_not_rejects);
      pose proof (accepts_unique _ _ _ Ha0 Ha) as <-; rewrite ?Hfi, ?Hca in *;
      exfalso.
    + congruence.
    + destruct Hbad; congruence.
    + destruct Hrest as [[r Hr] | (bytes & He & _)]; congruence.
    + destruct Hrest as [[r Hr] | (bytes0 & He & [Ht | Hu])]; congruence.
Qed.

(** X7. After [clearCache] nothing is served from the cache: the next
    call of [processFile] leaves [skipped] alone, and if it returns it has
    called the encoder exactly once and is counted as processed. *)
Theorem clearCache_forces_encoding (env : Env) (req : FileRequest) (s : State) :
  let s0 := (clearCache s).2 in
  let s' := (processFile env req s0).2 in
  exists ext,
    st_trace s' = st_trace s ++ ext
    /\ skipped (st_stats s') = skipped (st_stats s)
    /\ match (processFile env req s0).1 with
       | Ok _ =>
           processed (st_stats s') = S (processed (st_stats s))
           /\ length (List.filter is_encode ext) = 1
       | Throw _ => processed (st_stats s') = processed (st_stats s)
       end.
Proof.
  intros s0 s'. subst s'.
  assert (Hc0 : st_cache s0 = ∅) by reflexivity.
  change (st_trace s) with (st_trace s0).
  change (st_stats s) with (st_stats s0).
  file_cases env req s0; cbn; rewrite ?Htr, ?Hst; rewrite <- ?app_assoc;
    try (eexists; split; [reflexivity|]; cbn; by repeat split).
  rewrite Hca, Hc0 in *. by rewrite lookup_empty in *.
Qed.

(** ** Further properties of a batch *)

(** X8. No file and no callback can abort a batch. [names] is what the
    folder lists once the destination has been made. Once the format is
    registered, the destination can be made and the folder can be listed,
    [processFolder] returns, whatever happens to the files: with N
    eligible entries it returns at least N and at most 2N entries (a
    callback that throws adds a second entry for its file), and exactly N
    when the callback is absent or never throws. *)
Theorem batch_outlives_every_failure
    (env : Env) (req : FolderRequest) (cb : option Callback) (s : State)
    (cfg : FormatConfig) (names : list string) :
  lookup (Str.toLowerCase (folder_format req)) = Own cfg ->
  mkdir_error env (dest req) = None ->
  st_dirs (batch_start env req s) !! folder req = Some names ->
  exists results s',
    processFolder env req cb s = (Ok results, s')
    /\ length (imageFiles_of cfg names) <= length results
       <= 2 * length (imageFiles_of cfg names)
    /\ (quiet cb -> length results = length (imageFiles_of cfg names)).
Proof.
  intros Hl Hm Hd. eexists _, _. split; [by apply processFolder_listed|].
  apply loop_length.
Qed.

Lemma batch_outlives_every_failure_witness :
  exists results s',
    processFolder Demo.env Demo.nested (Some Demo.grumpy) Demo.fresh = (Ok results, s')
    /\ length (imageFiles_of webp ["a.png"; "b.png"; "note.txt"; "c.png"; "x.png"])
       <= length results
       <= 2 * length (imageFiles_of webp ["a.png"; "b.png"; "note.txt"; "c.png"; "x.png"])
    /\ (quiet (Some Demo.grumpy)
        -> length results
           = length (imageFiles_of webp ["a.png"; "b.png"; "note.txt"; "c.png"; "x.png"])).
Proof.
  apply (batch_outlives_every_failure Demo.env Demo.nested (Some Demo.grumpy) Demo.fresh
           webp ["a.png"; "b.png"; "note.txt"; "c.png"; "x.png"]);
    vm_compute; reflexivity.
Defined.

(** X9. The results of a batch agree with the counters. When every
    cached result is a success, the entries with [success = true] that
    [processFolder] returns are as many as [processed] and [skipped] have
    grown together, and [failed] has grown by no more than the number of
    entries with [success = false]. *)
Theorem batch_results_match_counters
    (env : Env) (req : FolderRequest) (cb : option Callback) (s : State)
    (cfg : FormatConfig) (names : list string) :
  lookup (Str.toLowerCase (folder_format req)) = Own cfg ->
  mkdir_error env (dest req) = None ->
  st_dirs s !! folder req = Some names ->
  cache_ok s ->
  exists results s',
    processFolder env req cb s = (Ok results, s')
    /\ delivered s' = delivered s + count_successes results
    /\ failed (st_stats s) <= failed (st_stats s')
       <= failed (st_stats s) + count_failures results.
Proof.
  intros Hl Hm Hd Hc.
  destruct (listed_before env req names s Hm Hd) as [listed Hlisted].
  eexists _, _. split; [by apply (processFolder_listed env req cfg cb Hl listed)|].
  destruct (batch_start_facts env req s) as (Hca & _ & Hde & Hfa & _).
  assert (Hc0 : cache_ok (batch_start env req s)).
  { intros k r. rewrite Hca. apply Hc. }
  destruct (loop_account env req cfg cb (length (imageFiles_of cfg listed))
              (imageFiles_of cfg listed) 0 _ Hc0) as (_ & H1 & H2).
  rewrite Hde in H1. rewrite Hfa in H2. split; [exact H1|exact H2].
Qed.

Lemma batch_results_match_counters_witness :
  exists results s',
    processFolder Demo.env Demo.batch (Some Demo.silent) Demo.fresh = (Ok results, s')
    /\ delivered s' = delivered Demo.fresh + count_successes results
    /\ failed (st_stats Demo.fresh) <= failed (st_stats s')
       <= failed (st_stats Demo.fresh) + count_failures results.
Proof.
  apply (batch_results_match_counters Demo.env Demo.batch (Some Demo.silent) Demo.fresh
           webp ["a.png"; "b.png"; "note.txt"; "c.png"]); try reflexivity.
  intros k r H. vm_compute in H. discriminate H.
Defined.



(** X11. A batch changes no file but the inputs and outputs of its
    eligible entries. [names] is what the folder lists once the
    destination has been made. A path that is not the output path of an
    eligible entry keeps its content, the inputs included unless the
    options carry a truthy [remove]. *)
Theorem batch_touches_only_its_files
    (env : Env) (req : FolderRequest) (cb : option Callback) (s : State)
    (cfg : FormatConfig) (names : list string) (p : string) :
  lookup (Str.toLowerCase (folder_format req)) = Own cfg ->
  mkdir_error env (dest req) = None ->
  st_dirs (batch_start env req s) !! folder req = Some names ->
  (forall f, f ∈ imageFiles_of cfg names ->
     p <> Path.join (dest req) (Path.basename_ext f (Path.extname f) +:+ extension cfg)) ->
  (forall f, f ∈ imageFiles_of cfg names -> p <> Path.join (folder req) f)
  \/ (forall v, In ("remove", v) (folder_processingOptions req) -> truthy v = false) ->
  exists results s',
    processFolder env req cb s = (Ok results, s')
    /\ st_files s' !! p = st_files s !! p.
Proof.
  intros Hl Hm Hd Ho Hi. eexists _, _. split; [by apply processFolder_listed|].
  destruct (batch_start_facts env req s) as (_ & Hfi & _).
  cbn [completed tick with_stats st_files]. rewrite <- Hfi.
  apply loop_files; [done| |done].
  intros f Hf. rewrite item_output. by apply Ho.
Qed.

Lemma batch_touches_only_its_files_witness :
  exists results s',
    processFolder Demo.env Demo.batch None Demo.fresh = (Ok results, s')
    /\ st_files s' !! "in/a.png" = st_files Demo.fresh !! "in/a.png".
Proof.
  apply (batch_touches_only_its_files Demo.env Demo.batch None Demo.fresh
           webp ["a.png"; "b.png"; "note.txt"; "c.png"] "in/a.png");
    try (vm_compute; reflexivity).
  - intros f Hf. apply list_elem_of_In in Hf. vm_compute in Hf.
    destruct Hf as [<- | [<- | [<- | []]]]; vm_compute; discriminate.
  - right. intros v [H | []]. discriminate H.
Defined.

(** X14. A batch fails only in its preparations. For a registered
    format, [processFolder] throws exactly when the destination cannot be
    made or the folder cannot be listed once the destination has been
    made; when it throws, no file, no cache entry and no counter has
    changed. *)
Theorem batch_fails_only_in_its_preparations
    (env : Env) (req : FolderRequest) (cb : option Callback) (s : State)
    (cfg : FormatConfig) :
  lookup (Str.toLowerCase (folder_format req)) = Own cfg ->
  let s' := (processFolder env req cb s).2 in
  match (processFolder env req cb s).1 with
  | Throw _ =>
      (mkdir_error env (dest req) <> None
       \/ st_dirs (batch_start env req s) !! folder req = None)
      /\ st_files s' = st_files s
      /\ st_cache s' = st_cache s
      /\ counters s' = counters s
  | Ok _ =>
      mkdir_error env (dest req) = None
      /\ is_Some (st_dirs (batch_start env req s) !! folder req)
  end.
Proof.
  intros Hl s'. subst s'.
  destruct (mkdir_error env (dest req)) as [msg|] eqn:Hm.
  { rewrite (processFolder_mkdir_fail env req cfg cb Hl msg s Hm). cbn.
    split; [by left|]. done. }
  destruct (st_dirs (batch_start env req s) !! folder req) as [names|] eqn:Hd.
  - rewrite (processFolder_listed env req cfg cb Hl names s Hm Hd). cbn [fst].
    split; [done|]. by eexists.
  - destruct (processFolder_readdir_fail env req cfg cb Hl s Hm Hd) as [e ->].
    cbn [fst snd].
    destruct (batch_start_facts env req s) as (Hca & Hfi & _ & _ & Hco & _).
    split; [by right|]. split; [exact Hfi|]. split; [exact Hca|]. exact Hco.
Qed.

Lemma batch_fails_only_in_its_preparations_witness :
  let s' := (processFolder Demo.env Demo.deep None Demo.fresh).2 in
  match (processFolder Demo.env Demo.deep None Demo.fresh).1 with
  | Throw _ =>
      (mkdir_error Demo.env (dest Demo.deep) <> None
       \/ st_dirs (batch_start Demo.env Demo.deep Demo.fresh) !! folder Demo.deep = None)
      /\ st_files s' = st_files Demo.fresh
      /\ st_cache s' = st_cache Demo.fresh
      /\ counters s' = counters Demo.fresh
  | Ok _ =>
      mkdir_error Demo.env (dest Demo.deep) = None
      /\ is_Some (st_dirs (batch_start Demo.env Demo.deep Demo.fresh) !! folder Demo.deep)
  end.
Proof.
  apply (batch_fails_only_in_its_preparations Demo.env Demo.deep None Demo.fresh webp).
  reflexivity.
Defined.

(** X15. The directory of the output is made before the input is looked
    at. For a request whose format accepts the input, a call of
    [processFile] leaves the directory of the output path in place
    whenever that directory can be made, also when the call then throws
    because the input is missing or the encoder fails; and no call makes a
    directory disappear. *)
Theorem output_directory_is_made_first
    (env : Env) (req : FileRequest) (s : State) (cfg : FormatConfig) :
  accepts cfg req ->
  mkdir_error env (Path.dirname (resolveOutput req cfg)) = None ->
  let s' := (processFile env req s).2 in
  is_Some (st_dirs s' !! Path.dirname (resolveOutput req cfg))
  /\ forall q, is_Some (st_dirs s !! q) -> is_Some (st_dirs s' !! q).
Proof.
  intros Ha0 Hm0 s'. subst s'.
  file_cases env req s; cbn;
    try (exfalso; by eapply accepts_not_rejects);
    pose proof (accepts_unique _ _ _ Ha0 Ha) as <-; try congruence;
    rewrite ?leave_keeps, ?enter_keeps; (split; [done|]);
    intros q Hq; rewrite ?leave_keeps, ?enter_keeps; by apply Hdi.
Qed.

Lemma output_directory_is_made_first_witness :
  let s' := (processFile Demo.env (Demo.single false "in/missing.png") Demo.fresh).2 in
  is_Some (st_dirs s' !! Path.dirname (resolveOutput (Demo.single false "in/missing.png") webp))
  /\ forall q, is_Some (st_dirs Demo.fresh !! q) -> is_Some (st_dirs s' !! q).
Proof.
  apply (output_directory_is_made_first Demo.env (Demo.single false "in/missing.png")
           Demo.fresh webp).
  - split; reflexivity.
  - reflexivity.
Defined.

(** X16. The cache does not know the output path. After a call has
    returned a result, a call for the same input, format and options but
    another output path is served from the cache as long as the input is
    a regular file: it returns the earlier result and is counted as
    skipped, the encoder is not called and no file changes, so the new
    output path is not written. *)
Theorem other_output_is_served_from_cache
    (env : Env) (req : FileRequest) (o' : option string) (s s1 : State)
    (r : ProcessingResult) :
  processFile env req s = (Ok r, s1) ->
  is_Some (st_files s1 !! input req) ->
  (forall cfg, accepts cfg req ->
     mkdir_error env (Path.dirname (resolveOutput (with_output o' req) cfg)) = None) ->
  exists s2 ext,
    processFile env (with_output o' req) s1 = (Ok r, s2)
    /\ st_files s2 = st_files s1
    /\ skipped (st_stats s2) = S (skipped (st_stats s1))
    /\ processed (st_stats s2) = processed (st_stats s1)
    /\ st_trace s2 = st_trace s1 ++ ext
    /\ List.filter is_encode ext = [].
Proof.
  intros H [n Hn] Hmk.
  destruct (returned_call_facts env req s s1 r H) as (cfg & Ha & Hd & Hk).
  assert (Ha' : accepts cfg (with_output o' req)) by exact Ha.
  destruct (fs_mkdir_ok env _ (started env s1) (Hmk cfg Ha))
    as (s1' & Hrun & Hst & Hca & Hfi & _ & Htr & _).
  rewrite (processFile_image env cfg (with_output o' req) s1 s1' Ha' Hrun).
  change (st_cache (started env s1)) with (st_cache s1) in Hca.
  change (st_files (started env s1)) with (st_files s1) in Hfi.
  change (st_trace (started env s1)) with (st_trace s1) in Htr.
  cbn [input format processingOptions with_output].
  rewrite (processImage_hit env _ _ _ n r s1'); [|by rewrite Hfi|done|by rewrite Hca].
  cbn [finish]. eexists _, _. split; [reflexivity|]. cbn. rewrite Hst, Htr, Hfi. cbn.
  rewrite <- app_assoc. done.
Qed.

Lemma other_output_is_served_from_cache_witness :
  exists s2 ext,
    processFile Demo.env (with_output (Some "other/b.webp") (Demo.single false "in/a.png"))
      (Demo.after (processFile Demo.env (Demo.single false "in/a.png")) Demo.fresh)
    = (Ok (generateResult "in/a.png" 204800 122880), s2)
    /\ st_files s2
       = st_files (Demo.after (processFile Demo.env (Demo.single false "in/a.png")) Demo.fresh)
    /\ skipped (st_stats s2) = 1
    /\ processed (st_stats s2) = 1
    /\ st_trace s2
       = st_trace (Demo.after (processFile Demo.env (Demo.single false "in/a.png")) Demo.fresh)
         ++ ext
    /\ List.filter is_encode ext = [].
Proof.
  apply (other_output_is_served_from_cache Demo.env (Demo.single false "in/a.png")
           (Some "other/b.webp") Demo.fresh
           (Demo.after (processFile Demo.env (Demo.single false "in/a.png")) Demo.fresh)
           (generateResult "in/a.png" 204800 122880)).
  - vm_compute. reflexivity.
  - eexists. vm_compute. reflexivity.
  - reflexivity.
Defined.

(** ** Further properties of the derived output names *)

(** X17. An output path that [processFile] derives itself carries the
    extension of the target format. When the request names no output (or
    an empty one) and the input path has a last component, the derived
    path ends in the extension the registry gives for the format,
    whatever the name and the extension of the input are. *)
Theorem derived_output_has_the_target_extension (req : FileRequest) (cfg : FormatConfig) :
  lookup (Str.toLowerCase (format req)) = Own cfg ->
  output req = None \/ output req = Some EmptyString ->
  Path.basename (input req) <> EmptyString ->
  Path.extname (resolveOutput req cfg) = extension cfg.
Proof.
  intros Hl Ho Hb.
  assert (E : resolveOutput req cfg
              = Path.join (Path.dirname (input req))
                  (Path.basename_ext (input req) (Path.extname (input req))
                   +:+ extension cfg)).
  { unfold resolveOutput. by destruct Ho as [-> | ->]. }
  rewrite E. apply (OutputFacts.derived_output_extension _ _ _ _ Hl).
  intros Hnil. apply Hb. unfold Path.basename, Path.lift1. by rewrite Hnil.
Qed.

Lemma derived_output_has_the_target_extension_witness :
  Path.extname
    (resolveOutput
       {| input := "in/a.png"; output := None; format := "JPEG"; processingOptions := [] |}
       jpeg)
  = extension jpeg.
Proof.
  apply (derived_output_has_the_target_extension
           {| input := "in/a.png"; output := None; format := "JPEG";
              processingOptions := [] |} jpeg).
  - reflexivity.
  - by left.
  - vm_compute. discriminate.
Defined.

(** X18. What a batch asks of the encoder. [names] is what the folder
    lists once the destination has been made. When the entries of the
    folder are plain names, every encoder call of [processFolder] reads an
    eligible entry of the folder and writes the file of the same name
    with the target's extension into the destination, in the format that
    this extension names and with options that have no [format] property;
    only eligible entries of the folder are removed; and the encoder is
    called no more often than there are eligible entries. *)
Theorem batch_encodes_to_the_target_format
    (env : Env) (req : FolderRequest) (cb : option Callback) (s : State)
    (cfg : FormatConfig) (names : list string) :
  lookup (Str.toLowerCase (folder_format req)) = Own cfg ->
  mkdir_error env (dest req) = None ->
  st_dirs (batch_start env req s) !! folder req = Some names ->
  (forall f, In f names -> Path.plain_name f = true) ->
  exists results s' ext,
    processFolder env req cb s = (Ok results, s')
    /\ st_trace s' = st_trace s ++ ext
    /\ Forall (batch_event req cfg (imageFiles_of cfg names)) ext
    /\ length (List.filter is_encode ext) <= length (imageFiles_of cfg names).
Proof.
  intros Hl Hm Hd Hp.
  destruct (batch_start_facts env req s) as (_ & _ & _ & _ & _ & Htr).
  destruct (loop_requests env req cfg cb (length (imageFiles_of cfg names))
              (imageFiles_of cfg names) Hl (imageFiles_of cfg names)
              (fun f Hf => conj Hf (Hp f (proj1 (proj1 (filter_In _ _ _) Hf))))
              0 (batch_start env req s))
    as (ext & Ht & Hev & Hn).
  eexists _, _, ([IoMkdir (dest req); IoReaddir (folder req)] ++ ext).
  split; [by apply processFolder_listed|].
  split; [cbn [completed tick with_stats st_trace]; by rewrite Ht, Htr, <- app_assoc|].
  split; [|exact Hn]. by repeat constructor.
Qed.

Lemma batch_encodes_to_the_target_format_witness :
  exists results s' ext,
    processFolder Demo.env Demo.batch None Demo.fresh = (Ok results, s')
    /\ st_trace s' = st_trace Demo.fresh ++ ext
    /\ Forall (batch_event Demo.batch webp
                 (imageFiles_of webp ["a.png"; "b.png"; "note.txt"; "c.png"])) ext
    /\ length (List.filter is_encode ext)
       <= length (imageFiles_of webp ["a.png"; "b.png"; "note.txt"; "c.png"]).
Proof.
  apply (batch_encodes_to_the_target_format Demo.env Demo.batch None Demo.fresh webp
           ["a.png"; "b.png"; "note.txt"; "c.png"]); try (vm_compute; reflexivity).
  intros f [<- | [<- | [<- | [<- | []]]]]; reflexivity.
Defined.

